(** * Service 1 (document text extraction): a shallow embedding and its properties

    The development follows the Python sources:
    - [core_pdf_processor.py]: the quality gate [_is_garbage_text], the per-page
      extraction [_extract_page_text], the OCR helpers and the authentication
      loop of [extract_text_from_pdf_enhanced];
    - [file_management_service.py]: the password resolver and its two caches;
    - [progress_tracker.py] and the progress route of
      [document_text_extraction_router.py];
    - [document_text_extraction_service.py]: the per-document pipeline
      [_process_single_document], the queue-row statements and [_call_service2].

    Python values are modelled as follows.  An [int] is a [Z].  A [float] is the
    rational number the binary64 value denotes, and every float operation rounds
    its exact result to 53 significant bits, ties to even (exponent range is not
    modelled: no value of this development comes near it).  A [str] of text is
    the list of its code points; identifiers, paths and messages are [string]s.
    A [dict] is a [gmap].  [None] is [option]'s [None], and truthiness is written
    out where the code tests it. *)

From stdpp Require Import gmap strings list sorting.
From Stdlib Require Import ZArith QArith Qround Qabs Qpower Lia Lqa.

Close Scope Q_scope.

(** ** Python floats *)

Module PyFloat.
Local Open Scope Q_scope.

(** [binade x] is floor(log2 x) for a positive rational [x]. *)
Definition binade (x : Q) : Z :=
  let k := (Z.log2 (Qnum x) - Z.log2 (Z.pos (Qden x)))%Z in
  if Qle_bool (2 ^ k) x then k else (k - 1)%Z.

Definition round_half_even (x : Q) : Z :=
  let f := Qfloor x in
  match Qcompare (x - inject_Z f) (1 # 2) with
  | Lt => f
  | Gt => (f + 1)%Z
  | Eq => if Z.even f then f else (f + 1)%Z
  end.

(** Rounding of a positive rational to the nearest binary64 value: to 53
    significant bits, ties to even.  The exponent range is not modelled: this
    is the value Python computes as long as the magnitude stays below 2^1024
    (beyond it an int true division and [int] of an infinite product raise
    [OverflowError]) and, for what is read through [int], also where the value
    is too small to be normal, since it is then truncated to 0 either way.
    The statements that go through floats bound their arguments. *)
Definition rnd_pos (x : Q) : Q :=
  let e := (binade x - 52)%Z in
  inject_Z (round_half_even (x / 2 ^ e)) * 2 ^ e.

Definition rnd (x : Q) : Q :=
  match Qnum x with
  | Z0 => 0
  | Zpos _ => rnd_pos x
  | Zneg _ => - rnd_pos (- x)
  end.

(** [float(n)], a decimal literal [n/d], [a / b] on ints, [x * y], [x - y]. *)
Definition of_int (n : Z) : Q := rnd (inject_Z n).
Definition literal (n : Z) (d : positive) : Q := rnd (n # d).
Definition int_truediv (a b : Z) : Q := rnd (inject_Z a / inject_Z b).
Definition fmul (x y : Q) : Q := rnd (x * y).
Definition fsub (x y : Q) : Q := rnd (x - y).

(** [int(x)] truncates toward zero. *)
Definition to_int (x : Q) : Z := if Qle_bool 0 x then Qfloor x else Qceiling x.

(** Comparisons; Python compares an int with a float exactly. *)
Definition float_lt (x y : Q) : bool := negb (Qle_bool y x).
Definition float_gt (x y : Q) : bool := float_lt y x.
Definition int_gt_float (i : Z) (x : Q) : bool := float_lt x (inject_Z i).

End PyFloat.

(** ** Python text: code points, character classes, strip, split, findall *)

Module PyStr.
Local Open Scope Z_scope.

(** A text is the list of the code points [ord(c)] of its characters. *)
Definition text := list Z.

Definition len {A} (l : list A) : Z := Z.of_nat (length l).

(** [sum(1 for c in s if p c)] *)
Definition count {A} (p : A -> bool) (l : list A) : Z := len (List.filter p l).

Definition in_range (lo hi c : Z) : bool := (lo <=? c) && (c <=? hi).

Definition mem (c : Z) (l : list Z) : bool := existsb (Z.eqb c) l.

(** [str.isspace] on one character: the code points Python treats as white
    space.  [strip] and [split] use the same set. *)
Definition whitespace_points : list Z :=
  [9; 10; 11; 12; 13; 28; 29; 30; 31; 32; 133; 160; 5760;
   8192; 8193; 8194; 8195; 8196; 8197; 8198; 8199; 8200; 8201; 8202;
   8232; 8233; 8239; 8287; 12288].

Definition isspace (c : Z) : bool := mem c whitespace_points.

(** The Unicode character database beyond Latin-1 belongs to the Python
    runtime, not to the repository: it is a parameter. *)
Record unicode_db := {
  db_isalnum : Z -> bool;
  db_isprintable : Z -> bool
}.

(** [str.isalnum] on one character. *)
Definition isalnum (db : unicode_db) (c : Z) : bool :=
  if c <? 256 then
    in_range 48 57 c || in_range 65 90 c || in_range 97 122 c ||
    mem c [170; 178; 179; 181; 185; 186] || in_range 188 190 c ||
    in_range 192 214 c || in_range 216 246 c || in_range 248 255 c
  else db_isalnum db c.

(** [str.isprintable] on one character. *)
Definition isprintable (db : unicode_db) (c : Z) : bool :=
  if c <? 256 then
    in_range 32 126 c || in_range 161 172 c || in_range 174 255 c
  else db_isprintable db c.

Fixpoint lstrip (s : text) : text :=
  match s with
  | c :: s' => if isspace c then lstrip s' else s
  | [] => []
  end.

Definition rstrip (s : text) : text := rev (lstrip (rev s)).

(** [s.strip()] *)
Definition strip (s : text) : text := rstrip (lstrip s).

(** [s.split()]: the maximal runs of characters that are not white space.
    [cur] is the run being read, last character first. *)
Fixpoint split_from (cur : text) (s : text) : list text :=
  match s with
  | [] => match cur with [] => [] | _ => [rev cur] end
  | c :: s' =>
      if isspace c then
        match cur with
        | [] => split_from [] s'
        | _ => rev cur :: split_from [] s'
        end
      else split_from (c :: cur) s'
  end.

Definition split (s : text) : list text := split_from [] s.

(** [re.findall] of a pattern [[...]+] for a character class [cls]: the maximal runs of
    characters of the class, left to right. *)
Fixpoint findall_from (cls : Z -> bool) (cur : text) (s : text) : list text :=
  match s with
  | [] => match cur with [] => [] | _ => [rev cur] end
  | c :: s' =>
      if cls c then findall_from cls (c :: cur) s'
      else
        match cur with
        | [] => findall_from cls [] s'
        | _ => rev cur :: findall_from cls [] s'
        end
  end.

Definition findall_class_plus (cls : Z -> bool) (s : text) : list text :=
  findall_from cls [] s.

(** [len(set(s))] *)
Definition distinct (s : text) : Z := Z.of_nat (size (list_to_set s : gset Z)).

End PyStr.

(** ** The quality gate of [core_pdf_processor.py] *)

Module QualityGate.
Import PyFloat PyStr.
Local Open Scope Z_scope.

(** [ord(c) < 32] and [c] is none of tab, newline, carriage return. *)
Definition is_control_char (c : Z) : bool := (c <? 32) && negb (mem c [9; 10; 13]).

(** The class [[\x00-\x08\x0B\x0C\x0E-\x1F\x7F-\x9F]] of [control_pattern]. *)
Definition control_pattern (c : Z) : bool :=
  in_range 0 8 c || (c =? 11) || (c =? 12) || in_range 14 31 c || in_range 127 159 c.

(** The punctuation exempted from the special-character count:
    . , ! ? ; : ( ) [ ] { } and the double and single quotes. *)
Definition common_punctuation : list Z :=
  [46; 44; 33; 63; 59; 58; 40; 41; 91; 93; 123; 125; 34; 39].

(** [not c.isalnum() and not c.isspace()] and [c] is not common punctuation. *)
Definition is_special_char (db : unicode_db) (c : Z) : bool :=
  negb (isalnum db c) && negb (isspace c) && negb (mem c common_punctuation).

(** [ord(c) < 32] and none of tab, newline, carriage return, or [ord(c) > 126]. *)
Definition is_non_printable (c : Z) : bool :=
  (c <? 32) && negb (mem c [9; 10; 13]) || (126 <? c).

(** [c.isprintable()] and [c] is none of tab, newline, carriage return. *)
Definition is_printable_char (db : unicode_db) (c : Z) : bool :=
  isprintable db c && negb (mem c [9; 10; 13]).

Definition is_short_word (w : text) : bool := len w <? 2.

Definition _is_garbage_text (db : unicode_db) (text : text) : bool :=
  match strip text with
  | [] => true
  | _ =>
    let control_char_count := count is_control_char text in
    if int_gt_float control_char_count (fmul (of_int (len text)) (literal 3 10))
    then true else
    let control_sequences := findall_class_plus control_pattern text in
    if 3 <? len control_sequences then true else
    let special_char_ratio := int_truediv (count (is_special_char db) text) (len text) in
    if float_gt special_char_ratio (literal 5 10) then true else
    if distinct text <? 5 then true else
    let words := split text in
    if (0 <? len words) &&
       float_gt (int_truediv (count is_short_word words) (len words)) (literal 7 10)
    then true else
    let non_printable_count := count is_non_printable text in
    if int_gt_float non_printable_count (fmul (of_int (len text)) (literal 2 10))
    then true else
    let printable_ratio := int_truediv (count (is_printable_char db) text) (len text) in
    if float_lt printable_ratio (literal 3 10) then true else
    false
  end.

End QualityGate.

(** ** Exceptions, outcomes and truthiness *)

Module Py.

(** The text [str(e)] of an exception.  Two messages are built by f-strings
    from values; they are kept structured. *)
Inductive message :=
  | Literal (s : string)
  | PasswordAttemptsFailed (attempts : Z) (tried : list string).

(** A raised exception: whether it is an instance of [Exception] (what
    [except Exception] catches) and its text. *)
Record exn := { exn_is_Exception : bool; exn_text : message }.

Inductive outcome (A : Type) :=
  | Ret (a : A)
  | Raise (e : exn).
Arguments Ret {A} a.
Arguments Raise {A} e.

(** A call into a library (the PDF renderer, the OCR engine) that returns a
    value or raises an [Exception] whose text is [str(e)]. *)
Inductive attempt (A : Type) :=
  | Done (a : A)
  | Failed (text : string).
Arguments Done {A} a.
Arguments Failed {A} text.

#[global] Instance message_eq_dec : EqDecision message.
Proof. solve_decision. Defined.

(** Truthiness of an [Optional[str]] and of an [Optional[int]]. *)
Definition truthy (o : option string) : bool :=
  match o with
  | Some s => negb (String.eqb s "")
  | None => false
  end.

Definition truthy_int (o : option Z) : bool :=
  match o with
  | Some n => negb (n =? 0)%Z
  | None => false
  end.

End Py.

(** ** [file_management_service.py]: password resolver and caches *)

Module FileManagement.
Import Py.

(** [Path(pdf_path)]: the directory [.parent] and the base name [.name]. *)
Record path := { parent : string; name : string }.

(** The rows of a CSV file, as they are handed to [csv.writer] (which quotes
    the fields that need it).  The only files of interest are
    [<parent>/file_passwords.csv]: the store is keyed by the directory.  A
    file that cannot be read, or whose reading stops at an error, is the file
    of the rows read before the error: [load_saved_passwords] catches the
    exception and keeps what it has read. *)
Definition csv_rows := list (list string).

Definition header : list string := ["pdf_filename"; "password"].

Definition CR : Ascii.ascii := Ascii.ascii_of_nat 13.
Definition LF : Ascii.ascii := Ascii.ascii_of_nat 10.

(** The file is written with [newline=""] and read back without it: in the
    text read, every CR LF pair and every other CR has become LF, inside
    quoted fields too. *)
Fixpoint universal_newlines (s : string) : string :=
  match s with
  | EmptyString => EmptyString
  | String c s' =>
      if Ascii.eqb c CR then
        match s' with
        | String c' s'' =>
            if Ascii.eqb c' LF then String LF (universal_newlines s'')
            else String LF (universal_newlines s')
        | EmptyString => String LF EmptyString
        end
      else String c (universal_newlines s')
  end.

(** What [csv.reader] yields for a file that holds [rows]. *)
Definition read_rows (rows : csv_rows) : csv_rows :=
  map (map universal_newlines) rows.

(** [for row in reader: if len(row) >= 2: passwords[row[0]] = row[1]] *)
Definition load_row (passwords : gmap string string) (row : list string) :
    gmap string string :=
  match row with
  | k :: v :: _ => <[k := v]> passwords
  | _ => passwords
  end.

Definition load_saved_passwords (fs : gmap string csv_rows) (pdf_path : path) :
    gmap string string :=
  match fs !! parent pdf_path with
  | None => ∅
  | Some rows =>
      match read_rows rows with
      | [] => ∅
      | first_row :: rest =>
          match first_row with
          | [] => foldl load_row ∅ rest
          | [_] =>
              (* [first_row[1]] raises IndexError; the handler logs it and the
                 passwords read so far are returned *)
              ∅
          | k :: v :: _ =>
              if decide (first_row = header) then foldl load_row ∅ rest
              else foldl load_row (<[k := v]> ∅) rest
          end
      end
  end.

(** Order of [sorted(passwords.items())]: tuples compare component-wise. *)
Definition item_le (a b : string * string) : Prop :=
  if String.eqb a.1 b.1 then String.leb a.2 b.2 else String.leb a.1 b.1.

#[global] Instance item_le_dec a b : Decision (item_le a b).
Proof. unfold item_le. destruct (String.eqb a.1 b.1); apply _. Defined.

(** What the file system answers when the file is written: the write goes
    through, or [mkdir], [open] or a write raises an [OSError] with some text.
    After an error the file is as it was ([remains = None]: the directory or
    the file could not be opened) or holds what the failed write left of it
    ([remains = Some rows]: [open] truncates the file before anything is
    written). *)
Inductive write_answer :=
  | Written
  | WriteError (text : string) (remains : option csv_rows).

Definition save_password_to_csv (fs : gmap string csv_rows) (pdf_path : path)
    (password : string) (answer : write_answer) :
    attempt unit * gmap string csv_rows :=
  let passwords := <[name pdf_path := password]> (load_saved_passwords fs pdf_path) in
  match answer with
  | Written =>
      (Done tt,
       <[parent pdf_path :=
           header :: map (λ kv, [kv.1; kv.2])
                         (merge_sort item_le (map_to_list passwords))]> fs)
  | WriteError text remains =>
      (Failed text,
       match remains with
       | Some rows => <[parent pdf_path := rows]> fs
       | None => fs
       end)
  end.

Record service := {
  default_password : option string;
  password_cache : gmap string string
}.

Definition cache_successful_password (self : service) (pdf_path : path)
    (password : string) : service :=
  {| default_password := default_password self;
     password_cache := <[name pdf_path := password]> (password_cache self) |}.

(** The cache is updated first: it keeps the password also when the write of
    the CSV raises, and the exception goes to the caller. *)
Definition save_successful_password (self : service) (fs : gmap string csv_rows)
    (pdf_path : path) (password : string) (answer : write_answer) :
    attempt unit * (service * gmap string csv_rows) :=
  let self := cache_successful_password self pdf_path password in
  let '(raised, fs) := save_password_to_csv fs pdf_path password answer in
  (raised, (self, fs)).

(** [if cond: passwords.append(x)] *)
Definition append_if (cond : bool) (x : option string)
    (passwords : list (option string)) : list (option string) :=
  if cond then passwords ++ [x] else passwords.

Definition not_in (x : option string) (passwords : list (option string)) : bool :=
  bool_decide (x ∉ passwords).

Definition get_all_passwords_for_file (self : service) (fs : gmap string csv_rows)
    (pdf_path : path) (provided_password : option string) : list (option string) :=
  let filename := name pdf_path in
  let passwords := [] in
  let passwords := append_if (truthy provided_password) provided_password passwords in
  let saved_passwords := load_saved_passwords fs pdf_path in
  let passwords :=
    match saved_passwords !! filename with
    | Some pw => append_if (not_in (Some pw) passwords) (Some pw) passwords
    | None => passwords
    end in
  let passwords :=
    match password_cache self !! filename with
    | Some pw => append_if (not_in (Some pw) passwords) (Some pw) passwords
    | None => passwords
    end in
  let passwords :=
    append_if (truthy (default_password self) &&
               not_in (default_password self) passwords)
              (default_password self) passwords in
  passwords ++ [None].

End FileManagement.

(** ** [core_pdf_processor.py]: per-page extraction and the authentication loop *)

Module PdfProcessor.
Import Py PyStr QualityGate FileManagement.
Local Open Scope Z_scope.

(** A page as the two engines see it: what [page.get_text()] gives, whether
    [page.get_pixmap] succeeds, and what [pytesseract.image_to_string] gives
    for each [config] string.  Layout capture is not modelled: no property
    below depends on it and its helpers catch their own exceptions. *)
Record page := {
  get_text : attempt text;
  get_pixmap : attempt unit;
  image_to_string : string -> attempt text
}.

Record document := {
  needs_pass : bool;
  authenticate : string -> bool;
  doc_pages : list page
}.

Record processor := {
  max_pages : option Z;
  min_text_length : Z;
  verbose : bool;
  db : unicode_db;
  FITZ_AVAILABLE : bool;
  PYTESSERACT_AVAILABLE : bool
}.

Record page_result := {
  pr_text : text;
  pr_method : string;
  pr_error : option message
}.

(** [_extract_with_tesseract]: one OCR pass with the default configuration.
    The second component lists the [config] strings of the OCR calls made. *)
Definition _extract_with_tesseract (pg : page) : attempt text * list string :=
  match get_pixmap pg with
  | Failed e => (Failed e, [])
  | Done _ => (image_to_string pg "", [""%string])
  end.

Definition _extract_page_text (self : processor) (pg : page) :
    page_result * list string :=
  let fitz_page :=
    match get_text pg with
    | Done text =>
        if (min_text_length self <=? len (strip text)) &&
           negb (_is_garbage_text (db self) text)
        then Some {| pr_text := strip text; pr_method := "fitz"; pr_error := None |}
        else None
    | Failed _ => None
    end in
  match fitz_page with
  | Some r => (r, [])
  | None =>
      if PYTESSERACT_AVAILABLE self then
        match _extract_with_tesseract pg with
        | (Done text, calls) =>
            ({| pr_text := strip text; pr_method := "tesseract"; pr_error := None |},
             calls)
        | (Failed e, calls) =>
            ({| pr_text := []; pr_method := "failed";
                pr_error := Some (Literal ("Both fitz and tesseract failed: " ++ e)) |},
             calls)
        end
      else
        ({| pr_text := []; pr_method := "failed";
            pr_error := Some (Literal
              "Tesseract not available and fitz extraction failed") |}, [])
  end.

(** [_extract_page_with_tesseract_enhanced]: the helper with the second pass. *)
Definition _extract_page_with_tesseract_enhanced (self : processor) (pg : page) :
    text * list string :=
  if negb (PYTESSERACT_AVAILABLE self) then ([], [])
  else
    match get_pixmap pg with
    | Failed _ => ([], [])
    | Done _ =>
        match image_to_string pg "--psm 6 --oem 3" with
        | Failed _ => ([], ["--psm 6 --oem 3"%string])
        | Done raw =>
            let text := strip raw in
            if (len text <? 10) || _is_garbage_text (db self) text then
              match image_to_string pg "--psm 3 --oem 3" with
              | Failed _ => ([], ["--psm 6 --oem 3"; "--psm 3 --oem 3"]%string)
              | Done raw2 =>
                  (strip raw2, ["--psm 6 --oem 3"; "--psm 3 --oem 3"]%string)
              end
            else (text, ["--psm 6 --oem 3"%string])
        end
    end.

Record extraction_result := {
  success : bool;
  total_pages : Z;
  pages : list (Z * page_result);
  error_message : option message;
  password_required : bool;
  password_used : option string;
  attempts_made : Z;
  suggested_passwords : list string
}.

Definition initial_result : extraction_result :=
  {| success := false; total_pages := 0; pages := []; error_message := None;
     password_required := false; password_used := None; attempts_made := 0;
     suggested_passwords := [] |}.

(** What the loop does to the PDF library and to the password caches. *)
Inductive engine_event :=
  | EvOpen
  | EvAuthenticate (pwd : string)
  | EvClose
  | EvSavePassword (pwd : string).

(** The state the loop threads: the file-management service (when one was
    passed), the password files, what the file system answers to the writes of
    a password file ([csv_write n] for a write attempted when [n] engine
    events have been logged) and the log of engine events.
    [EvSavePassword] records a call of [save_successful_password], whether or
    not its write goes through. *)
Record engine_state := {
  fm : option service;
  fs : gmap string csv_rows;
  csv_write : nat -> write_answer;
  engine_log : list engine_event
}.

Definition log_event (ev : engine_event) (st : engine_state) : engine_state :=
  {| fm := fm st; fs := fs st; csv_write := csv_write st;
     engine_log := engine_log st ++ [ev] |}.

(** [for page_num in range(total_pages)]: pages are numbered from 1. *)
Fixpoint process_pages (self : processor) (page_num : Z) (pgs : list page) :
    list (Z * page_result) :=
  match pgs with
  | [] => []
  | pg :: rest =>
      (page_num + 1, fst (_extract_page_text self pg)) ::
      process_pages self (page_num + 1) rest
  end.

(** [if pwd and file_management_service:
        file_management_service.save_successful_password(pdf_path, pwd)] *)
Definition remember_password (pdf_path : path) (pwd : option string)
    (st : engine_state) : attempt unit * engine_state :=
  match pwd, fm st with
  | Some p, Some svc =>
      if truthy pwd then
        let '(raised, (svc', fs')) :=
          save_successful_password svc (fs st) pdf_path p
            (csv_write st (length (engine_log st))) in
        (raised,
         {| fm := Some svc'; fs := fs'; csv_write := csv_write st;
            engine_log := engine_log st ++ [EvSavePassword p] |})
      else (Done tt, st)
  | _, _ => (Done tt, st)
  end.

(** The attempt from [total_pages = len(doc)] to [result["success"] = True]. *)
Definition process_document (self : processor) (doc : document)
    (result : extraction_result) : extraction_result :=
  let physical := len (doc_pages doc) in
  let total :=
    match max_pages self with
    | None => physical
    | Some m => Z.min physical m
    end in
  {| success := true; total_pages := total;
     pages := process_pages self 0 (take (Z.to_nat total) (doc_pages doc));
     error_message := error_message result;
     password_required := password_required result;
     password_used := password_used result;
     attempts_made := attempts_made result;
     suggested_passwords := suggested_passwords result |}.

(** [for attempt, pwd in enumerate(passwords_to_try)].  The body of an
    attempt is under [try / except Exception: continue]: an exception of
    [fitz.open] or of [save_successful_password] abandons the attempt as it
    is (the document stays open, [password_used] keeps the candidate) and the
    loop goes on with the next candidate. *)
Fixpoint try_passwords (self : processor) (pdf_path : path)
    (fitz_open : attempt document) (attempt : Z)
    (passwords_to_try : list (option string))
    (result : extraction_result) (st : engine_state) :
    extraction_result * engine_state :=
  match passwords_to_try with
  | [] =>
      ({| success := success result; total_pages := total_pages result;
          pages := pages result;
          error_message := Some (PasswordAttemptsFailed (attempts_made result)
                                                        (suggested_passwords result));
          password_required := true;
          password_used := password_used result;
          attempts_made := attempts_made result;
          suggested_passwords := suggested_passwords result |}, st)
  | pwd :: rest =>
      let result :=
        {| success := success result; total_pages := total_pages result;
           pages := pages result; error_message := error_message result;
           password_required := password_required result;
           password_used := password_used result;
           attempts_made := attempt + 1;
           suggested_passwords := suggested_passwords result |} in
      let st := log_event EvOpen st in
      (* from [# If we get here, password worked] on *)
      let password_worked (doc : document) (st : engine_state) :=
        let result :=
          {| success := success result; total_pages := total_pages result;
             pages := pages result; error_message := error_message result;
             password_required := password_required result;
             password_used := pwd;
             attempts_made := attempts_made result;
             suggested_passwords := suggested_passwords result |} in
        match remember_password pdf_path pwd st with
        | (Done _, st) => (process_document self doc result, log_event EvClose st)
        | (Failed _, st) =>
            try_passwords self pdf_path fitz_open (attempt + 1) rest result st
        end in
      match fitz_open with
      | Failed _ => try_passwords self pdf_path fitz_open (attempt + 1) rest result st
      | Done doc =>
          if needs_pass doc then
            match pwd with
            | Some p =>
                if truthy pwd then
                  let st := log_event (EvAuthenticate p) st in
                  if authenticate doc p then password_worked doc st
                  else
                    try_passwords self pdf_path fitz_open (attempt + 1) rest result
                      (log_event EvClose st)
                else
                  try_passwords self pdf_path fitz_open (attempt + 1) rest result
                    (log_event EvClose st)
            | None =>
                try_passwords self pdf_path fitz_open (attempt + 1) rest result
                  (log_event EvClose st)
            end
          else password_worked doc st
      end
  end.

Definition extract_text_from_pdf_enhanced (self : processor) (pdf_path : path)
    (fitz_open : attempt document) (password : option string)
    (st : engine_state) : outcome extraction_result * engine_state :=
  if negb (FITZ_AVAILABLE self) then
    (Raise {| exn_is_Exception := true;
              exn_text := Literal "PyMuPDF (fitz) is required for PDF processing" |},
     st)
  else
    let passwords_to_try :=
      match fm st with
      | Some svc => get_all_passwords_for_file svc (fs st) pdf_path password
      | None => [password; None]
      end in
    let passwords_to_try := take 3 passwords_to_try in
    let result :=
      {| success := false; total_pages := 0; pages := []; error_message := None;
         password_required := false; password_used := None; attempts_made := 0;
         suggested_passwords := omap id passwords_to_try |} in
    let '(result, st) :=
      try_passwords self pdf_path fitz_open 0 passwords_to_try result st in
    (Ret result, st).


(** [extract_text_from_pdf]: one password, no resolver and no cache.  Its
    result dictionary has no [suggested_passwords] key (the field stays
    empty); [fitz.open] raising is caught by the outer handler, which puts the
    text of the exception into [error_message]. *)
Definition extract_text_from_pdf (self : processor) (fitz_open : attempt document)
    (password : option string) (st : engine_state) :
    outcome extraction_result * engine_state :=
  if negb (FITZ_AVAILABLE self) then
    (Raise {| exn_is_Exception := true;
              exn_text := Literal "PyMuPDF (fitz) is required for PDF processing" |},
     st)
  else
    let result := initial_result in
    let st := log_event EvOpen st in
    match fitz_open with
    | Failed e =>
        (Ret {| success := false; total_pages := 0; pages := [];
                error_message := Some (Literal e);
                password_required := false; password_used := None;
                attempts_made := 0; suggested_passwords := [] |}, st)
    | Done doc =>
        let refused (text : string) (st : engine_state) :=
          (Ret {| success := false; total_pages := 0; pages := [];
                  error_message := Some (Literal text);
                  password_required := true; password_used := None;
                  attempts_made := 0; suggested_passwords := [] |},
           log_event EvClose st) in
        let extracted (used : option string) (st : engine_state) :=
          let physical := len (doc_pages doc) in
          let total :=
            match max_pages self with
            | None => physical
            | Some m => Z.min physical m
            end in
          (Ret {| success := true; total_pages := total;
                  pages := process_pages self 0 (take (Z.to_nat total) (doc_pages doc));
                  error_message := None; password_required := false;
                  password_used := used; attempts_made := 0;
                  suggested_passwords := [] |},
           log_event EvClose st) in
        if needs_pass doc then
          match password with
          | Some p =>
              if truthy password then
                let st := log_event (EvAuthenticate p) st in
                if authenticate doc p then extracted password st
                else refused "Incorrect password for PDF" st
              else refused "PDF is password-protected but no password provided" st
          | None => refused "PDF is password-protected but no password provided" st
          end
        else extracted None st
    end.

(** *** [_extract_tesseract_layout]

    [pytesseract.image_to_data] returns parallel lists; [ocr_word] is what
    they hold at one index ([conf] after [int(...)]).  The loop keeps
    [current_block] and [current_line], which are the last block of the
    layout and the last line of that block: appending to them changes the
    layout in place. *)
Record ocr_word := {
  w_text : text; w_conf : Z; w_left : Z; w_top : Z; w_width : Z; w_height : Z
}.

Record span := {
  span_text : text; span_bbox : list Z; span_font : string;
  span_size : Z; span_flags : Z
}.

Record line := { line_bbox : list Z; line_spans : list span; line_y : Z }.

Record block := { block_bbox : list Z; block_lines : list line; block_y : Z }.

(** Applies [f] to the last element of a list. *)
Fixpoint alter_last {A} (f : A -> A) (l : list A) : list A :=
  match l with
  | [] => []
  | [x] => [f x]
  | x :: l' => x :: alter_last f l'
  end.

Definition word_bbox (w : ocr_word) : list Z :=
  [w_left w; w_top w; w_left w + w_width w; w_top w + w_height w].

Definition word_span (w : ocr_word) : span :=
  {| span_text := strip (w_text w); span_bbox := word_bbox w;
     span_font := "tesseract"; span_size := w_height w; span_flags := 0 |}.

Definition fresh_line (w : ocr_word) : line :=
  {| line_bbox := word_bbox w; line_spans := [word_span w]; line_y := w_top w |}.

(** One turn of the loop over the words. *)
Definition add_word (blocks : list block) (w : ocr_word) : list block :=
  match strip (w_text w) with
  | [] => blocks
  | _ =>
      if w_conf w <? 30 then blocks
      else
        let new_block :=
          match last blocks with
          | None => true
          | Some current_block => 20 <? Z.abs (w_top w - block_y current_block)
          end in
        if new_block then
          blocks ++
          [{| block_bbox := word_bbox w; block_lines := [fresh_line w];
              block_y := w_top w |}]
        else
          alter_last
            (λ current_block,
               let new_line :=
                 match last (block_lines current_block) with
                 | None => true
                 | Some current_line => 5 <? Z.abs (w_top w - line_y current_line)
                 end in
               {| block_bbox := block_bbox current_block;
                  block_lines :=
                    if new_line then block_lines current_block ++ [fresh_line w]
                    else
                      alter_last
                        (λ current_line,
                           {| line_bbox := line_bbox current_line;
                              line_spans := line_spans current_line ++ [word_span w];
                              line_y := line_y current_line |})
                        (block_lines current_block);
                  block_y := block_y current_block |})
            blocks
  end.

(** The blocks of the layout [_extract_tesseract_layout] returns. *)
Definition _extract_tesseract_layout (data : list ocr_word) : list block :=
  foldl add_word [] data.


End PdfProcessor.

(** ** [progress_tracker.py] *)

Module Tracker.
Import Py PyFloat.
Local Open Scope Z_scope.

(** The result dictionary of one document, as [_process_single_document]
    returns it and as the tracker stores it in [results]. *)
Record doc_result := {
  r_doc_id : string;
  r_success : bool;
  r_error : option message;
  r_total_pages : option Z;
  r_processed_pages : option Z;
  r_duration_seconds : option Z
}.

(** One entry of [_progress_trackers].  The keys [progress_percentage],
    [completed_at] and [error] are absent until first written. *)
Record entry := {
  total_documents : Z;
  processed_documents : Z;
  total_pages : Z;
  processed_pages : Z;
  current_document : option string;
  current_stage : option string;
  current_operation : option string;
  status : string;
  start_time : Z;
  last_update : Z;
  results : list doc_result;
  errors : list message;
  progress_percentage : option Z;
  completed_at : option Z;
  error : option message
}.

Definition start_extraction (trackers : gmap string entry) (batch_id : string)
    (queue_ids : list Z) (now : Z) : gmap string entry :=
  <[batch_id :=
      {| total_documents := Z.of_nat (length queue_ids); processed_documents := 0;
         total_pages := 0; processed_pages := 0; current_document := None;
         current_stage := None; current_operation := None; status := "starting";
         start_time := now; last_update := now; results := []; errors := [];
         progress_percentage := None; completed_at := None; error := None |}]>
    trackers.

(** [int((a / b) * 100)] *)
Definition percent (a b : Z) : Z := to_int (fmul (int_truediv a b) (of_int 100)).

(** The method's parameter [total_pages] is never read and is left out;
    [processed_pages_arg] is its parameter [processed_pages]. *)
Definition increment_processed (trackers : gmap string entry) (batch_id : string)
    (processed_pages_arg : Z) (now : Z) : gmap string entry * Z :=
  match trackers !! batch_id with
  | None => (trackers, 0)
  | Some tracker =>
      let count := processed_documents tracker + 1 in
      let total := total_documents tracker in
      let pages :=
        if 0 <? processed_pages_arg
        then processed_pages tracker + processed_pages_arg
        else processed_pages tracker in
      let percentage :=
        if 0 <? total_pages tracker then percent pages (total_pages tracker)
        else if 0 <? total then percent count total else 0 in
      (<[batch_id :=
           {| total_documents := total; processed_documents := count;
              total_pages := total_pages tracker; processed_pages := pages;
              current_document := current_document tracker;
              current_stage := current_stage tracker;
              current_operation := current_operation tracker;
              status := status tracker; start_time := start_time tracker;
              last_update := now; results := results tracker;
              errors := errors tracker; progress_percentage := Some percentage;
              completed_at := completed_at tracker; error := error tracker |}]>
         trackers, count)
  end.

(** The keyword arguments the callers of [update_progress] pass. *)
Inductive kwarg :=
  | kw_status (v : string)
  | kw_current_document (v : string)
  | kw_current_stage (v : string)
  | kw_current_operation (v : string)
  | kw_progress_percentage (v : Z)
  | kw_total_pages (v : Z)
  | kw_processed_pages (v : Z)
  | kw_processed_documents (v : Z).

(** [if key in tracker: tracker[key] = value] *)
Definition set_key (tracker : entry) (kw : kwarg) : entry :=
  let '{| total_documents := td; processed_documents := pd; total_pages := tp;
          processed_pages := pp; current_document := cd; current_stage := cs;
          current_operation := co; status := st; start_time := t0;
          last_update := lu; results := rs; errors := es;
          progress_percentage := pc; completed_at := ca; error := er |} := tracker in
  match kw with
  | kw_status v =>
      {| total_documents := td; processed_documents := pd; total_pages := tp;
         processed_pages := pp; current_document := cd; current_stage := cs;
         current_operation := co; status := v; start_time := t0; last_update := lu;
         results := rs; errors := es; progress_percentage := pc;
         completed_at := ca; error := er |}
  | kw_current_document v =>
      {| total_documents := td; processed_documents := pd; total_pages := tp;
         processed_pages := pp; current_document := Some v; current_stage := cs;
         current_operation := co; status := st; start_time := t0; last_update := lu;
         results := rs; errors := es; progress_percentage := pc;
         completed_at := ca; error := er |}
  | kw_current_stage v =>
      {| total_documents := td; processed_documents := pd; total_pages := tp;
         processed_pages := pp; current_document := cd; current_stage := Some v;
         current_operation := co; status := st; start_time := t0; last_update := lu;
         results := rs; errors := es; progress_percentage := pc;
         completed_at := ca; error := er |}
  | kw_current_operation v =>
      {| total_documents := td; processed_documents := pd; total_pages := tp;
         processed_pages := pp; current_document := cd; current_stage := cs;
         current_operation := Some v; status := st; start_time := t0;
         last_update := lu; results := rs; errors := es; progress_percentage := pc;
         completed_at := ca; error := er |}
  | kw_progress_percentage v =>
      {| total_documents := td; processed_documents := pd; total_pages := tp;
         processed_pages := pp; current_document := cd; current_stage := cs;
         current_operation := co; status := st; start_time := t0; last_update := lu;
         results := rs; errors := es;
         progress_percentage := match pc with Some _ => Some v | None => None end;
         completed_at := ca; error := er |}
  | kw_total_pages v =>
      {| total_documents := td; processed_documents := pd; total_pages := v;
         processed_pages := pp; current_document := cd; current_stage := cs;
         current_operation := co; status := st; start_time := t0; last_update := lu;
         results := rs; errors := es; progress_percentage := pc;
         completed_at := ca; error := er |}
  | kw_processed_pages v =>
      {| total_documents := td; processed_documents := pd; total_pages := tp;
         processed_pages := v; current_document := cd; current_stage := cs;
         current_operation := co; status := st; start_time := t0; last_update := lu;
         results := rs; errors := es; progress_percentage := pc;
         completed_at := ca; error := er |}
  | kw_processed_documents v =>
      {| total_documents := td; processed_documents := v; total_pages := tp;
         processed_pages := pp; current_document := cd; current_stage := cs;
         current_operation := co; status := st; start_time := t0; last_update := lu;
         results := rs; errors := es; progress_percentage := pc;
         completed_at := ca; error := er |}
  end.

Definition is_processed_documents (kw : kwarg) : bool :=
  match kw with kw_processed_documents _ => true | _ => false end.

Definition update_progress (trackers : gmap string entry) (batch_id : string)
    (kwargs : list kwarg) (now : Z) : gmap string entry :=
  match trackers !! batch_id with
  | None => trackers
  | Some tracker =>
      let tracker := foldl set_key tracker kwargs in
      let percentage :=
        if existsb is_processed_documents kwargs && (0 <? total_documents tracker)
        then Some (percent (processed_documents tracker) (total_documents tracker))
        else progress_percentage tracker in
      <[batch_id :=
          {| total_documents := total_documents tracker;
             processed_documents := processed_documents tracker;
             total_pages := total_pages tracker;
             processed_pages := processed_pages tracker;
             current_document := current_document tracker;
             current_stage := current_stage tracker;
             current_operation := current_operation tracker;
             status := status tracker; start_time := start_time tracker;
             last_update := now; results := results tracker;
             errors := errors tracker; progress_percentage := percentage;
             completed_at := completed_at tracker; error := error tracker |}]>
        trackers
  end.

(** The dictionary [get_progress] builds. *)
Record progress := {
  p_batch_id : string;
  p_status : string;
  p_total_documents : Z;
  p_processed_documents : Z;
  p_total_pages : Z;
  p_processed_pages : Z;
  p_current_document : option string;
  p_current_stage : option string;
  p_current_operation : option string;
  p_progress_percentage : Z;
  p_started_at : option Z;
  p_completed_at : option Z;
  p_results : list doc_result;
  p_errors : list message
}.

Definition get_progress (trackers : gmap string entry) (batch_id : string) :
    option progress :=
  match trackers !! batch_id with
  | None => None
  | Some tracker =>
      Some {| p_batch_id := batch_id; p_status := status tracker;
              p_total_documents := total_documents tracker;
              p_processed_documents := processed_documents tracker;
              p_total_pages := total_pages tracker;
              p_processed_pages := processed_pages tracker;
              p_current_document := current_document tracker;
              p_current_stage := current_stage tracker;
              p_current_operation := current_operation tracker;
              p_progress_percentage := default 0 (progress_percentage tracker);
              p_started_at := Some (start_time tracker);
              p_completed_at := completed_at tracker;
              p_results := results tracker; p_errors := errors tracker |}
  end.

Definition complete_extraction (trackers : gmap string entry) (batch_id : string)
    (batch_results : list doc_result) (now : Z) : gmap string entry :=
  match trackers !! batch_id with
  | None => trackers
  | Some tracker =>
      <[batch_id :=
          {| total_documents := total_documents tracker;
             processed_documents := processed_documents tracker;
             total_pages := total_pages tracker;
             processed_pages := processed_pages tracker;
             current_document := current_document tracker;
             current_stage := current_stage tracker;
             current_operation := current_operation tracker;
             status := "completed"; start_time := start_time tracker;
             last_update := now; results := batch_results;
             errors := errors tracker; progress_percentage := Some 100;
             completed_at := Some now; error := error tracker |}]>
        trackers
  end.

(** [cleanup_later], once its 300 seconds have passed. *)
Definition cleanup_later (trackers : gmap string entry) (batch_id : string) :
    gmap string entry :=
  delete batch_id trackers.


Definition fail_extraction (trackers : gmap string entry) (batch_id : string)
    (error_text : message) (now : Z) : gmap string entry :=
  match trackers !! batch_id with
  | None => trackers
  | Some tracker =>
      <[batch_id :=
          {| total_documents := total_documents tracker;
             processed_documents := processed_documents tracker;
             total_pages := total_pages tracker;
             processed_pages := processed_pages tracker;
             current_document := current_document tracker;
             current_stage := current_stage tracker;
             current_operation := current_operation tracker;
             status := "failed"; start_time := start_time tracker;
             last_update := now; results := results tracker;
             errors := errors tracker;
             progress_percentage := progress_percentage tracker;
             completed_at := completed_at tracker; error := Some error_text |}]>
        trackers
  end.

(** [update_total_pages]: the only method that leaves [last_update] alone. *)
Definition update_total_pages (trackers : gmap string entry) (batch_id : string)
    (total_pages_arg : Z) : gmap string entry :=
  match trackers !! batch_id with
  | None => trackers
  | Some tracker =>
      <[batch_id :=
          {| total_documents := total_documents tracker;
             processed_documents := processed_documents tracker;
             total_pages := total_pages_arg;
             processed_pages := processed_pages tracker;
             current_document := current_document tracker;
             current_stage := current_stage tracker;
             current_operation := current_operation tracker;
             status := status tracker; start_time := start_time tracker;
             last_update := last_update tracker; results := results tracker;
             errors := errors tracker;
             progress_percentage := progress_percentage tracker;
             completed_at := completed_at tracker; error := error tracker |}]>
        trackers
  end.

(** [update_page_progress]: [current_document or tracker["current_document"]]
    keeps the old document for [None] and for the empty string. *)
Definition update_page_progress (trackers : gmap string entry) (batch_id : string)
    (pages_processed_count : Z) (current_document_arg : option string) (now : Z) :
    gmap string entry :=
  match trackers !! batch_id with
  | None => trackers
  | Some tracker =>
      <[batch_id :=
          {| total_documents := total_documents tracker;
             processed_documents := processed_documents tracker;
             total_pages := total_pages tracker;
             processed_pages := pages_processed_count;
             current_document :=
               if truthy current_document_arg then current_document_arg
               else current_document tracker;
             current_stage := current_stage tracker;
             current_operation := current_operation tracker;
             status := status tracker; start_time := start_time tracker;
             last_update := now; results := results tracker;
             errors := errors tracker;
             progress_percentage := progress_percentage tracker;
             completed_at := completed_at tracker; error := error tracker |}]>
        trackers
  end.

(** [get_tracker] *)
Definition get_tracker (trackers : gmap string entry) (batch_id : string) :
    option entry :=
  trackers !! batch_id.


End Tracker.

(** ** The progress route of [document_text_extraction_router.py] *)

Module Router.
Import Py Tracker.
Local Open Scope Z_scope.

(** What a route hands back: a response body, or an [HTTPException]. *)
Inductive response (A : Type) :=
  | Body (a : A)
  | HTTPException (status_code : Z).
Arguments Body {A} a.
Arguments HTTPException {A} status_code.

(** The pydantic model [TextExtractionProgress] has the fields of [progress]. *)
Definition get_document_text_extraction_progress (trackers : gmap string entry)
    (batch_id : string) : response progress :=
  match get_progress trackers batch_id with
  | None =>
      Body {| p_batch_id := batch_id; p_status := "completed";
              p_total_documents := 0; p_processed_documents := 0;
              p_total_pages := 0; p_processed_pages := 0;
              p_progress_percentage := 100; p_current_document := None;
              p_current_stage := Some "completed"%string;
              p_current_operation := Some "Text extraction completed"%string;
              p_started_at := None; p_completed_at := None;
              p_results := []; p_errors := [] |}
  | Some progress => Body progress
  end.

End Router.

(** ** [document_text_extraction_service.py]: queue rows and the pipeline *)

Module Service.
Import Py PyFloat FileManagement.
Local Open Scope Z_scope.

(** A row of [doc_text_extraction_queue] (the columns the service writes). *)
Record row := {
  extraction_id : Z;
  doc_id : string;
  text_extraction_status : Z;
  is_processing : bool;
  processing_started_at : option Z;
  datalake_raw_uri : option string;
  datalake_text_uri : option string;
  text_extraction_duration_seconds : option Z;
  last_error_message : option message;
  error_message : option message;
  last_processed_at : option Z;
  extracted_at : option Z;
  updated_at : option Z
}.

(** The dictionary [_get_documents_from_queue] builds for one row. *)
Record doc_info := {
  di_extraction_id : option Z;
  di_doc_id : string;
  di_password : option string
}.

(** The calls of one run that the ordering properties speak about, in the
    order they are made. *)
Inductive event :=
  | set_processing_lock (acquired : bool)
  | update_datalake_raw_uri (raw_uri : string)
  | save_extracted_content (written : list (Z * string))
  | update_datalake_text_uri (text_uri : string)
  | update_queue_status (status_value : Z)
  | update_error_message (text : option message)
  | update_text_extraction_duration (duration_seconds : Z)
  | update_last_processed
  | call_service2 (id : Z)
  | clear_processing_lock.

#[global] Instance event_eq_dec : EqDecision event.
Proof. solve_decision. Defined.

(** The response of the HTTP client to the POST of [_call_service2]. *)
Inductive post_outcome :=
  | Response (status_code : Z)
  | TimeoutException
  | RequestError (text : string)
  | OtherException (text : string).

(** The configuration [__init__] reads.  [extracted_text_folder doc_id] is
    [str(self.service1_output_folder / doc_id / "extracted_text")]: the
    joining and normalising that [pathlib] does is not modelled. *)
Record config := {
  storage_backend : string;
  s3_bucket : string;
  s3_prefix : string;
  extracted_text_folder : string -> string;
  service2_enabled : bool;
  httpx_installed : bool;
  pdf_processor : PdfProcessor.processor
}.

(** What the surroundings answer during one run.  The n-th database
    statement of the run goes through iff [db_available n], at time
    [db_now n]; [time_start] and [time_end] are the two readings of
    [time.time()]. *)
Record env := {
  db_available : nat -> bool;
  db_now : nat -> Z;
  time_start : Q;
  time_end : Q;
  tracker_now : Z;
  get_pdf_file : outcome (option path);
  fitz_open : attempt PdfProcessor.document;
  storage_write : outcome unit;
  post : post_outcome
}.

(** The state a run reads and writes: the queue table, the process-wide
    tracker, the password caches, the count of database statements made, the
    log of calls, and the local variable [lock_acquired] of the running
    [_process_single_document]. *)
Record state := {
  queue : list row;
  trackers : gmap string Tracker.entry;
  engine : PdfProcessor.engine_state;
  statements : nat;
  trace : list event;
  lock_acquired : bool
}.

Definition M (A : Type) : Type := state -> outcome A * state.

Definition ret {A} (a : A) : M A := λ s, (Ret a, s).

Definition bind {A B} (m : M A) (f : A -> M B) : M B :=
  λ s, match m s with
       | (Ret a, s') => f a s'
       | (Raise e, s') => (Raise e, s')
       end.

Notation "'let*' x ':=' m 'in' k" := (bind m (λ x, k))
  (at level 10, x name, m at level 100, k at level 200, only parsing).
Notation "m ;;; k" := (bind m (λ _, k))
  (at level 100, right associativity, only parsing).

(** [try: body / except Exception as e: handler e] *)
Definition try_except {A} (body : M A) (handler : exn -> M A) : M A :=
  λ s, match body s with
       | (Raise e, s') =>
           if exn_is_Exception e then handler e s' else (Raise e, s')
       | r => r
       end.

(** [try: body / finally: final] *)
Definition try_finally {A} (body : M A) (final : M unit) : M A :=
  λ s, match body s with
       | (r, s') =>
           match final s' with
           | (Ret _, s'') => (r, s'')
           | (Raise e, s'') => (Raise e, s'')
           end
       end.

Definition log (ev : event) : M unit :=
  λ s, (Ret tt,
        {| queue := queue s; trackers := trackers s; engine := engine s;
           statements := statements s; trace := trace s ++ [ev];
           lock_acquired := lock_acquired s |}).

Definition set_lock_acquired (b : bool) : M unit :=
  λ s, (Ret tt,
        {| queue := queue s; trackers := trackers s; engine := engine s;
           statements := statements s; trace := trace s;
           lock_acquired := b |}).

Definition get_lock_acquired : M bool := λ s, (Ret (lock_acquired s), s).

Definition on_trackers
    (f : gmap string Tracker.entry -> gmap string Tracker.entry) : M unit :=
  λ s, (Ret tt,
        {| queue := queue s; trackers := f (trackers s); engine := engine s;
           statements := statements s; trace := trace s;
           lock_acquired := lock_acquired s |}).

(** [UPDATE doc_text_extraction_queue SET ... WHERE doc_id = %s] *)
Definition update_where (id : string) (set : row -> row) (q : list row) : list row :=
  map (λ r, if decide (doc_id r = id) then set r else r) q.

(** One statement under the [try/except] of its helper: on an error nothing
    is committed and the helper returns [False]. *)
Definition execute (e : env) (change : Z -> list row -> list row) : M bool :=
  λ s, let n := statements s in
       if db_available e n then
         (Ret true,
          {| queue := change (db_now e n) (queue s); trackers := trackers s;
             engine := engine s; statements := S n; trace := trace s;
             lock_acquired := lock_acquired s |})
       else
         (Ret false,
          {| queue := queue s; trackers := trackers s; engine := engine s;
             statements := S n; trace := trace s;
             lock_acquired := lock_acquired s |}).

Definition set_status (v now : Z) (r : row) : row :=
  {| extraction_id := extraction_id r; doc_id := doc_id r;
     text_extraction_status := v; is_processing := is_processing r;
     processing_started_at := processing_started_at r;
     datalake_raw_uri := datalake_raw_uri r;
     datalake_text_uri := datalake_text_uri r;
     text_extraction_duration_seconds := text_extraction_duration_seconds r;
     last_error_message := last_error_message r; error_message := error_message r;
     last_processed_at := last_processed_at r; extracted_at := extracted_at r;
     updated_at := Some now |}.

Definition set_duration (v now : Z) (r : row) : row :=
  {| extraction_id := extraction_id r; doc_id := doc_id r;
     text_extraction_status := text_extraction_status r;
     is_processing := is_processing r;
     processing_started_at := processing_started_at r;
     datalake_raw_uri := datalake_raw_uri r;
     datalake_text_uri := datalake_text_uri r;
     text_extraction_duration_seconds := Some v;
     last_error_message := last_error_message r; error_message := error_message r;
     last_processed_at := last_processed_at r; extracted_at := extracted_at r;
     updated_at := Some now |}.

Definition set_last_processed (now : Z) (r : row) : row :=
  {| extraction_id := extraction_id r; doc_id := doc_id r;
     text_extraction_status := text_extraction_status r;
     is_processing := is_processing r;
     processing_started_at := processing_started_at r;
     datalake_raw_uri := datalake_raw_uri r;
     datalake_text_uri := datalake_text_uri r;
     text_extraction_duration_seconds := text_extraction_duration_seconds r;
     last_error_message := last_error_message r; error_message := error_message r;
     last_processed_at := Some now; extracted_at := Some now;
     updated_at := Some now |}.

Definition set_raw_uri (v : string) (now : Z) (r : row) : row :=
  {| extraction_id := extraction_id r; doc_id := doc_id r;
     text_extraction_status := text_extraction_status r;
     is_processing := is_processing r;
     processing_started_at := processing_started_at r;
     datalake_raw_uri := Some v;
     datalake_text_uri := datalake_text_uri r;
     text_extraction_duration_seconds := text_extraction_duration_seconds r;
     last_error_message := last_error_message r; error_message := error_message r;
     last_processed_at := last_processed_at r; extracted_at := extracted_at r;
     updated_at := Some now |}.

Definition set_text_uri (v : string) (now : Z) (r : row) : row :=
  {| extraction_id := extraction_id r; doc_id := doc_id r;
     text_extraction_status := text_extraction_status r;
     is_processing := is_processing r;
     processing_started_at := processing_started_at r;
     datalake_raw_uri := datalake_raw_uri r;
     datalake_text_uri := Some v;
     text_extraction_duration_seconds := text_extraction_duration_seconds r;
     last_error_message := last_error_message r; error_message := error_message r;
     last_processed_at := last_processed_at r; extracted_at := extracted_at r;
     updated_at := Some now |}.

Definition set_error (v : option message) (now : Z) (r : row) : row :=
  {| extraction_id := extraction_id r; doc_id := doc_id r;
     text_extraction_status := text_extraction_status r;
     is_processing := is_processing r;
     processing_started_at := processing_started_at r;
     datalake_raw_uri := datalake_raw_uri r;
     datalake_text_uri := datalake_text_uri r;
     text_extraction_duration_seconds := text_extraction_duration_seconds r;
     last_error_message := v; error_message := v;
     last_processed_at := last_processed_at r; extracted_at := extracted_at r;
     updated_at := Some now |}.

Definition set_lock (v : bool) (started : option Z) (now : Z) (r : row) : row :=
  {| extraction_id := extraction_id r; doc_id := doc_id r;
     text_extraction_status := text_extraction_status r;
     is_processing := v;
     processing_started_at := started;
     datalake_raw_uri := datalake_raw_uri r;
     datalake_text_uri := datalake_text_uri r;
     text_extraction_duration_seconds := text_extraction_duration_seconds r;
     last_error_message := last_error_message r; error_message := error_message r;
     last_processed_at := last_processed_at r; extracted_at := extracted_at r;
     updated_at := Some now |}.

Definition _update_queue_status (e : env) (id : string) (status_value : Z) : M bool :=
  log (update_queue_status status_value) ;;;
  execute e (λ now, update_where id (set_status status_value now)).

Definition _update_text_extraction_duration (e : env) (id : string)
    (duration_seconds : Z) : M bool :=
  log (update_text_extraction_duration duration_seconds) ;;;
  execute e (λ now, update_where id (set_duration duration_seconds now)).

Definition _update_last_processed (e : env) (id : string) : M bool :=
  log update_last_processed ;;;
  execute e (λ now, update_where id (set_last_processed now)).

Definition _update_datalake_raw_uri (e : env) (id : string) (raw_uri : string) :
    M bool :=
  log (update_datalake_raw_uri raw_uri) ;;;
  execute e (λ now, update_where id (set_raw_uri raw_uri now)).

Definition _update_datalake_text_uri (e : env) (id : string) (text_uri : string) :
    M bool :=
  log (update_datalake_text_uri text_uri) ;;;
  execute e (λ now, update_where id (set_text_uri text_uri now)).

Definition _update_error_message (e : env) (id : string) (text : option message) :
    M bool :=
  log (update_error_message text) ;;;
  execute e (λ now, update_where id (set_error text now)).

(** [SELECT is_processing ... WHERE doc_id = %s AND is_processing = TRUE],
    then the [UPDATE] that sets the lock.  The event records the answer. *)
Definition _set_processing_lock (e : env) (id : string) : M bool :=
  let* acquired :=
    (let* selected := execute e (λ _ q, q) in
     if negb selected then ret false
     else
       let* busy :=
         (λ s, (Ret (existsb (λ r, bool_decide (doc_id r = id) && is_processing r)
                             (queue s)), s)) in
       if busy : bool then ret false
       else execute e (λ now, update_where id (set_lock true (Some now) now))) in
  log (set_processing_lock acquired) ;;;
  ret acquired.

Definition _clear_processing_lock (e : env) (id : string) : M bool :=
  log clear_processing_lock ;;;
  execute e (λ now, update_where id (set_lock false None now)).

(** [_call_service2]: the POST is made only when the integration is enabled. *)
Definition _call_service2 (self : config) (e : env) (id : Z) (doc : string) : M bool :=
  log (call_service2 id) ;;;
  if negb (service2_enabled self) || negb (httpx_installed self) then ret true
  else
    try_except
      (match post e with
       | Response status_code =>
           ret (bool_decide (status_code ∈ [200; 201; 202]))
       | TimeoutException => ret false
       | RequestError _ => ret false
       | OtherException text =>
           (λ s, (Raise {| exn_is_Exception := true; exn_text := Literal text |}, s))
       end)
      (λ _, ret false).

Definition _get_pdf_file (e : env) : M (option path) := λ s, (get_pdf_file e, s).

(** [_extract_pdf_text]: the engine run, with its own [try/except]. *)
Definition _extract_pdf_text (self : config) (e : env) (pdf_path : path)
    (password : option string) : M PdfProcessor.extraction_result :=
  try_except
    (λ s,
       let '(out, est) :=
         PdfProcessor.extract_text_from_pdf_enhanced (pdf_processor self) pdf_path
           (fitz_open e) password (engine s) in
       (out,
        {| queue := queue s; trackers := trackers s; engine := est;
           statements := statements s; trace := trace s;
           lock_acquired := lock_acquired s |}))
    (λ err,
       ret {| PdfProcessor.success := false; PdfProcessor.total_pages := 0;
              PdfProcessor.pages := [];
              PdfProcessor.error_message := Some (exn_text err);
              PdfProcessor.password_required := false;
              PdfProcessor.password_used := None;
              PdfProcessor.attempts_made := 0;
              PdfProcessor.suggested_passwords := [] |}).

(** [_save_extracted_content_to_service1_folder]: one artifact per page, in
    the order of [pages]; the event lists page number and method. *)
Definition _save_extracted_content_to_service1_folder (e : env)
    (r : PdfProcessor.extraction_result) : M unit :=
  log (save_extracted_content
         (map (λ p, (p.1, PdfProcessor.pr_method p.2)) (PdfProcessor.pages r))) ;;;
  (λ s, (storage_write e, s)).

Definition _build_s3_output_prefix (self : config) (id : string) : string :=
  String.concat "/"
    (List.filter (λ segment, negb (String.eqb segment ""))
       [s3_prefix self; id; "extracted_text"%string]).

Definition service1_text_path (self : config) (id : string) : string :=
  if String.eqb (storage_backend self) "s3"
  then "s3://" ++ s3_bucket self ++ "/" ++ _build_s3_output_prefix self id
  else extracted_text_folder self id.

Definition failure (id : string) (text : option message) : Tracker.doc_result :=
  {| Tracker.r_doc_id := id; Tracker.r_success := false; Tracker.r_error := text;
     Tracker.r_total_pages := None; Tracker.r_processed_pages := None;
     Tracker.r_duration_seconds := None |}.

Definition when_batch (batch_id : option string) (f : string -> M unit) : M unit :=
  match batch_id with
  | Some b => if truthy batch_id then f b else ret tt
  | None => ret tt
  end.

(** The pipeline is one [try / except Exception / finally] statement.  Its
    parts are named after the source: the [try] block up to the PDF access
    (Step 1), the extraction (Step 2), the saving and the completion (Step 3),
    the [except] block and the [finally] block. *)

(** Step 3 and what follows it, for a successful extraction. *)
Definition save_and_complete (self : config) (e : env) (info : doc_info)
    (batch_id : option string)
    (extraction_result : PdfProcessor.extraction_result) : M Tracker.doc_result :=
  let id := di_doc_id info in
  let start_time := time_start e in
  _save_extracted_content_to_service1_folder e extraction_result ;;;
  _update_datalake_text_uri e id (service1_text_path self id) ;;;
  _update_queue_status e id 100 ;;;
  when_batch batch_id (λ b, on_trackers (λ t,
    Tracker.update_progress t b
      [Tracker.kw_current_document id;
       Tracker.kw_current_stage "completed";
       Tracker.kw_current_operation
         "Text extraction completed - ready for Service 2 (embedding/classification)";
       Tracker.kw_status "completed"] (tracker_now e))) ;;;
  let end_time := time_end e in
  let duration_seconds := to_int (fsub end_time start_time) in
  _update_text_extraction_duration e id duration_seconds ;;;
  _update_last_processed e id ;;;
  (match di_extraction_id info with
   | Some x =>
       if truthy_int (di_extraction_id info)
       then _call_service2 self e x id ;;; ret tt
       else ret tt
   | None => ret tt
   end) ;;;
  let total_pages := PdfProcessor.total_pages extraction_result in
  let processed_pages := total_pages in
  when_batch batch_id (λ b, on_trackers (λ t,
    fst (Tracker.increment_processed t b processed_pages (tracker_now e)))) ;;;
  ret {| Tracker.r_doc_id := id; Tracker.r_success := true;
         Tracker.r_error := None;
         Tracker.r_total_pages := Some total_pages;
         Tracker.r_processed_pages := Some processed_pages;
         Tracker.r_duration_seconds := Some duration_seconds |}.

(** Step 2, once the PDF path is known. *)
Definition extract_and_save (self : config) (e : env) (info : doc_info)
    (batch_id : option string) (pdf_path : path) : M Tracker.doc_result :=
  let id := di_doc_id info in
  _update_datalake_raw_uri e id (parent pdf_path ++ "/" ++ name pdf_path) ;;;
  when_batch batch_id (λ b, on_trackers (λ t,
    Tracker.update_progress t b
      [Tracker.kw_current_document id;
       Tracker.kw_current_stage "extracting_text";
       Tracker.kw_current_operation
         "Extracting text from PDF pages using PyMuPDF/OCR";
       Tracker.kw_status "processing"] (tracker_now e))) ;;;
  let* extraction_result := _extract_pdf_text self e pdf_path (di_password info) in
  if negb (PdfProcessor.success extraction_result) then
    _update_queue_status e id (-1) ;;;
    let error_msg := PdfProcessor.error_message extraction_result in
    _update_error_message e id error_msg ;;;
    ret (failure id error_msg)
  else save_and_complete self e info batch_id extraction_result.

(** The [try] block. *)
Definition try_block (self : config) (e : env) (info : doc_info)
    (batch_id : option string) : M Tracker.doc_result :=
  let id := di_doc_id info in
  let* acquired := _set_processing_lock e id in
  set_lock_acquired acquired ;;;
  if negb acquired then
    ret (failure id (Some (Literal "Document is currently being processed")))
  else
    when_batch batch_id (λ b, on_trackers (λ t,
      Tracker.update_progress t b
        [Tracker.kw_current_document id;
         Tracker.kw_current_stage "downloading_pdf";
         Tracker.kw_current_operation "Accessing PDF file from datalake";
         Tracker.kw_status "processing"] (tracker_now e))) ;;;
    let* pdf_path := _get_pdf_file e in
    match pdf_path with
    | None =>
        _update_queue_status e id (-1) ;;;
        _update_error_message e id (Some (Literal "Could not access PDF file")) ;;;
        ret (failure id (Some (Literal "Could not access PDF file")))
    | Some pdf_path => extract_and_save self e info batch_id pdf_path
    end.

(** The [except Exception as e] block. *)
Definition except_block (e : env) (info : doc_info) (batch_id : option string)
    (err : exn) : M Tracker.doc_result :=
  let id := di_doc_id info in
  _update_queue_status e id (-1) ;;;
  _update_error_message e id (Some (exn_text err)) ;;;
  when_batch batch_id (λ b, on_trackers (λ t,
    fst (Tracker.increment_processed t b 0 (tracker_now e)))) ;;;
  ret (failure id (Some (exn_text err))).

(** The [finally] block. *)
Definition finally_block (e : env) (info : doc_info) : M unit :=
  let* acquired := get_lock_acquired in
  if acquired : bool then _clear_processing_lock e (di_doc_id info) ;;; ret tt
  else ret tt.

Definition _process_single_document (self : config) (e : env) (info : doc_info)
    (batch_id : option string) : M Tracker.doc_result :=
  set_lock_acquired false ;;;
  try_finally
    (try_except (try_block self e info batch_id) (except_block e info batch_id))
    (finally_block e info).


(** *** S3 locations *)

(** The character [/]. *)
Definition slash : Ascii.ascii := Ascii.ascii_of_nat 47.

(** [uri[5:]] *)
Fixpoint skip (n : nat) (s : string) : string :=
  match n, s with
  | O, _ => s
  | S n', String _ s' => skip n' s'
  | S _, EmptyString => EmptyString
  end.

(** [s.split("/", 1)]: the part before the first slash, and the part after
    it when there is a slash. *)
Fixpoint split_once (s : string) : string * option string :=
  match s with
  | EmptyString => (EmptyString, None)
  | String c s' =>
      if Ascii.eqb c slash then (EmptyString, Some s')
      else let '(first, rest) := split_once s' in (String c first, rest)
  end.

Fixpoint lstrip_slash (s : string) : string :=
  match s with
  | String c s' => if Ascii.eqb c slash then lstrip_slash s' else s
  | EmptyString => EmptyString
  end.

Fixpoint rstrip_slash (s : string) : string :=
  match s with
  | EmptyString => EmptyString
  | String c s' =>
      let r := rstrip_slash s' in
      if Ascii.eqb c slash && String.eqb r "" then EmptyString else String c r
  end.

(** [s.strip("/")] *)
Definition strip_slash (s : string) : string := rstrip_slash (lstrip_slash s).

Definition _parse_s3_uri (uri : string) : string * string :=
  let without_scheme := skip 5 uri in
  let '(bucket, rest) := split_once without_scheme in
  let prefix := match rest with Some p => p | None => EmptyString end in
  (bucket, strip_slash prefix).


End Service.

(** ** [extract_text_for_documents]: the results of a batch *)

Module Batch.
Import Py Tracker Service.
Local Open Scope Z_scope.

(** What [asyncio.gather(..., return_exceptions=True)] holds for one
    document: the dictionary its task returned, or the [Exception] it raised
    (its text is [str(result)]).  A task that ends with an exception which is
    not an [Exception] is not modelled. *)
Inductive task :=
  | Returned (r : doc_result)
  | Raised (text : message).

Definition result_of (doc : doc_info) (t : task) : doc_result :=
  match t with
  | Returned r => r
  | Raised text => failure (di_doc_id doc) (Some text)
  end.

(** [result.get("success") and "total_pages" in result] *)
Definition counts_pages (t : task) : bool :=
  match t with
  | Returned r =>
      r_success r && match r_total_pages r with Some _ => true | None => false end
  | Raised _ => false
  end.

Definition add_total (acc : Z) (t : task) : Z :=
  match t with
  | Returned r => if counts_pages t then acc + default 0 (r_total_pages r) else acc
  | Raised _ => acc
  end.

Definition add_processed (acc : Z) (t : task) : Z :=
  match t with
  | Returned r => if counts_pages t then acc + default 0 (r_processed_pages r) else acc
  | Raised _ => acc
  end.

(** The text of ["message"]: the literal of the early return, or the three
    numbers of the f-string. *)
Inductive summary :=
  | NoDocuments
  | Processed (documents successful failed : Z).

(** The dictionary the method returns.  The early return has no
    ["successful_count"] and no ["failed_count"] key. *)
Record response := {
  success : bool;
  message : summary;
  results : list doc_result;
  successful_count : option Z;
  failed_count : option Z
}.

(** [if not documents:] the batch is failed and the method returns. *)
Definition no_documents (batch_id : option string) (finished : Z)
    (trackers : gmap string entry) : response * gmap string entry :=
  ({| success := false; message := NoDocuments; results := [];
      successful_count := None; failed_count := None |},
   match batch_id with
   | Some b =>
       if truthy batch_id
       then fail_extraction trackers b (Literal "No documents found in queue") finished
       else trackers
   | None => trackers
   end).

(** The end of the method.  Without documents it is the early return.
    Otherwise it is the method from [# Process results] on: [completed] pairs
    every document with what its task gave, [trackers] is the tracker as the
    tasks left it, [now] is the clock of [update_progress] and [finished]
    that of [complete_extraction] and [fail_extraction].  What the method
    does between the two (the sum of [number_of_pages] over the rows, which
    raises a [TypeError] on a row without page count, and the announcements
    to the tracker) is not modelled: a call that raises there never comes
    here. *)
Definition process_results (batch_id : option string)
    (completed : list (doc_info * task)) (now finished : Z)
    (trackers : gmap string entry) : response * gmap string entry :=
  match completed with
  | [] => no_documents batch_id finished trackers
  | _ :: _ =>
      let results := map (λ c, result_of c.1 c.2) completed in
      let total_pages_accumulated := foldl add_total 0 (map snd completed) in
      let processed_pages_accumulated := foldl add_processed 0 (map snd completed) in
      let trackers :=
        match batch_id with
        | Some b =>
            if truthy batch_id then
              update_progress trackers b
                [kw_current_stage "completed"; kw_total_pages total_pages_accumulated;
                 kw_processed_pages processed_pages_accumulated] now
            else trackers
        | None => trackers
        end in
      let successful := PyStr.count r_success results in
      let failed := PyStr.len results - successful in
      let trackers :=
        match batch_id with
        | Some b =>
            if truthy batch_id then
              if 0 <? successful then complete_extraction trackers b results finished
              else fail_extraction trackers b
                     (Literal "All documents failed to process") finished
            else trackers
        | None => trackers
        end in
      ({| success := 0 <? successful;
          message := Processed (PyStr.len results) successful failed;
          results := results; successful_count := Some successful;
          failed_count := Some failed |}, trackers)
  end.

End Batch.



(** * Properties *)

(** ** Rounding to binary64 *)

Module PyFloatFacts.
Import PyFloat.
Local Open Scope Q_scope.

Lemma two_pow_pos (k : Z) : 0 < 2 ^ k.
Proof. apply Qpower_0_lt. reflexivity. Qed.

Lemma two_pow_succ (k : Z) : 2 ^ (k + 1) == 2 * 2 ^ k.
Proof. rewrite Qpower_plus by discriminate. rewrite Qpower_1_r. ring. Qed.

Lemma two_pow_pred (k : Z) : 2 * 2 ^ (k - 1) == 2 ^ k.
Proof. rewrite <- two_pow_succ. apply Qpower_comp; [reflexivity | lia]. Qed.

Lemma two_pow_mono (j k : Z) : (j <= k)%Z -> 2 ^ j <= 2 ^ k.
Proof. intros H. apply Qpower_le_compat_l; [exact H | discriminate]. Qed.

Lemma two_pow_log2 (a : Z) :
  (0 < a)%Z -> 2 ^ Z.log2 a <= inject_Z a /\ inject_Z a < 2 ^ (Z.log2 a + 1).
Proof.
  intros Ha. destruct (Z.log2_spec a Ha) as [H1 H2].
  pose proof (Z.log2_nonneg a) as Hn.
  split.
  - rewrite <- (Zpower_Qpower 2 (Z.log2 a)) by lia. rewrite <- Zle_Qle. exact H1.
  - rewrite <- (Zpower_Qpower 2 (Z.log2 a + 1)) by lia. rewrite <- Zlt_Qlt.
    replace (Z.succ (Z.log2 a)) with (Z.log2 a + 1)%Z in H2 by lia. exact H2.
Qed.

Lemma binade_spec (x : Q) :
  0 < x -> 2 ^ binade x <= x /\ x < 2 ^ (binade x + 1).
Proof.
  intros Hx. unfold binade.
  set (a := Qnum x). set (b := Z.pos (Qden x)).
  assert (Ha : (0 < a)%Z).
  { unfold Qlt in Hx. simpl in Hx. subst a. lia. }
  assert (Hb : (0 < b)%Z) by (subst b; lia).
  destruct (two_pow_log2 a Ha) as [A1 A2].
  destruct (two_pow_log2 b Hb) as [B1 B2].
  set (la := Z.log2 a) in *. set (lb := Z.log2 b) in *.
  assert (Hxab : x * inject_Z b == inject_Z a).
  { subst a b. destruct x as [n d]. unfold Qeq, inject_Z, Qmult. simpl. lia. }
  assert (Hk : 2 ^ (la - lb) * 2 ^ lb == 2 ^ la).
  { rewrite <- Qpower_plus by discriminate. apply Qpower_comp; [reflexivity | lia]. }
  pose proof (two_pow_pos la) as Pla. pose proof (two_pow_pos lb) as Plb.
  pose proof (two_pow_pos (la - lb)) as Pk.
  pose proof (two_pow_succ la) as Sla. pose proof (two_pow_succ lb) as Slb.
  pose proof (two_pow_succ (la - lb)) as Sk.
  pose proof (two_pow_pred (la - lb)) as Pdk.
  pose proof (two_pow_pos (la - lb - 1)) as Ppk.
  assert (Hib : 0 < inject_Z b) by (rewrite <- (Zlt_Qlt 0); exact Hb).
  destruct (Qle_bool (2 ^ (la - lb)) x) eqn:E.
  - apply Qle_bool_iff in E. split; [exact E |].
    rewrite Sk. nra.
  - assert (E' : x < 2 ^ (la - lb)).
    { apply Qnot_le_lt. intros C. apply Qle_bool_iff in C. congruence. }
    replace (la - lb - 1 + 1)%Z with (la - lb)%Z by lia.
    split; [| exact E']. nra.
Qed.

Lemma two_pow_lt_inv (j k : Z) : 2 ^ j < 2 ^ k -> (j < k)%Z.
Proof. intros H. apply (Qpower_lt_compat_l_inv 2); [exact H | reflexivity]. Qed.

Lemma binade_unique (x : Q) (k : Z) :
  2 ^ k <= x -> x < 2 ^ (k + 1) -> binade x = k.
Proof.
  intros H1 H2.
  assert (Hx : 0 < x) by (pose proof (two_pow_pos k); lra).
  destruct (binade_spec x Hx) as [B1 B2].
  assert ((k < binade x + 1)%Z) by (apply two_pow_lt_inv; lra).
  assert ((binade x < k + 1)%Z) by (apply two_pow_lt_inv; lra).
  lia.
Qed.

Ltac qcompare_hyps :=
  repeat match goal with
  | H : Qcompare _ _ = Eq |- _ => apply (proj2 (Qeq_alt _ _)) in H
  | H : Qcompare _ _ = Lt |- _ => apply (proj2 (Qlt_alt _ _)) in H
  | H : Qcompare _ _ = Gt |- _ => apply (proj2 (Qgt_alt _ _)) in H
  end.

Lemma round_half_even_bounds (z : Q) :
  inject_Z (round_half_even z) - (1 # 2) <= z /\
  z <= inject_Z (round_half_even z) + (1 # 2).
Proof.
  unfold round_half_even.
  pose proof (Qfloor_le z) as F1. pose proof (Qlt_floor z) as F2.
  rewrite inject_Z_plus in F2. change (inject_Z 1) with 1 in F2.
  destruct (Qcompare (z - inject_Z (Qfloor z)) (1 # 2)) eqn:E.
  - qcompare_hyps. destruct (Z.even (Qfloor z));
      rewrite ?inject_Z_plus; change (inject_Z 1) with 1; lra.
  - qcompare_hyps. lra.
  - qcompare_hyps. rewrite inject_Z_plus. change (inject_Z 1) with 1. lra.
Qed.

Lemma round_half_even_Z (n : Z) : round_half_even (inject_Z n) = n.
Proof.
  unfold round_half_even. rewrite Qfloor_Z.
  assert (E : Qcompare (inject_Z n - inject_Z n) (1 # 2) = Lt).
  { apply (proj1 (Qlt_alt _ _)). generalize (inject_Z n). intros q. lra. }
  now rewrite E.
Qed.

Lemma round_half_even_mono (z1 z2 : Q) :
  z1 <= z2 -> (round_half_even z1 <= round_half_even z2)%Z.
Proof.
  intros H. pose proof (Qfloor_resp_le z1 z2 H) as Hf.
  pose proof (Qfloor_le z1) as F1. pose proof (Qlt_floor z1) as F2.
  pose proof (Qfloor_le z2) as G1. pose proof (Qlt_floor z2) as G2.
  rewrite inject_Z_plus in F2, G2. change (inject_Z 1) with 1 in F2, G2.
  unfold round_half_even.
  destruct (Z.eq_dec (Qfloor z1) (Qfloor z2)) as [Ef | Nf].
  - rewrite <- Ef in *.
    destruct (Qcompare (z1 - inject_Z (Qfloor z1)) (1 # 2)) eqn:E1;
    destruct (Qcompare (z2 - inject_Z (Qfloor z1)) (1 # 2)) eqn:E2;
    qcompare_hyps; destruct (Z.even (Qfloor z1)); try lia; exfalso; lra.
  - assert (Hlt : (Qfloor z1 + 1 <= Qfloor z2)%Z) by lia.
    destruct (Qcompare (z1 - inject_Z (Qfloor z1)) (1 # 2));
    destruct (Qcompare (z2 - inject_Z (Qfloor z2)) (1 # 2));
    destruct (Z.even (Qfloor z1)); destruct (Z.even (Qfloor z2)); lia.
Qed.

Lemma round_half_even_comp (z1 z2 : Q) :
  z1 == z2 -> round_half_even z1 = round_half_even z2.
Proof.
  intros H. apply Z.le_antisymm; apply round_half_even_mono; lra.
Qed.

#[global] Instance round_half_even_proper : Proper (Qeq ==> eq) round_half_even.
Proof. intros z1 z2 H. now apply round_half_even_comp. Qed.

Lemma binade_comp (x y : Q) : 0 < x -> x == y -> binade x = binade y.
Proof.
  intros Hx E. destruct (binade_spec x Hx) as [B1 B2].
  symmetry. apply binade_unique; lra.
Qed.

(** Within the binade [2^k, 2^(k+1)) the rounding is to a multiple of 2^(k-52). *)
Lemma rnd_pos_binade (x : Q) (k : Z) :
  2 ^ k <= x -> x < 2 ^ (k + 1) ->
  rnd_pos x == inject_Z (round_half_even (x / 2 ^ (k - 52))) * 2 ^ (k - 52).
Proof.
  intros H1 H2. unfold rnd_pos. rewrite (binade_unique x k H1 H2). reflexivity.
Qed.

Lemma scaled_range (x : Q) (k : Z) :
  2 ^ k <= x -> x < 2 ^ (k + 1) ->
  2 ^ 52 <= x / 2 ^ (k - 52) /\ x / 2 ^ (k - 52) < 2 ^ 53.
Proof.
  intros H1 H2.
  pose proof (two_pow_pos (k - 52)) as P.
  assert (E1 : 2 ^ k == 2 ^ 52 * 2 ^ (k - 52)).
  { rewrite <- Qpower_plus by discriminate. apply Qpower_comp; [reflexivity | lia]. }
  assert (E2 : 2 ^ (k + 1) == 2 ^ 53 * 2 ^ (k - 52)).
  { rewrite <- Qpower_plus by discriminate. apply Qpower_comp; [reflexivity | lia]. }
  split.
  - apply Qle_shift_div_l; [exact P | lra].
  - apply Qlt_shift_div_r; [exact P | lra].
Qed.

Lemma rnd_pos_range (x : Q) (k : Z) :
  2 ^ k <= x -> x < 2 ^ (k + 1) ->
  2 ^ k <= rnd_pos x /\ rnd_pos x <= 2 ^ (k + 1).
Proof.
  intros H1 H2. rewrite (rnd_pos_binade x k H1 H2).
  destruct (scaled_range x k H1 H2) as [S1 S2].
  pose proof (two_pow_pos (k - 52)) as P.
  assert (E1 : 2 ^ k == 2 ^ 52 * 2 ^ (k - 52)).
  { rewrite <- Qpower_plus by discriminate. apply Qpower_comp; [reflexivity | lia]. }
  assert (E2 : 2 ^ (k + 1) == 2 ^ 53 * 2 ^ (k - 52)).
  { rewrite <- Qpower_plus by discriminate. apply Qpower_comp; [reflexivity | lia]. }
  assert (R1 : (2 ^ 52 <= round_half_even (x / 2 ^ (k - 52)))%Z).
  { rewrite <- (round_half_even_Z (2 ^ 52)). apply round_half_even_mono.
    rewrite (Zpower_Qpower 2 52) by lia. exact S1. }
  assert (R2 : (round_half_even (x / 2 ^ (k - 52)) <= 2 ^ 53)%Z).
  { rewrite <- (round_half_even_Z (2 ^ 53)). apply round_half_even_mono.
    rewrite (Zpower_Qpower 2 53) by lia. apply Qlt_le_weak. exact S2. }
  rewrite Zle_Qle in R1, R2.
  rewrite (Zpower_Qpower 2 52) in R1 by lia. rewrite (Zpower_Qpower 2 53) in R2 by lia.
  change (inject_Z 2) with 2 in R1, R2.
  split; nra.
Qed.

Lemma rnd_pos_mono (x y : Q) : 0 < x -> x <= y -> rnd_pos x <= rnd_pos y.
Proof.
  intros Hx Hxy. assert (Hy : 0 < y) by lra.
  destruct (binade_spec x Hx) as [X1 X2]. destruct (binade_spec y Hy) as [Y1 Y2].
  destruct (Z.lt_trichotomy (binade x) (binade y)) as [L | [E | G]].
  - destruct (rnd_pos_range x _ X1 X2) as [_ RX].
    destruct (rnd_pos_range y _ Y1 Y2) as [RY _].
    pose proof (two_pow_mono (binade x + 1) (binade y) ltac:(lia)). lra.
  - unfold rnd_pos. rewrite E.
    pose proof (two_pow_pos (binade y - 52)) as P.
    apply Qmult_le_compat_r; [| lra].
    rewrite <- Zle_Qle. apply round_half_even_mono.
    apply Qmult_le_compat_r; [exact Hxy |].
    apply Qlt_le_weak. apply Qinv_lt_0_compat. exact P.
  - exfalso. assert (2 ^ (binade y + 1) <= 2 ^ binade x) by (apply two_pow_mono; lia). lra.
Qed.

Lemma rnd_pos_comp (x y : Q) : 0 < x -> x == y -> rnd_pos x == rnd_pos y.
Proof. intros Hx E. apply Qle_antisym; apply rnd_pos_mono; lra. Qed.

(** Half an ulp: the rounding error is at most 2^(k-53) in binade k. *)
Lemma rnd_pos_error (x : Q) :
  0 < x -> Qabs (rnd_pos x - x) <= x * 2 ^ (-53).
Proof.
  intros Hx. destruct (binade_spec x Hx) as [X1 X2].
  set (k := binade x) in *.
  unfold rnd_pos. fold k.
  pose proof (two_pow_pos (k - 52)) as P.
  pose proof (round_half_even_bounds (x / 2 ^ (k - 52))) as [B1 B2].
  set (m := inject_Z (round_half_even (x / 2 ^ (k - 52)))) in *.
  assert (Ex : x == (x / 2 ^ (k - 52)) * 2 ^ (k - 52)) by (field; lra).
  set (z := x / 2 ^ (k - 52)) in *.
  assert (E1 : 2 ^ k * 2 ^ (-53) == 2 ^ (k - 52) * (1 # 2)).
  { rewrite <- Qpower_plus by discriminate.
    replace (k + -53)%Z with ((k - 52) - 1)%Z by lia.
    pose proof (two_pow_pred (k - 52)). lra. }
  pose proof (two_pow_pos (-53)) as P53.
  apply Qabs_Qle_condition. split; nra.
Qed.

Lemma scale_down (q a b c : Q) : 0 < a -> a * b == c -> q * c / a == q * b.
Proof. intros Ha <-. field. lra. Qed.

Lemma scale_back (q a b c : Q) : a * b == c -> q * b * a == q * c.
Proof. intros <-. ring. Qed.

Lemma div_as_mul (x a b : Q) : 0 < a -> a * b == 1 -> x / a == x * b.
Proof.
  intros Ha E. rewrite <- (scale_down x a b 1 Ha E). field. lra.
Qed.

(** A value with at most 53 significant bits is its own rounding. *)
Lemma rnd_pos_exact (m e : Z) :
  (0 < m < 2 ^ 53)%Z ->
  rnd_pos (inject_Z m * 2 ^ e) == inject_Z m * 2 ^ e.
Proof.
  intros [Hm1 Hm2].
  destruct (two_pow_log2 m Hm1) as [L1 L2].
  pose proof (Z.log2_nonneg m) as Hl0.
  assert (Hl : (Z.log2 m < 53)%Z) by (apply Z.log2_lt_pow2; lia).
  set (l := Z.log2 m) in *.
  pose proof (two_pow_pos e) as Pe.
  pose proof (two_pow_pos (l + e - 52)) as Pa.
  assert (E1 : 2 ^ (l + e) == 2 ^ l * 2 ^ e) by (apply Qpower_plus; discriminate).
  assert (E2 : 2 ^ (l + e + 1) == 2 ^ (l + 1) * 2 ^ e).
  { rewrite <- Qpower_plus by discriminate. apply Qpower_comp; [reflexivity | lia]. }
  assert (E0 : 2 ^ (l + e - 52) * 2 ^ (52 - l) == 2 ^ e).
  { rewrite <- Qpower_plus by discriminate. apply Qpower_comp; [reflexivity | lia]. }
  assert (EZ : inject_Z (m * 2 ^ (52 - l)) == inject_Z m * 2 ^ (52 - l)).
  { rewrite inject_Z_mult. rewrite (Zpower_Qpower 2 (52 - l)) by lia. reflexivity. }
  rewrite (rnd_pos_binade _ (l + e)) by nra.
  assert (E3 : inject_Z m * 2 ^ e / 2 ^ (l + e - 52) == inject_Z (m * 2 ^ (52 - l))).
  { rewrite EZ. apply scale_down; assumption. }
  rewrite E3. rewrite round_half_even_Z. rewrite EZ.
  apply scale_back. exact E0.
Qed.

(** *** [rnd] on non-negative values *)

Lemma Qnum_pos (x : Q) : 0 < x -> exists p, Qnum x = Z.pos p.
Proof.
  destruct x as [[| p | p] d]; unfold Qlt; simpl; intros H; try lia. eauto.
Qed.

Lemma Qnum_zero (x : Q) : x == 0 -> Qnum x = 0%Z.
Proof. destruct x as [n d]. unfold Qeq. simpl. lia. Qed.

Lemma rnd_of_pos (x : Q) : 0 < x -> rnd x = rnd_pos x.
Proof. intros H. destruct (Qnum_pos x H) as [p Hp]. unfold rnd. now rewrite Hp. Qed.

Lemma rnd_of_zero (x : Q) : x == 0 -> rnd x = 0.
Proof. intros H. unfold rnd. now rewrite (Qnum_zero x H). Qed.

Lemma rnd_pos_positive (x : Q) : 0 < x -> 0 < rnd_pos x.
Proof.
  intros Hx. destruct (binade_spec x Hx) as [B1 B2].
  destruct (rnd_pos_range x _ B1 B2) as [R _].
  pose proof (two_pow_pos (binade x)). lra.
Qed.

Lemma rnd_nonneg (x : Q) : 0 <= x -> 0 <= rnd x.
Proof.
  intros Hx. destruct (Qlt_le_dec 0 x) as [Hp | Hz].
  - rewrite (rnd_of_pos x Hp). apply Qlt_le_weak. now apply rnd_pos_positive.
  - rewrite rnd_of_zero by lra. lra.
Qed.

Lemma rnd_mono (x y : Q) : 0 <= x -> x <= y -> rnd x <= rnd y.
Proof.
  intros Hx Hxy. destruct (Qlt_le_dec 0 x) as [Hp | Hz].
  - rewrite (rnd_of_pos x Hp), (rnd_of_pos y) by lra. now apply rnd_pos_mono.
  - rewrite (rnd_of_zero x) by lra. apply rnd_nonneg. lra.
Qed.

Lemma rnd_comp_nonneg (x y : Q) : 0 <= x -> x == y -> rnd x == rnd y.
Proof. intros Hx E. apply Qle_antisym; apply rnd_mono; lra. Qed.

Lemma rnd_error (x : Q) : 0 <= x -> Qabs (rnd x - x) <= x * 2 ^ (-53).
Proof.
  intros Hx. destruct (Qlt_le_dec 0 x) as [Hp | Hz].
  - rewrite (rnd_of_pos x Hp). now apply rnd_pos_error.
  - rewrite rnd_of_zero by lra. pose proof (two_pow_pos (-53)).
    apply Qabs_Qle_condition. split; nra.
Qed.

Lemma rnd_exact (m e : Z) :
  (0 <= m < 2 ^ 53)%Z -> rnd (inject_Z m * 2 ^ e) == inject_Z m * 2 ^ e.
Proof.
  intros [H0 H1]. pose proof (two_pow_pos e) as Pe.
  destruct (Z.eq_dec m 0) as [-> | Hm].
  - rewrite rnd_of_zero; [ring | ring].
  - assert (Hq : 0 < inject_Z m) by (rewrite <- (Zlt_Qlt 0); lia).
    rewrite rnd_of_pos by nra. apply rnd_pos_exact. lia.
Qed.

Lemma rnd_exact_int (n : Z) :
  (0 <= n < 2 ^ 53)%Z -> rnd (inject_Z n) == inject_Z n.
Proof.
  intros H.
  assert (Hn : 0 <= inject_Z n) by (rewrite <- (Zle_Qle 0); lia).
  assert (E : inject_Z n == inject_Z n * 2 ^ 0) by (rewrite Qpower_0_r; ring).
  rewrite (rnd_comp_nonneg _ _ Hn E). rewrite (rnd_exact n 0 H).
  symmetry. exact E.
Qed.

Lemma of_int_exact (n : Z) : (0 <= n < 2 ^ 53)%Z -> of_int n == inject_Z n.
Proof. apply rnd_exact_int. Qed.


(** *** Rounding next to a representable value *)

Lemma rnd_below (x r : Q) (m e : Z) :
  (0 <= m < 2 ^ 53)%Z -> r == inject_Z m * 2 ^ e -> 0 <= x -> x <= r ->
  rnd x <= r.
Proof.
  intros Hm Hr Hx Hxr.
  assert (E : rnd r == r).
  { assert (H0 : 0 <= r) by lra.
    rewrite (rnd_comp_nonneg _ _ H0 Hr), rnd_exact by exact Hm. now symmetry. }
  rewrite <- E. now apply rnd_mono.
Qed.

Lemma rnd_above (x r : Q) (m e : Z) :
  (0 <= m < 2 ^ 53)%Z -> r == inject_Z m * 2 ^ e -> r <= x ->
  r <= rnd x.
Proof.
  intros Hm Hr Hrx.
  assert (H0 : 0 <= r).
  { rewrite Hr. pose proof (two_pow_pos e).
    assert (0 <= inject_Z m) by (rewrite <- (Zle_Qle 0); lia). nra. }
  assert (E : rnd r == r).
  { rewrite (rnd_comp_nonneg _ _ H0 Hr), rnd_exact by exact Hm. now symmetry. }
  rewrite <- E. now apply rnd_mono.
Qed.

Lemma round_half_even_near (M : Z) (z : Q) :
  inject_Z M - (1 # 2) < z -> z <= inject_Z M -> round_half_even z = M.
Proof.
  intros H1 H2. destruct (round_half_even_bounds z) as [B1 B2].
  set (R := round_half_even z) in *.
  assert (L : inject_Z M < inject_Z (R + 1) /\ inject_Z R < inject_Z (M + 1)).
  { rewrite !inject_Z_plus. change (inject_Z 1) with 1.
    revert H1 H2 B1 B2. generalize (inject_Z R) (inject_Z M).
    intros qR qM H1 H2 B1 B2. split; lra. }
  destruct L as [L1 L2]. rewrite <- Zlt_Qlt in L1, L2. lia.
Qed.

Lemma rnd_pos_near_int (c k : Z) (x : Q) :
  (0 <= k <= 51)%Z -> (2 ^ k < c < 2 ^ (k + 1))%Z ->
  inject_Z c - 2 ^ (k - 53) < x -> x <= inject_Z c ->
  rnd_pos x == inject_Z c.
Proof.
  intros Hk [Hc1 Hc2] Hx1 Hx2.
  assert (Q1 : 2 ^ k + 1 <= inject_Z c).
  { rewrite <- (Zpower_Qpower 2 k) by lia.
    change 1 with (inject_Z 1). rewrite <- inject_Z_plus, <- Zle_Qle. lia. }
  assert (Q2 : inject_Z c < 2 ^ (k + 1)).
  { rewrite <- (Zpower_Qpower 2 (k + 1)) by lia. rewrite <- Zlt_Qlt. lia. }
  assert (Q3 : 2 ^ (k - 53) < 1).
  { rewrite <- (Qpower_0_r 2). apply Qpower_lt_compat_l; [lia | reflexivity]. }
  pose proof (two_pow_pos (k - 52)) as P52.
  pose proof (two_pow_pos (52 - k)) as P52'.
  assert (E0 : 2 ^ (k - 52) * 2 ^ (52 - k) == 1).
  { rewrite <- Qpower_plus by discriminate.
    replace (k - 52 + (52 - k))%Z with 0%Z by lia. reflexivity. }
  assert (E1 : 2 * 2 ^ (k - 53) == 2 ^ (k - 52)).
  { replace (k - 53)%Z with (k - 52 - 1)%Z by lia. apply two_pow_pred. }
  assert (EZ : inject_Z (c * 2 ^ (52 - k)) == inject_Z c * 2 ^ (52 - k)).
  { rewrite inject_Z_mult. rewrite (Zpower_Qpower 2 (52 - k)) by lia. reflexivity. }
  rewrite (rnd_pos_binade x k) by lra.
  assert (Hz : x / 2 ^ (k - 52) == x * 2 ^ (52 - k)).
  { apply div_as_mul; assumption. }
  assert (Hr : round_half_even (x / 2 ^ (k - 52)) = (c * 2 ^ (52 - k))%Z).
  { apply round_half_even_near; rewrite EZ, Hz.
    - assert (inject_Z c * 2 ^ (52 - k) - x * 2 ^ (52 - k) < 1 # 2); [| lra].
      assert (Hd : inject_Z c - x < 2 ^ (k - 53)) by lra.
      assert (2 ^ (k - 53) * 2 ^ (52 - k) == 1 # 2).
      { assert (2 * (2 ^ (k - 53) * 2 ^ (52 - k)) == 1); [| lra].
        rewrite Qmult_assoc, E1. exact E0. }
      nra.
    - nra. }
  rewrite Hr, EZ. rewrite <- Qmult_assoc, (Qmult_comm (2 ^ (52 - k))), E0. ring.
Qed.

Lemma pow2_mod3 (k : Z) : (0 <= k)%Z -> (2 ^ k mod 3 = 1 \/ 2 ^ k mod 3 = 2)%Z.
Proof.
  revert k. apply natlike_ind.
  - left. reflexivity.
  - intros k Hk IH. rewrite Z.pow_succ_r by exact Hk.
    rewrite <- Z.mul_mod_idemp_r by lia.
    destruct IH as [-> | ->]; [right | left]; reflexivity.
Qed.

Lemma three_times_not_pow2 (j k : Z) : (0 <= k)%Z -> (3 * j <> 2 ^ k)%Z.
Proof.
  intros Hk E. destruct (pow2_mod3 k Hk) as [H | H]; rewrite <- E in H;
    rewrite Z.mul_comm, Z.mod_mul in H by lia; discriminate.
Qed.


(** *** The comparisons of the quality gate, in exact arithmetic *)

Lemma float_lt_spec (x y : Q) : float_lt x y = true <-> x < y.
Proof.
  unfold float_lt. rewrite negb_true_iff. split.
  - intros H. apply Qnot_le_lt. intros C. apply Qle_bool_iff in C. congruence.
  - intros H. destruct (Qle_bool y x) eqn:E; [| reflexivity].
    apply Qle_bool_iff in E. lra.
Qed.

Lemma float_gt_spec (x y : Q) : float_gt x y = true <-> y < x.
Proof. apply float_lt_spec. Qed.

Lemma int_gt_float_spec (i : Z) (x : Q) : int_gt_float i x = true <-> x < inject_Z i.
Proof. apply float_lt_spec. Qed.

(** The values of the decimal literals of the gate. *)
Lemma literal_3_10 : literal 3 10 == 5404319552844595 # 18014398509481984.
Proof. vm_compute. reflexivity. Qed.

Lemma literal_2_10 : literal 2 10 == 3602879701896397 # 18014398509481984.
Proof. vm_compute. reflexivity. Qed.

Lemma literal_7_10 : literal 7 10 == 6305039478318694 # 9007199254740992.
Proof. vm_compute. reflexivity. Qed.

Lemma literal_5_10 : literal 5 10 == 1 # 2.
Proof. vm_compute. reflexivity. Qed.

(** Counts and lengths: [0 <= c <= n], [0 < n < 2^48]. *)
Definition count_of (c n : Z) : Prop := (0 <= c <= n /\ 0 < n < 2 ^ 48)%Z.

Lemma ratio_facts (c n : Z) :
  count_of c n ->
  0 <= inject_Z c /\ inject_Z c <= inject_Z n /\ 0 < inject_Z n /\
  inject_Z n < 281474976710656 /\
  (inject_Z c / inject_Z n) * inject_Z n == inject_Z c /\
  0 <= inject_Z c / inject_Z n.
Proof.
  intros [[H0 H1] [H2 H3]].
  assert (Q0 : 0 <= inject_Z c) by (rewrite <- (Zle_Qle 0); lia).
  assert (Q1 : inject_Z c <= inject_Z n) by (rewrite <- Zle_Qle; lia).
  assert (Q2 : 0 < inject_Z n) by (rewrite <- (Zlt_Qlt 0); lia).
  assert (Q3 : inject_Z n < inject_Z (2 ^ 48)) by (rewrite <- Zlt_Qlt; lia).
  repeat split; try assumption.
  - field. lra.
  - apply Qle_shift_div_l; lra.
Qed.

Lemma int_truediv_nonneg (c n : Z) : count_of c n -> 0 <= int_truediv c n.
Proof.
  intros H. destruct (ratio_facts c n H) as (_ & _ & _ & _ & _ & Hx).
  now apply rnd_nonneg.
Qed.

(** [c / n > 0.5] *)
Lemma ratio_gt_half (c n : Z) :
  count_of c n ->
  float_gt (int_truediv c n) (literal 5 10) = true <-> (n < 2 * c)%Z.
Proof.
  intros H. destruct (ratio_facts c n H) as (Q0 & Q1 & Q2 & Q3 & Hm & Hx).
  rewrite float_gt_spec, literal_5_10. unfold int_truediv.
  set (x := inject_Z c / inject_Z n) in *. split.
  - intros Hlt. destruct (Z_lt_le_dec n (2 * c)) as [Hz | Hz]; [exact Hz |].
    exfalso. rewrite Zle_Qle, inject_Z_mult in Hz. change (inject_Z 2) with 2 in Hz.
    assert (Hle : rnd x <= 1 # 2).
    { apply (rnd_below x (1 # 2) 1 (-1)); [lia | reflexivity | exact Hx | nra]. }
    lra.
  - intros Hz. assert (Hz' : (n + 1 <= 2 * c)%Z) by lia.
    rewrite Zle_Qle, inject_Z_plus, inject_Z_mult in Hz'.
    change (inject_Z 2) with 2 in Hz'. change (inject_Z 1) with 1 in Hz'.
    assert (Hge : (4503599627370497 # 9007199254740992) <= rnd x).
    { apply (rnd_above x _ 4503599627370497 (-53)); [lia | reflexivity |].
      apply Qle_shift_div_l; [exact Q2 |]. nra. }
    lra.
Qed.


(** [c / n > 0.7] *)
Lemma ratio_gt_seven_tenths (c n : Z) :
  count_of c n ->
  float_gt (int_truediv c n) (literal 7 10) = true <-> (7 * n < 10 * c)%Z.
Proof.
  intros H. destruct (ratio_facts c n H) as (Q0 & Q1 & Q2 & Q3 & Hm & Hx).
  rewrite float_gt_spec. unfold int_truediv.
  set (x := inject_Z c / inject_Z n) in *. split.
  - intros Hlt. destruct (Z_lt_le_dec (7 * n) (10 * c)) as [Hz | Hz]; [exact Hz |].
    exfalso. rewrite Zle_Qle, !inject_Z_mult in Hz.
    change (inject_Z 10) with 10 in Hz. change (inject_Z 7) with 7 in Hz.
    assert (Hle : rnd x <= literal 7 10).
    { unfold literal. apply rnd_mono; [exact Hx |].
      apply Qle_shift_div_r; [exact Q2 |]. nra. }
    lra.
  - intros Hz. assert (Hz' : (7 * n + 1 <= 10 * c)%Z) by lia.
    rewrite Zle_Qle, inject_Z_plus, !inject_Z_mult in Hz'.
    change (inject_Z 10) with 10 in Hz'. change (inject_Z 7) with 7 in Hz'.
    change (inject_Z 1) with 1 in Hz'. rewrite literal_7_10.
    assert (Hge : (6305039478318695 # 9007199254740992) <= rnd x).
    { apply (rnd_above x _ 6305039478318695 (-53)); [lia | reflexivity |].
      apply Qle_shift_div_l; [exact Q2 |]. nra. }
    lra.
Qed.

(** [c / n < 0.3] *)
Lemma ratio_lt_three_tenths (c n : Z) :
  count_of c n ->
  float_lt (int_truediv c n) (literal 3 10) = true <-> (10 * c < 3 * n)%Z.
Proof.
  intros H. destruct (ratio_facts c n H) as (Q0 & Q1 & Q2 & Q3 & Hm & Hx).
  rewrite float_lt_spec. unfold int_truediv.
  set (x := inject_Z c / inject_Z n) in *. split.
  - intros Hlt. destruct (Z_lt_le_dec (10 * c) (3 * n)) as [Hz | Hz]; [exact Hz |].
    exfalso. rewrite Zle_Qle, !inject_Z_mult in Hz.
    change (inject_Z 10) with 10 in Hz. change (inject_Z 3) with 3 in Hz.
    assert (Hle : literal 3 10 <= rnd x).
    { unfold literal. apply rnd_mono; [lra |].
      apply Qle_shift_div_l; [exact Q2 |]. nra. }
    lra.
  - intros Hz. assert (Hz' : (10 * c + 1 <= 3 * n)%Z) by lia.
    rewrite Zle_Qle, inject_Z_plus, !inject_Z_mult in Hz'.
    change (inject_Z 10) with 10 in Hz'. change (inject_Z 3) with 3 in Hz'.
    change (inject_Z 1) with 1 in Hz'. rewrite literal_3_10.
    assert (Hle : rnd x <= (5404319552844594 # 18014398509481984)).
    { apply (rnd_below x _ 5404319552844594 (-54)); [lia | reflexivity | exact Hx |].
      apply Qle_shift_div_r; [exact Q2 |]. nra. }
    lra.
Qed.

Lemma below_int (c : Z) :
  inject_Z c - (1 # 16) == inject_Z (16 * c - 1) * 2 ^ (-4).
Proof.
  unfold Z.sub. rewrite inject_Z_plus, inject_Z_mult.
  change (2 ^ (-4)) with (1 # 16). change (inject_Z 16) with 16.
  change (inject_Z (- (1))) with (-1). ring.
Qed.

Lemma product_arg (n : Z) (l v : Q) :
  (0 <= n < 2 ^ 53)%Z -> 0 <= v -> l == v ->
  fmul (of_int n) l == rnd (inject_Z n * v).
Proof.
  intros Hn Hv El. unfold fmul.
  assert (Q0 : 0 <= inject_Z n) by (rewrite <- (Zle_Qle 0); lia).
  pose proof (of_int_exact n Hn) as En.
  apply rnd_comp_nonneg.
  - rewrite En, El. nra.
  - rewrite En, El. reflexivity.
Qed.

(** [c > n * 0.2] *)
Lemma count_gt_fifth (c n : Z) :
  count_of c n ->
  int_gt_float c (fmul (of_int n) (literal 2 10)) = true <-> (n < 5 * c)%Z.
Proof.
  intros H. destruct (ratio_facts c n H) as (Q0 & Q1 & Q2 & Q3 & _ & _).
  destruct H as [[H0 H1] [H2 H3]].
  rewrite int_gt_float_spec.
  rewrite (product_arg n _ (3602879701896397 # 18014398509481984)
             ltac:(lia) ltac:(lra) literal_2_10).
  set (y := inject_Z n * (3602879701896397 # 18014398509481984)).
  assert (Hy : 0 <= y) by (unfold y; nra).
  split.
  - intros Hlt. destruct (Z_lt_le_dec n (5 * c)) as [Hz | Hz]; [exact Hz |].
    exfalso. rewrite Zle_Qle, inject_Z_mult in Hz. change (inject_Z 5) with 5 in Hz.
    assert (Hge : inject_Z c <= rnd y).
    { apply (rnd_above y _ c 0); [lia | rewrite Qpower_0_r; ring |]. unfold y. nra. }
    lra.
  - intros Hz. assert (Hz' : (n + 1 <= 5 * c)%Z) by lia.
    rewrite Zle_Qle, inject_Z_plus, inject_Z_mult in Hz'.
    change (inject_Z 5) with 5 in Hz'. change (inject_Z 1) with 1 in Hz'.
    assert (Hle : rnd y <= inject_Z c - (1 # 16)).
    { apply (rnd_below y _ (16 * c - 1) (-4)); [lia | apply below_int | exact Hy |].
      unfold y. nra. }
    lra.
Qed.

(** [c > n * 0.3]; at [10 c = 3 n] the product rounds back to [c]. *)
Lemma count_gt_three_tenths (c n : Z) :
  count_of c n ->
  int_gt_float c (fmul (of_int n) (literal 3 10)) = true <-> (3 * n < 10 * c)%Z.
Proof.
  intros H. destruct (ratio_facts c n H) as (Q0 & Q1 & Q2 & Q3 & _ & _).
  destruct H as [[H0 H1] [H2 H3]].
  rewrite int_gt_float_spec.
  rewrite (product_arg n _ (5404319552844595 # 18014398509481984)
             ltac:(lia) ltac:(lra) literal_3_10).
  set (y := inject_Z n * (5404319552844595 # 18014398509481984)).
  assert (Hy : 0 < y) by (unfold y; nra).
  split.
  - intros Hlt. destruct (Z_lt_le_dec (3 * n) (10 * c)) as [Hz | Hz]; [exact Hz |].
    exfalso. destruct (Z.eq_dec (10 * c) (3 * n)) as [E | NE].
    + assert (Hc : (0 < c)%Z) by lia.
      pose proof (Z.log2_spec c Hc) as [L1 L2].
      pose proof (Z.log2_nonneg c) as L0.
      assert (Lk : (Z.log2 c <= 47)%Z).
      { apply Z.lt_succ_r. apply (Z.pow_lt_mono_r_iff 2); [lia | lia |].
        change (Z.succ 47) with 48%Z. lia. }
      assert (Hne : (c <> 2 ^ Z.log2 c)%Z).
      { intros Ec. apply (three_times_not_pow2 (n - 3 * c) (Z.log2 c) L0). lia. }
      assert (Hn : inject_Z n == (10 # 3) * inject_Z c).
      { assert (E' : inject_Z (10 * c) == inject_Z (3 * n)) by now rewrite E.
        rewrite !inject_Z_mult in E'. change (inject_Z 10) with 10 in E'.
        change (inject_Z 3) with 3 in E'. lra. }
      destruct (two_pow_log2 c Hc) as [P1 P2].
      assert (P3 : inject_Z c < 2 * 2 ^ Z.log2 c) by (rewrite <- two_pow_succ; exact P2).
      assert (P4 : 2 ^ (Z.log2 c - 53) == 2 ^ Z.log2 c * (1 # 9007199254740992)).
      { unfold Z.sub. rewrite Qpower_plus by discriminate. reflexivity. }
      assert (R : rnd_pos y == inject_Z c).
      { apply (rnd_pos_near_int c (Z.log2 c)).
        - lia.
        - rewrite Z.add_1_r. lia.
        - rewrite P4. unfold y. rewrite Hn. generalize dependent (2 ^ Z.log2 c).
          intros. lra.
        - unfold y. rewrite Hn. lra. }
      rewrite (rnd_of_pos y Hy) in Hlt. lra.
    + assert (Hz' : (10 * c + 1 <= 3 * n)%Z) by lia.
      rewrite Zle_Qle, inject_Z_plus, !inject_Z_mult in Hz'.
      change (inject_Z 10) with 10 in Hz'. change (inject_Z 3) with 3 in Hz'.
      change (inject_Z 1) with 1 in Hz'.
      assert (Hge : inject_Z c <= rnd y).
      { apply (rnd_above y _ c 0); [lia | rewrite Qpower_0_r; ring |]. unfold y. nra. }
      lra.
  - intros Hz. assert (Hz' : (3 * n + 1 <= 10 * c)%Z) by lia.
    rewrite Zle_Qle, inject_Z_plus, !inject_Z_mult in Hz'.
    change (inject_Z 10) with 10 in Hz'. change (inject_Z 3) with 3 in Hz'.
    change (inject_Z 1) with 1 in Hz'.
    assert (Hle : rnd y <= inject_Z c - (1 # 16)).
    { apply (rnd_below y _ (16 * c - 1) (-4));
        [lia | apply below_int | apply Qlt_le_weak, Hy |].
      unfold y. nra. }
    lra.
Qed.


(** *** Truncated percentages *)

Lemma rnd_error_bounds (x : Q) :
  0 <= x ->
  x - x * (1 # 9007199254740992) <= rnd x /\ rnd x <= x + x * (1 # 9007199254740992).
Proof.
  intros Hx. pose proof (rnd_error x Hx) as H.
  change (2 ^ (-53)) with (1 # 9007199254740992) in H.
  apply Qabs_Qle_condition in H. destruct H as [H1 H2]. split; lra.
Qed.

Lemma scaled_bounds (x r T : Q) :
  0 < T ->
  x - x * (1 # 9007199254740992) <= r -> r <= x + x * (1 # 9007199254740992) ->
  x * T - x * T * (1 # 9007199254740992) <= r * T /\
  r * T <= x * T + x * T * (1 # 9007199254740992).
Proof. intros HT H1 H2. split; nra. Qed.

Lemma to_int_nonneg (y : Q) : 0 <= y -> to_int y = Qfloor y.
Proof.
  intros H. unfold to_int. apply Qle_bool_iff in H. now rewrite H.
Qed.

Lemma floor_between (y : Q) (F : Z) :
  inject_Z F - 1 < y -> y < inject_Z F + 1 -> (F - 1 <= Qfloor y <= F)%Z.
Proof.
  intros H1 H2. pose proof (Qfloor_le y) as L. pose proof (Qlt_floor y) as U.
  rewrite inject_Z_plus in U. change (inject_Z 1) with 1 in U.
  assert (A : inject_Z (Qfloor y) < inject_Z (F + 1)).
  { rewrite inject_Z_plus. change (inject_Z 1) with 1. lra. }
  assert (B : inject_Z (F - 1) < inject_Z (Qfloor y + 1)).
  { unfold Z.sub. rewrite !inject_Z_plus. change (inject_Z 1) with 1.
    change (inject_Z (- (1))) with (-1). lra. }
  rewrite <- Zlt_Qlt in A, B. lia.
Qed.

(** *** [int((p / t) * 100)] *)

Lemma percent_value (p t : Z) :
  (0 <= p < 2 ^ 44)%Z -> (0 < t)%Z ->
  let y := fmul (int_truediv p t) (of_int 100) in
  0 <= y /\ inject_Z (100 * p / t) - 1 < y /\ y < inject_Z (100 * p / t) + 1.
Proof.
  intros [Hp0 Hp1] Ht. cbv zeta.
  assert (P0 : 0 <= inject_Z p) by (rewrite <- (Zle_Qle 0); lia).
  assert (P1 : inject_Z p < inject_Z (2 ^ 44)) by (rewrite <- Zlt_Qlt; lia).
  change (inject_Z p < 17592186044416) in P1.
  assert (T0 : 0 < inject_Z t) by (rewrite <- (Zlt_Qlt 0); lia).
  assert (T1 : 1 <= inject_Z t) by (rewrite <- (Zle_Qle 1); lia).
  set (x := inject_Z p / inject_Z t).
  assert (Hm : x * inject_Z t == inject_Z p) by (unfold x; field; lra).
  assert (Hx : 0 <= x) by (apply Qle_shift_div_l; lra).
  unfold int_truediv. fold x.
  destruct (rnd_error_bounds x Hx) as [E1 E2].
  pose proof (rnd_nonneg x Hx) as R0.
  assert (Ey : fmul (rnd x) (of_int 100) == rnd (rnd x * 100)).
  { unfold fmul. pose proof (of_int_exact 100 ltac:(lia)) as E100.
    change (inject_Z 100) with 100 in E100.
    apply rnd_comp_nonneg; rewrite E100; [nra | reflexivity]. }
  assert (Hz : 0 <= rnd x * 100) by nra.
  destruct (rnd_error_bounds _ Hz) as [E3 E4].
  pose proof (rnd_nonneg _ Hz) as Y0.
  rewrite Ey. set (y := rnd (rnd x * 100)) in *.
  destruct (scaled_bounds x (rnd x) (inject_Z t) T0 E1 E2) as [S1 S2].
  destruct (scaled_bounds _ y (inject_Z t) T0 E3 E4) as [S3 S4].
  pose proof (Z.mul_div_le (100 * p) t Ht) as D1.
  pose proof (Z.mul_succ_div_gt (100 * p) t Ht) as D2.
  assert (D2' : (100 * p + 1 <= t * (100 * p / t) + t)%Z) by lia.
  set (F := (100 * p / t)%Z) in *.
  rewrite Zle_Qle in D1, D2'.
  rewrite !inject_Z_mult in D1. rewrite !inject_Z_plus, !inject_Z_mult in D2'.
  change (inject_Z 100) with 100 in D1, D2'. change (inject_Z 1) with 1 in D2'.
  set (TF := inject_Z t * inject_Z F) in *.
  set (A := rnd x * inject_Z t) in *.
  assert (EA : rnd x * 100 * inject_Z t == 100 * A) by (unfold A; ring).
  rewrite EA in S3, S4. rewrite Hm in S1, S2.
  set (Y := y * inject_Z t) in *.
  assert (B1 : TF - inject_Z t < Y) by lra.
  assert (B2 : Y < TF + inject_Z t) by lra.
  split; [exact Y0 |]. unfold TF, Y in B1, B2. split; nra.
Qed.

Lemma percent_of_ratio (p t : Z) :
  (0 <= p < 2 ^ 44)%Z -> (0 < t)%Z ->
  let r := to_int (fmul (int_truediv p t) (of_int 100)) in
  (100 * p / t - 1 <= r <= 100 * p / t)%Z /\ (0 <= r)%Z.
Proof.
  intros Hp Ht. destruct (percent_value p t Hp Ht) as (Y0 & Y1 & Y2).
  cbv zeta. rewrite (to_int_nonneg _ Y0). split.
  - now apply floor_between.
  - change 0%Z with (Qfloor 0). now apply Qfloor_resp_le.
Qed.

End PyFloatFacts.

(** ** The quality gate *)

Module QualityGateFacts.
Import PyFloat PyStr QualityGate PyFloatFacts.
Local Open Scope Z_scope.

(** *** The eight conditions as the specification words them *)

Definition is_printable_ascii (c : Z) : bool :=
  in_range 32 126 c && negb (mem c [9; 10; 13]).

Definition spec_conditions (db : unicode_db) (text : text) : Prop :=
  strip text = [] \/
  3 * len text < 10 * count is_control_char text \/
  3 < len (findall_class_plus is_control_char text) \/
  len text < 2 * count (is_special_char db) text \/
  distinct text < 5 \/
  (0 < len (split text) /\
   7 * len (split text) < 10 * count is_short_word (split text)) \/
  len text < 5 * count is_non_printable text \/
  10 * count is_printable_ascii text < 3 * len text.

Definition gate_is_spec_conditions : Prop :=
  forall db text, _is_garbage_text db text = true <-> spec_conditions db text.

(** A database that knows no character beyond Latin-1. *)
Definition latin1_only : unicode_db :=
  {| db_isalnum := fun _ => false; db_isprintable := fun _ => false |}.

(** The letters a to e, two e-acute, and thirteen newlines. *)
Definition accented_text : text :=
  [97; 98; 99; 100; 101; 233; 233] ++ repeat 10 13.

(** *** The eight conditions as the code tests them *)

(** The number of maximal runs of characters of a class: the positions
    holding a character of the class whose predecessor, if any, is not. *)
Fixpoint run_starts (cls : Z -> bool) (inside : bool) (s : text) : Z :=
  match s with
  | [] => 0
  | c :: s' =>
      if cls c then (if inside then 0 else 1) + run_starts cls true s'
      else run_starts cls false s'
  end.

Definition runs (cls : Z -> bool) (s : text) : Z := run_starts cls false s.

Definition code_conditions (db : unicode_db) (text : text) : Prop :=
  strip text = [] \/
  3 * len text < 10 * count is_control_char text \/
  3 < runs control_pattern text \/
  len text < 2 * count (is_special_char db) text \/
  distinct text < 5 \/
  (0 < len (split text) /\
   7 * len (split text) < 10 * count is_short_word (split text)) \/
  len text < 5 * count is_non_printable text \/
  10 * count (is_printable_char db) text < 3 * len text.

(** C3, as stated: rejection is not equivalent to the eight conditions with
    a printable-ASCII ratio.  The accented text is 35% printable for
    [str.isprintable] and passes the gate, while only 25% of it is printable
    ASCII. *)
Lemma gate_is_spec_conditions_fails : ~ gate_is_spec_conditions.
Proof.
  intros H. specialize (H latin1_only accented_text).
  assert (G : _is_garbage_text latin1_only accented_text = false)
    by (vm_compute; reflexivity).
  rewrite G in H. destruct H as [_ H].
  assert (C : spec_conditions latin1_only accented_text).
  { do 7 right. vm_compute. reflexivity. }
  exact (Bool.diff_false_true (H C)).
Qed.

Lemma len_step {A} (x : A) (l : list A) : len (x :: l) = 1 + len l.
Proof. unfold len. cbn [length]. lia. Qed.

Lemma len_pos {A} (l : list A) : 0 <= len l.
Proof. unfold len. lia. Qed.

Lemma findall_from_runs (cls : Z -> bool) (s cur : text) :
  len (findall_from cls cur s) =
  match cur with
  | [] => run_starts cls false s
  | _ => 1 + run_starts cls true s
  end.
Proof.
  revert cur. induction s as [| c s IH]; intros cur.
  - destruct cur; reflexivity.
  - cbn [findall_from run_starts]. destruct (cls c).
    + rewrite IH. destruct cur; lia.
    + destruct cur; [apply IH |]. rewrite len_step, IH. reflexivity.
Qed.

Lemma findall_runs (cls : Z -> bool) (s : text) :
  len (findall_class_plus cls s) = runs cls s.
Proof. apply (findall_from_runs cls s []). Qed.

Lemma count_bounds {A} (p : A -> bool) (l : list A) : 0 <= count p l <= len l.
Proof.
  unfold count. split; [apply len_pos |].
  induction l as [| x l IH]; [reflexivity |].
  cbn [List.filter]. destruct (p x); rewrite !len_step; lia.
Qed.

Lemma split_from_length (s cur : text) :
  len (split_from cur s) <= len s + match cur with [] => 0 | _ => 1 end.
Proof.
  revert cur. induction s as [| c s IH]; intros cur.
  - destruct cur; unfold len; cbn [split_from length]; lia.
  - cbn [split_from]. rewrite (len_step c s). destruct (isspace c).
    + specialize (IH []). cbn beta iota in IH.
      destruct cur; rewrite ?len_step; cbn beta iota; lia.
    + specialize (IH (c :: cur)). cbn beta iota in IH.
      destruct cur; cbn beta iota; lia.
Qed.

Lemma split_length (s : text) : len (split s) <= len s.
Proof.
  pose proof (split_from_length s []) as H. cbn beta iota in H. unfold split. lia.
Qed.

Lemma strip_nonempty (s : text) : strip s <> [] -> 0 < len s.
Proof.
  destruct s; [intros H; exfalso; apply H; reflexivity |].
  intros _. rewrite len_step. pose proof (len_pos s). lia.
Qed.

Lemma first_true (b c : bool) :
  (if b then true else c) = true <-> b = true \/ c = true.
Proof. destruct b, c; intuition discriminate. Qed.

(** C3 (amended): for a text of fewer than 2^48 characters the gate rejects
    exactly when one of the eight conditions holds as the code tests them:
    the percentages are exact, the runs are those of the pattern's class
    (which also holds the code points 127 to 159), and the last ratio counts
    the characters that are printable for [str.isprintable]. *)
Theorem gate_rejects_iff_code_conditions (db : unicode_db) (text : text) :
  len text < 2 ^ 48 ->
  _is_garbage_text db text = true <-> code_conditions db text.
Proof.
  intros Hlen. unfold _is_garbage_text, code_conditions.
  destruct (strip text) as [| c0 rest] eqn:Es.
  { split; [intros _; left; reflexivity | reflexivity]. }
  assert (Hn : 0 < len text) by (apply strip_nonempty; rewrite Es; discriminate).
  assert (Hc : forall p, count_of (count p text) (len text)).
  { intros p. pose proof (count_bounds p text). unfold count_of. lia. }
  cbv zeta. do 7 rewrite first_true.
  rewrite (count_gt_three_tenths _ _ (Hc is_control_char)).
  rewrite (count_gt_fifth _ _ (Hc is_non_printable)).
  rewrite (ratio_gt_half _ _ (Hc (is_special_char db))).
  rewrite (ratio_lt_three_tenths _ _ (Hc (is_printable_char db))).
  rewrite !Z.ltb_lt, findall_runs.
  assert (H6 : (0 <? len (split text)) &&
               float_gt (int_truediv (count is_short_word (split text))
                           (len (split text))) (literal 7 10) = true <->
               0 < len (split text) /\
               7 * len (split text) < 10 * count is_short_word (split text)).
  { rewrite andb_true_iff, Z.ltb_lt. split; intros [Hw Hr]; (split; [exact Hw |]).
    - apply ratio_gt_seven_tenths; [| exact Hr].
      pose proof (count_bounds is_short_word (split text)).
      pose proof (split_length text). unfold count_of. lia.
    - apply ratio_gt_seven_tenths; [| exact Hr].
      pose proof (count_bounds is_short_word (split text)).
      pose proof (split_length text). unfold count_of. lia. }
  rewrite H6. clear H6.
  split.
  - intros [H | [H | [H | [H | [H | [H | [H | H]]]]]]]; try discriminate; tauto.
  - intros [H | H]; [discriminate | tauto].
Qed.

Lemma gate_rejects_iff_code_conditions_witness :
  len accented_text < 2 ^ 48 /\
  (_is_garbage_text latin1_only accented_text = true <->
   code_conditions latin1_only accented_text).
Proof.
  split; [vm_compute; reflexivity |].
  apply gate_rejects_iff_code_conditions. vm_compute. reflexivity.
Defined.

End QualityGateFacts.

(** ** Progress accounting *)

Module TrackerFacts.
Import Py PyFloat Tracker PyFloatFacts.
Local Open Scope Z_scope.

(** The percentage the specification gives for a snapshot. *)
Definition floor_percentage (tracker : entry) : Z :=
  if 0 <? total_pages tracker
  then 100 * processed_pages tracker / total_pages tracker
  else if 0 <? total_documents tracker
       then 100 * processed_documents tracker / total_documents tracker
       else 0.

(** The accounting of [increment_processed] as the specification words it. *)
Definition increment_accounting : Prop :=
  forall trackers batch_id tracker n now,
    trackers !! batch_id = Some tracker ->
    exists tracker',
      (increment_processed trackers batch_id n now).1 !! batch_id = Some tracker' /\
      processed_documents tracker' = processed_documents tracker + 1 /\
      processed_pages tracker' = processed_pages tracker + n /\
      progress_percentage tracker' = Some (floor_percentage tracker') /\
      0 <= floor_percentage tracker' <= 100.

(** A snapshot of a batch of two documents. *)
Definition snapshot (total processed : Z) : entry :=
  {| total_documents := 2; processed_documents := 0;
     total_pages := total; processed_pages := processed;
     current_document := None; current_stage := None; current_operation := None;
     status := "processing"; start_time := 0; last_update := 0; results := [];
     errors := []; progress_percentage := None; completed_at := None;
     error := None |}.

(** The accounting of [increment_processed] as the code performs it. *)
Definition accounts (trackers : gmap string entry) (batch_id : string)
    (tracker : entry) (n now : Z) : Prop :=
  exists tracker' pct,
    increment_processed trackers batch_id n now =
      (<[batch_id := tracker']> trackers, processed_documents tracker + 1) /\
    processed_documents tracker' = processed_documents tracker + 1 /\
    processed_pages tracker' = processed_pages tracker + Z.max 0 n /\
    total_documents tracker' = total_documents tracker /\
    total_pages tracker' = total_pages tracker /\
    progress_percentage tracker' = Some pct /\
    floor_percentage tracker' - 1 <= pct <= floor_percentage tracker' /\
    0 <= pct /\
    (0 < total_pages tracker -> processed_pages tracker' <= total_pages tracker ->
     pct <= 100) /\
    (total_pages tracker <= 0 ->
     processed_documents tracker' <= total_documents tracker -> pct <= 100).

(** The percentage stored by one call on a fresh snapshot of [total] pages
    that reports [n] processed pages. *)
Definition stored_percentage (total n : Z) : option Z :=
  (increment_processed {[ "batch_1_2" := snapshot total 0 ]} "batch_1_2" n 0).1
    !! "batch_1_2" ≫= progress_percentage.

(** C8: the stored percentage misses the floor and leaves the range.  With
    100 pages in total, a first document of 29 pages stores 28, although
    floor(100 * 29 / 100) is 29: the quotient 29 / 100 is rounded before it is
    multiplied by 100 and truncated.  With 5 pages announced and a document of
    15 pages, the call stores 300. *)
Theorem increment_processed_misses_floor_and_range :
  stored_percentage 100 29 = Some 28 /\
  floor_percentage (snapshot 100 29) = 29 /\
  stored_percentage 5 15 = Some 300.
Proof. repeat split; vm_compute; reflexivity. Qed.

(** Hence the accounting does not hold as the specification words it. *)
Lemma increment_accounting_fails : ~ increment_accounting.
Proof.
  intros H.
  destruct (H {[ "batch_1_2" := snapshot 100 0 ]} "batch_1_2" (snapshot 100 0) 29 0)
    as (t' & Hl & _ & _ & Hp & _).
  { apply lookup_singleton_eq. }
  unfold increment_processed in Hl. rewrite lookup_singleton_eq in Hl.
  cbn [fst] in Hl. rewrite lookup_insert_eq in Hl. injection Hl as <-.
  vm_compute in Hp. discriminate.
Qed.

Lemma percent_bounds (p t : Z) :
  0 <= p < 2 ^ 44 -> 0 < t ->
  100 * p / t - 1 <= percent p t <= 100 * p / t /\ 0 <= percent p t.
Proof. intros Hp Ht. exact (percent_of_ratio p t Hp Ht). Qed.

Lemma floor_at_most_100 (p t : Z) : 0 < t -> p <= t -> 100 * p / t <= 100.
Proof.
  intros Ht Hp. apply Z.lt_succ_r. apply Z.div_lt_upper_bound; lia.
Qed.

(** What one call does guarantee: [increment_processed] adds one to
    [processed_documents] and returns the new count, adds the reported pages
    when they are positive, and stores a percentage that is the floor or one
    less; the percentage is never negative, and it is at most 100 as long as
    the processed count does not exceed the total. *)
Theorem increment_processed_accounts (trackers : gmap string entry)
    (batch_id : string) (tracker : entry) (n now : Z) :
  trackers !! batch_id = Some tracker ->
  0 <= processed_pages tracker ->
  processed_pages tracker + Z.max 0 n < 2 ^ 44 ->
  0 <= processed_documents tracker + 1 < 2 ^ 44 ->
  accounts trackers batch_id tracker n now.
Proof.
  intros Hl Hp0 Hp1 Hd. unfold accounts, increment_processed. rewrite Hl.
  eexists _, _. split; [reflexivity |].
  cbn [processed_documents processed_pages total_documents total_pages
       progress_percentage].
  assert (Epages : (if 0 <? n then processed_pages tracker + n
                    else processed_pages tracker) =
                   processed_pages tracker + Z.max 0 n).
  { destruct (Z.ltb_spec 0 n); lia. }
  rewrite Epages. unfold floor_percentage.
  cbn [processed_documents processed_pages total_documents total_pages].
  repeat (split; [reflexivity |]).
  destruct (Z.ltb_spec 0 (total_pages tracker)) as [Htp | Htp].
  - destruct (percent_bounds (processed_pages tracker + Z.max 0 n)
                (total_pages tracker) ltac:(lia) Htp) as [[B1 B2] B0].
    repeat split; try assumption; try lia.
    intros _ Hle. pose proof (floor_at_most_100 _ _ Htp Hle). lia.
  - destruct (Z.ltb_spec 0 (total_documents tracker)) as [Htd | Htd].
    + destruct (percent_bounds (processed_documents tracker + 1)
                  (total_documents tracker) Hd Htd) as [[B1 B2] B0].
      repeat split; try assumption; try lia.
      intros _ Hle. pose proof (floor_at_most_100 _ _ Htd Hle). lia.
    + repeat split; lia.
Qed.

Lemma increment_processed_accounts_witness :
  accounts {[ "batch_1_2" := snapshot 100 0 ]} "batch_1_2" (snapshot 100 0) 29 0.
Proof.
  apply increment_processed_accounts.
  - apply lookup_singleton_eq.
  - simpl. lia.
  - simpl. lia.
  - simpl. lia.
Defined.

End TrackerFacts.

(** ** The progress route *)

Module RouterFacts.
Import Py Tracker Router.
Local Open Scope Z_scope.

Lemma get_progress_unknown (trackers : gmap string entry) (batch_id : string) :
  trackers !! batch_id = None -> get_progress trackers batch_id = None.
Proof. intros H. unfold get_progress. now rewrite H. Qed.

(** A batch that was completed and then cleaned up is unknown again. *)
Lemma expired_batch_unknown (trackers : gmap string entry) (batch_id : string)
    (batch_results : list doc_result) (now : Z) :
  cleanup_later (complete_extraction trackers batch_id batch_results now) batch_id
    !! batch_id = None.
Proof. unfold cleanup_later. apply lookup_delete_eq. Qed.

(** C9.  For a batch id the tracker does not know, the progress route answers
    with a body (not an HTTP error) whose status is "completed", whose
    percentage is 100, whose results and errors are empty and whose document
    and page counts are zero. *)
Theorem unknown_batch_reads_completed (trackers : gmap string entry)
    (batch_id : string) :
  trackers !! batch_id = None ->
  exists p,
    get_document_text_extraction_progress trackers batch_id = Body p /\
    p_batch_id p = batch_id /\
    p_status p = "completed"%string /\
    p_progress_percentage p = 100 /\
    p_results p = [] /\ p_errors p = [] /\
    p_total_documents p = 0 /\ p_processed_documents p = 0 /\
    p_total_pages p = 0 /\ p_processed_pages p = 0.
Proof.
  intros H. unfold get_document_text_extraction_progress.
  rewrite (get_progress_unknown _ _ H).
  eexists. split; [reflexivity |]. cbn. repeat split.
Qed.

Lemma unknown_batch_reads_completed_witness :
  exists p,
    get_document_text_extraction_progress ∅ "batch_0_0" = Body p /\
    p_batch_id p = "batch_0_0"%string /\
    p_status p = "completed"%string /\
    p_progress_percentage p = 100 /\
    p_results p = [] /\ p_errors p = [] /\
    p_total_documents p = 0 /\ p_processed_documents p = 0 /\
    p_total_pages p = 0 /\ p_processed_pages p = 0.
Proof. apply (unknown_batch_reads_completed ∅ "batch_0_0"). reflexivity. Defined.

(** The same answer for a batch that has expired. *)
Lemma expired_batch_reads_completed (trackers : gmap string entry)
    (batch_id : string) (batch_results : list doc_result) (now : Z) :
  exists p,
    get_document_text_extraction_progress
      (cleanup_later (complete_extraction trackers batch_id batch_results now)
                     batch_id) batch_id = Body p /\
    p_status p = "completed"%string /\ p_progress_percentage p = 100.
Proof.
  unfold get_document_text_extraction_progress.
  rewrite (get_progress_unknown _ _ (expired_batch_unknown _ _ _ _)).
  eexists. split; [reflexivity |]. cbn. split; reflexivity.
Qed.

End RouterFacts.

(** ** The password resolver *)

Module FileManagementFacts.
Import Py FileManagement.

(** The candidate sequence in the words of the specification: provided
    password if non-empty, CSV entry if present, in-memory entry if present,
    default if non-empty, then the null sentinel. *)
Definition candidate_sequence (provided csv memory default_pw : option string) :
    list (option string) :=
  (if truthy provided then [provided] else []) ++
  (match csv with Some pw => [Some pw] | None => [] end) ++
  (match memory with Some pw => [Some pw] | None => [] end) ++
  (if truthy default_pw then [default_pw] else []) ++
  [None].

(** Duplicates removed, the first occurrence kept. *)
Fixpoint dedup_from (seen l : list (option string)) : list (option string) :=
  match l with
  | [] => []
  | x :: l' =>
      if bool_decide (x ∈ seen) then dedup_from seen l'
      else x :: dedup_from (x :: seen) l'
  end.

Definition dedup (l : list (option string)) : list (option string) := dedup_from [] l.

Lemma truthy_Some (o : option string) : truthy o = true -> exists s, o = Some s.
Proof. destruct o; [eauto | discriminate]. Qed.

Lemma resolver_is_dedup (self : service) (fs : gmap string csv_rows)
    (pdf_path : path) (provided_password : option string) :
  get_all_passwords_for_file self fs pdf_path provided_password =
  dedup (candidate_sequence provided_password
           (load_saved_passwords fs pdf_path !! name pdf_path)
           (password_cache self !! name pdf_path)
           (default_password self)).
Proof.
  unfold get_all_passwords_for_file, candidate_sequence, dedup, append_if, not_in.
  destruct (truthy provided_password) eqn:Tp;
  destruct (load_saved_passwords fs pdf_path !! name pdf_path) as [a|];
  destruct (password_cache self !! name pdf_path) as [b|];
  destruct (truthy (default_password self)) eqn:Td;
  try (apply truthy_Some in Tp; destruct Tp as [p ->]);
  try (apply truthy_Some in Td; destruct Td as [d ->]);
  cbn;
  repeat (case_bool_decide; cbn);
  try reflexivity;
  exfalso; set_unfold; naive_solver.
Qed.

Lemma append_if_length (c : bool) (x : option string) (l : list (option string)) :
  length (append_if c x l) <= S (length l).
Proof. unfold append_if. destruct c; rewrite ?length_app; simpl; lia. Qed.

Lemma resolver_length (self : service) (fs : gmap string csv_rows)
    (pdf_path : path) (provided_password : option string) :
  length (get_all_passwords_for_file self fs pdf_path provided_password) <= 5.
Proof.
  unfold get_all_passwords_for_file. rewrite length_app. simpl.
  set (l1 := append_if (truthy provided_password) provided_password []).
  assert (H1 : length l1 <= 1) by apply (append_if_length _ _ []).
  set (l2 := match load_saved_passwords fs pdf_path !! name pdf_path with
             | Some pw => append_if (not_in (Some pw) l1) (Some pw) l1
             | None => l1 end).
  assert (H2 : length l2 <= 2).
  { subst l2. destruct (load_saved_passwords fs pdf_path !! name pdf_path);
      [pose proof (append_if_length (not_in (Some s) l1) (Some s) l1) |]; lia. }
  set (l3 := match password_cache self !! name pdf_path with
             | Some pw => append_if (not_in (Some pw) l2) (Some pw) l2
             | None => l2 end).
  assert (H3 : length l3 <= 3).
  { subst l3. destruct (password_cache self !! name pdf_path);
      [pose proof (append_if_length (not_in (Some s) l2) (Some s) l2) |]; lia. }
  pose proof (append_if_length
    (truthy (default_password self) && not_in (default_password self) l3)
    (default_password self) l3).
  lia.
Qed.

Lemma resolver_ends_with_None (self : service) (fs : gmap string csv_rows)
    (pdf_path : path) (provided_password : option string) :
  last (get_all_passwords_for_file self fs pdf_path provided_password) = Some None.
Proof. unfold get_all_passwords_for_file. apply last_snoc. Qed.

(** Reading back what [save_password_to_csv] wrote. *)
Lemma foldl_load_row (l : list (string * string)) (m : gmap string string) :
  foldl load_row m (map (λ kv, [kv.1; kv.2]) l) = list_to_map (rev l) ∪ m.
Proof.
  revert m. induction l as [| [k v] l IH]; intros m.
  - simpl. now rewrite (left_id ∅ (∪)).
  - simpl. rewrite IH. rewrite list_to_map_app. simpl.
    rewrite insert_union_singleton_l. rewrite <- (assoc_L (∪)).
    reflexivity.
Qed.

(** *** Newlines *)

(** The strings without carriage return: those the reader gives back as they
    were written. *)
Fixpoint no_cr (s : string) : bool :=
  match s with
  | EmptyString => true
  | String c s' => negb (Ascii.eqb c CR) && no_cr s'
  end.

Lemma no_cr_fixed (s : string) : no_cr s = true -> universal_newlines s = s.
Proof.
  induction s as [| c s IH]; [reflexivity |].
  cbn [no_cr universal_newlines]. intros H.
  apply andb_true_iff in H as [Hc Hs]. apply negb_true_iff in Hc.
  rewrite Hc, (IH Hs). reflexivity.
Qed.

Lemma universal_newlines_no_cr (s : string) : no_cr (universal_newlines s) = true.
Proof.
  assert (H : forall n s, String.length s <= n ->
                no_cr (universal_newlines s) = true).
  { clear s. induction n as [| n IH]; intros s Hl.
    - destruct s; [reflexivity | cbn in Hl; lia].
    - destruct s as [| c s']; [reflexivity |].
      cbn [String.length] in Hl. cbn [universal_newlines].
      destruct (Ascii.eqb c CR) eqn:Ec.
      + destruct s' as [| c' s'']; [reflexivity |].
        cbn [String.length] in Hl.
        destruct (Ascii.eqb c' LF); cbn [no_cr];
          rewrite IH by (cbn [String.length]; lia); reflexivity.
      + cbn [no_cr]. rewrite Ec, IH by lia. reflexivity. }
  apply (H (String.length s)). lia.
Qed.

Lemma universal_newlines_idem (s : string) :
  universal_newlines (universal_newlines s) = universal_newlines s.
Proof. apply no_cr_fixed, universal_newlines_no_cr. Qed.

(** What is read is free of carriage returns. *)
Definition as_read (k v : string) : Prop := no_cr k = true /\ no_cr v = true.

Lemma load_row_as_read (m : gmap string string) (row : list string) :
  map_Forall as_read m -> Forall (λ x, no_cr x = true) row ->
  map_Forall as_read (load_row m row).
Proof.
  intros Hm Hrow. destruct row as [| k [| v row]]; try exact Hm.
  cbn [load_row]. apply map_Forall_insert_2; [| exact Hm].
  apply Forall_cons in Hrow as [Hk Hrow]. apply Forall_cons in Hrow as [Hv _].
  split; assumption.
Qed.

Lemma foldl_load_row_as_read (rows : csv_rows) (m : gmap string string) :
  map_Forall as_read m -> Forall (Forall (λ x, no_cr x = true)) rows ->
  map_Forall as_read (foldl load_row m rows).
Proof.
  revert m. induction rows as [| row rows IH]; intros m Hm Hrows; [exact Hm |].
  apply Forall_cons in Hrows as [Hrow Hrows]. cbn [foldl].
  apply IH; [now apply load_row_as_read | exact Hrows].
Qed.

Lemma read_rows_no_cr (rows : csv_rows) :
  Forall (Forall (λ x, no_cr x = true)) (read_rows rows).
Proof.
  unfold read_rows. apply Forall_map, Forall_true. intros row.
  apply Forall_map, Forall_true. intros x. apply universal_newlines_no_cr.
Qed.

Lemma loaded_as_read (fs : gmap string csv_rows) (pdf_path : path) :
  map_Forall as_read (load_saved_passwords fs pdf_path).
Proof.
  unfold load_saved_passwords.
  destruct (fs !! parent pdf_path) as [rows |]; [| apply map_Forall_empty].
  pose proof (read_rows_no_cr rows) as H.
  destruct (read_rows rows) as [| first_row rest]; [apply map_Forall_empty |].
  apply Forall_cons in H as [Hfirst Hrest].
  destruct first_row as [| k [| v more]].
  - apply foldl_load_row_as_read; [apply map_Forall_empty | exact Hrest].
  - apply map_Forall_empty.
  - destruct (decide (k :: v :: more = header)).
    + apply foldl_load_row_as_read; [apply map_Forall_empty | exact Hrest].
    + apply foldl_load_row_as_read; [| exact Hrest].
      apply map_Forall_insert_2; [| apply map_Forall_empty].
      apply Forall_cons in Hfirst as [Hk Hfirst].
      apply Forall_cons in Hfirst as [Hv _]. split; assumption.
Qed.

(** *** Reading back what [save_password_to_csv] wrote *)

Lemma read_written_rows (l : list (string * string)) :
  read_rows (header :: map (λ kv, [kv.1; kv.2]) l) =
  header ::
  map (λ kv, [kv.1; kv.2])
      (map (λ kv, (universal_newlines kv.1, universal_newlines kv.2)) l).
Proof.
  unfold read_rows. cbn [map]. f_equal. rewrite !map_map. reflexivity.
Qed.

(** The file that a successful write leaves. *)
Lemma written_file (fs : gmap string csv_rows) (pdf_path : path)
    (password : string) :
  save_password_to_csv fs pdf_path password Written =
  (Done tt,
   <[parent pdf_path :=
       header ::
       map (λ kv, [kv.1; kv.2])
           (merge_sort item_le
              (map_to_list (<[name pdf_path := password]>
                              (load_saved_passwords fs pdf_path))))]> fs).
Proof. reflexivity. Qed.

(** A write and a read: the stored passwords with the new one, as the reader
    gives it back, under the file name. *)
Lemma load_after_save (fs : gmap string csv_rows) (pdf_path : path)
    (password : string) :
  no_cr (name pdf_path) = true ->
  load_saved_passwords (snd (save_password_to_csv fs pdf_path password Written))
    pdf_path =
  <[name pdf_path := universal_newlines password]>
    (load_saved_passwords fs pdf_path).
Proof.
  intros Hname. rewrite written_file. cbn [snd].
  set (m := load_saved_passwords fs pdf_path).
  set (m' := <[name pdf_path := password]> m).
  unfold load_saved_passwords at 1. rewrite lookup_insert_eq.
  rewrite read_written_rows.
  unfold header at 1. rewrite decide_True by reflexivity.
  rewrite foldl_load_row. rewrite (right_id ∅ (∪)).
  symmetry. apply list_to_map_flip.
  rewrite <- Permutation_rev.
  assert (Hkeys : forall kv, kv ∈ map_to_list m' -> no_cr kv.1 = true).
  { intros [k v] Hin. apply elem_of_map_to_list in Hin. subst m'. cbn.
    apply lookup_insert_Some in Hin as [[<- _] | [_ Hin]]; [exact Hname |].
    apply (loaded_as_read fs pdf_path k v Hin). }
  assert (Hm : <[name pdf_path := universal_newlines password]> m =
               universal_newlines <$> m').
  { subst m'. rewrite fmap_insert. f_equal.
    apply map_eq. intros k. rewrite lookup_fmap.
    destruct (m !! k) as [v |] eqn:Hk; [| reflexivity]. cbn. f_equal.
    symmetry. apply no_cr_fixed. apply (loaded_as_read fs pdf_path k v Hk). }
  rewrite Hm. rewrite map_to_list_fmap.
  rewrite (merge_sort_Permutation item_le (map_to_list m')).
  apply Permutation_refl'. apply map_ext_in. intros [k v] Hin.
  apply list_elem_of_In in Hin. specialize (Hkeys _ Hin). cbn in *.
  now rewrite (no_cr_fixed k Hkeys).
Qed.

(** The row of the file just saved is in the file. *)
Lemma saved_row_is_written (fs : gmap string csv_rows) (pdf_path : path)
    (password : string) :
  exists rows,
    snd (save_password_to_csv fs pdf_path password Written) !! parent pdf_path =
      Some rows /\
    [name pdf_path; password] ∈ rows.
Proof.
  rewrite written_file. cbn [snd]. eexists. split; [apply lookup_insert_eq |].
  right. apply list_elem_of_fmap.
  exists (name pdf_path, password). split; [reflexivity |].
  rewrite (merge_sort_Permutation item_le).
  apply elem_of_map_to_list, lookup_insert_eq.
Qed.

Lemma saved_password_is_loaded (self : service) (fs : gmap string csv_rows)
    (pdf_path : path) (password : string) :
  no_cr (name pdf_path) = true ->
  no_cr password = true ->
  let '(_, (self', fs')) :=
    save_successful_password self fs pdf_path password Written in
  password_cache self' !! name pdf_path = Some password /\
  load_saved_passwords fs' pdf_path !! name pdf_path = Some password.
Proof.
  intros Hname Hpw.
  pose proof (load_after_save fs pdf_path password Hname) as Hload.
  unfold save_successful_password, cache_successful_password.
  rewrite written_file in *. cbn [snd] in Hload. cbn.
  split; [apply lookup_insert_eq |].
  rewrite Hload, (no_cr_fixed _ Hpw). apply lookup_insert_eq.
Qed.

End FileManagementFacts.

(** ** The extraction engine *)

Module PdfProcessorFacts.
Import Py PyStr QualityGate FileManagement FileManagementFacts PdfProcessor.
Local Open Scope Z_scope.

(** *** OCR fallback *)

(** The first OCR pass of a page is poor: fewer than 10 characters once
    stripped, or rejected by the quality gate. *)
Definition poor_ocr (self : processor) (raw : text) : Prop :=
  len (strip raw) < 10 \/ _is_garbage_text (db self) (strip raw) = true.

(** The claim about the per-page pipeline, as the specification words it:
    when the fallback made a first OCR pass and that pass is poor, a second
    pass with another configuration is made and its text is the page text. *)
Definition fallback_retries_poor_ocr : Prop :=
  forall (self : processor) (pg : page) (config1 : string) (more : list string)
         (raw1 : text),
    snd (_extract_page_text self pg) = config1 :: more ->
    image_to_string pg config1 = Done raw1 ->
    poor_ocr self raw1 ->
    exists config2 raw2,
      more = [config2] /\ config2 <> config1 /\
      image_to_string pg config2 = Done raw2 /\
      pr_text (fst (_extract_page_text self pg)) = strip raw2.

Definition blank_page : page :=
  {| get_text := Done []; get_pixmap := Done tt; image_to_string := λ _, Done [] |}.

Definition service1_processor (table : unicode_db) : processor :=
  {| max_pages := None; min_text_length := 250; verbose := true; db := table;
     FITZ_AVAILABLE := true; PYTESSERACT_AVAILABLE := true |}.

Definition no_table : unicode_db :=
  {| db_isalnum := λ _, false; db_isprintable := λ _, false |}.

(** On a blank page the fallback makes one pass, which is poor, and no second. *)
Lemma fallback_retries_poor_ocr_fails : ~ fallback_retries_poor_ocr.
Proof.
  intros H.
  destruct (H (service1_processor no_table) blank_page ""%string [] [])
    as (config2 & raw2 & Hmore & _).
  - reflexivity.
  - reflexivity.
  - left. vm_compute. reflexivity.
  - discriminate Hmore.
Qed.

(** Whether the primary path of [_extract_page_text] keeps the renderer's text. *)
Definition fitz_accepted (self : processor) (pg : page) : bool :=
  match get_text pg with
  | Done text =>
      (min_text_length self <=? len (strip text)) &&
      negb (_is_garbage_text (db self) text)
  | Failed _ => false
  end.

Lemma extract_page_text_fitz (self : processor) (pg : page) :
  fitz_accepted self pg = true ->
  exists text, get_text pg = Done text /\
    _extract_page_text self pg =
    ({| pr_text := strip text; pr_method := "fitz"; pr_error := None |}, []).
Proof.
  unfold fitz_accepted, _extract_page_text.
  destruct (get_text pg) as [text | e]; [| discriminate].
  intros ->. eauto.
Qed.

(** C4 (amended).  In the per-page pipeline the OCR fallback makes exactly one
    OCR pass, with the default configuration, and keeps its stripped text
    whatever its length or quality (a failed pass gives a page of method
    "failed").  The retry with another page-segmentation mode exists only in
    [_extract_page_with_tesseract_enhanced]: there a poor first pass (psm 6)
    is followed by a second pass (psm 3) whose stripped text is returned
    whatever its quality. *)
Theorem fallback_is_single_pass (self : processor) (pg : page) :
  (fitz_accepted self pg = false ->
   PYTESSERACT_AVAILABLE self = true ->
   get_pixmap pg = Done tt ->
   snd (_extract_page_text self pg) = [""%string] /\
   match image_to_string pg "" with
   | Done raw =>
       fst (_extract_page_text self pg) =
       {| pr_text := strip raw; pr_method := "tesseract"; pr_error := None |}
   | Failed e =>
       pr_method (fst (_extract_page_text self pg)) = "failed"%string /\
       pr_text (fst (_extract_page_text self pg)) = []
   end) /\
  (PYTESSERACT_AVAILABLE self = true ->
   get_pixmap pg = Done tt ->
   forall raw1, image_to_string pg "--psm 6 --oem 3" = Done raw1 ->
   poor_ocr self raw1 ->
   snd (_extract_page_with_tesseract_enhanced self pg) =
     ["--psm 6 --oem 3"; "--psm 3 --oem 3"]%string /\
   fst (_extract_page_with_tesseract_enhanced self pg) =
     match image_to_string pg "--psm 3 --oem 3" with
     | Done raw2 => strip raw2
     | Failed _ => []
     end).
Proof.
  split.
  - intros Hf Ht Hp. unfold fitz_accepted in Hf. unfold _extract_page_text.
    assert (E : match get_text pg with
                | Done text =>
                    if (min_text_length self <=? len (strip text)) &&
                       negb (_is_garbage_text (db self) text)
                    then Some {| pr_text := strip text; pr_method := "fitz";
                                 pr_error := None |}
                    else None
                | Failed _ => None
                end = None).
    { destruct (get_text pg); [now rewrite Hf | reflexivity]. }
    rewrite E, Ht. unfold _extract_with_tesseract. rewrite Hp.
    destruct (image_to_string pg "") as [raw | e]; cbn; auto.
  - intros Ht Hp raw1 H1 Hpoor.
    unfold _extract_page_with_tesseract_enhanced. rewrite Ht, Hp, H1. cbn.
    assert (E : (len (strip raw1) <? 10) ||
                _is_garbage_text (db self) (strip raw1) = true).
    { destruct Hpoor as [Hl | Hg].
      - apply Z.ltb_lt in Hl. now rewrite Hl.
      - rewrite Hg. apply orb_true_r. }
    rewrite E.
    destruct (image_to_string pg "--psm 3 --oem 3"); split; reflexivity.
Qed.

Lemma fallback_is_single_pass_witness :
  snd (_extract_page_text (service1_processor no_table) blank_page) = [""%string] /\
  snd (_extract_page_with_tesseract_enhanced (service1_processor no_table) blank_page) =
    ["--psm 6 --oem 3"; "--psm 3 --oem 3"]%string.
Proof.
  destruct (fallback_is_single_pass (service1_processor no_table) blank_page)
    as [A B].
  split.
  - apply A; reflexivity.
  - apply (B eq_refl eq_refl []); [reflexivity | left; vm_compute; reflexivity].
Defined.

(** *** The authentication loop *)

(** Membership in a short explicit list, by cases. *)
Ltac elem_cases :=
  repeat match goal with
  | H : _ ∈ _ :: _ |- _ => apply elem_of_cons in H as [H | H]
  | H : _ ∈ [] |- _ => apply elem_of_nil in H; destruct H
  end;
  try discriminate; try congruence.

#[global] Instance engine_event_eq_dec : EqDecision engine_event.
Proof. solve_decision. Defined.

(** The candidates the loop is given: the resolver's list (or the two-entry
    list when no file-management service was passed), cut to three. *)
Definition passwords_to_try (pdf_path : path) (password : option string)
    (st : engine_state) : list (option string) :=
  take 3 (match fm st with
          | Some svc => get_all_passwords_for_file svc (fs st) pdf_path password
          | None => [password; None]
          end).

Definition opens (evs : list engine_event) : nat :=
  length (List.filter (λ ev, bool_decide (ev = EvOpen)) evs).

(** The guarded call of [save_successful_password]: what it logs, and what
    it leaves when it is not made. *)
Lemma remember_password_spec (pdf_path : path) (pwd : option string)
    (st : engine_state) :
  let out := remember_password pdf_path pwd st in
  csv_write (snd out) = csv_write st /\
  ((exists pw svc,
      pwd = Some pw /\ truthy pwd = true /\ fm st = Some svc /\
      engine_log (snd out) = engine_log st ++ [EvSavePassword pw] /\
      let saved :=
        save_successful_password svc (fs st) pdf_path pw
          (csv_write st (length (engine_log st))) in
      fst out = fst saved /\
      fm (snd out) = Some (fst (snd saved)) /\ fs (snd out) = snd (snd saved)) \/
   ((truthy pwd = false \/ fm st = None) /\
    fst out = Done tt /\ snd out = st)).
Proof.
  cbv zeta. unfold remember_password.
  destruct pwd as [pw |]; [destruct (fm st) as [svc |] eqn:Efm;
                            [destruct (truthy (Some pw)) eqn:Et |] |].
  - destruct (save_successful_password svc (fs st) pdf_path pw
                (csv_write st (length (engine_log st))))
      as [raised [svc' fs']] eqn:E.
    cbn. split; [reflexivity |]. left. exists pw, svc. rewrite E.
    repeat split; reflexivity.
  - cbn. auto 10.
  - cbn. auto 10.
  - cbn. auto 10.
Qed.

(** What one run of the loop over [cands], entered with attempt counter [n],
    guarantees about its result and about the engine events it adds. *)
Definition loop_post (cands : list (option string)) (n : Z)
    (result : extraction_result) (st : engine_state)
    (out : extraction_result * engine_state) : Prop :=
  suggested_passwords (fst out) = suggested_passwords result /\
  (cands = [] /\ attempts_made (fst out) = attempts_made result \/
   n < attempts_made (fst out) <= n + len cands) /\
  exists evs,
    engine_log (snd out) = engine_log st ++ evs /\
    (forall pw, EvAuthenticate pw ∈ evs -> Some pw ∈ cands) /\
    (forall pw, EvSavePassword pw ∈ evs -> Some pw ∈ cands) /\
    (opens evs <= length cands)%nat.

Lemma len_cons {A} (x : A) (l : list A) : len (x :: l) = len l + 1.
Proof. unfold len. simpl length. lia. Qed.

Lemma len_nonneg {A} (l : list A) : 0 <= len l.
Proof. unfold len. lia. Qed.

Lemma loop_post_continue (pwd : option string) (rest : list (option string))
    (n : Z) (result result0 : extraction_result) (st st1 : engine_state)
    (pre : list engine_event) (out : extraction_result * engine_state) :
  suggested_passwords result0 = suggested_passwords result ->
  attempts_made result0 = n + 1 ->
  engine_log st1 = engine_log st ++ pre ->
  (forall pw, EvAuthenticate pw ∈ pre -> Some pw = pwd) ->
  (forall pw, EvSavePassword pw ∈ pre -> Some pw = pwd) ->
  opens pre = 1%nat ->
  loop_post rest (n + 1) result0 st1 out ->
  loop_post (pwd :: rest) n result st out.
Proof.
  intros Hs Ha Hl Hauth Hsave Hopen (Ps & Pa & evs & Pl & Pauth & Psave & Popen).
  pose proof (len_nonneg rest) as Hr.
  split; [congruence |]. split.
  - right. rewrite len_cons. destruct Pa as [[_ E] | E]; lia.
  - exists (pre ++ evs). split; [rewrite Pl, Hl; now rewrite app_assoc |].
    split; [| split].
    + intros pw Hin. apply elem_of_app in Hin as [Hin | Hin].
      * rewrite (Hauth pw Hin). left.
      * right. now apply Pauth.
    + intros pw Hin. apply elem_of_app in Hin as [Hin | Hin].
      * rewrite (Hsave pw Hin). left.
      * right. now apply Psave.
    + unfold opens in *. rewrite List.filter_app, length_app. simpl length. lia.
Qed.

(** An attempt whose password test has passed. *)
Lemma loop_post_worked (self : processor) (pdf_path : path)
    (fitz_open : Py.attempt document) (doc : document)
    (pwd : option string) (rest : list (option string))
    (n : Z) (result result0 : extraction_result) (st st1 : engine_state)
    (pre : list engine_event) :
  (forall (m : Z) (r : extraction_result) (s : engine_state),
     loop_post rest m r s (try_passwords self pdf_path fitz_open m rest r s)) ->
  suggested_passwords result0 = suggested_passwords result ->
  attempts_made result0 = n + 1 ->
  engine_log st1 = engine_log st ++ pre ->
  (forall pw, EvAuthenticate pw ∈ pre -> Some pw = pwd) ->
  (forall pw, EvSavePassword pw ∈ pre -> Some pw = pwd) ->
  opens pre = 1%nat ->
  loop_post (pwd :: rest) n result st
    (match remember_password pdf_path pwd st1 with
     | (Done _, st2) => (process_document self doc result0, log_event EvClose st2)
     | (Failed _, st2) =>
         try_passwords self pdf_path fitz_open (n + 1) rest result0 st2
     end).
Proof.
  intros IH Hs Ha Hl Hauth Hsave Hopen.
  pose proof (remember_password_spec pdf_path pwd st1) as H. cbv zeta in H.
  destruct (remember_password pdf_path pwd st1) as [raised st2].
  cbn [fst snd] in H. destruct H as [_ H].
  assert (Hlog : exists evs,
             engine_log st2 = engine_log st1 ++ evs /\
             (forall pw, EvAuthenticate pw ∉ evs) /\
             (forall pw, EvSavePassword pw ∈ evs -> Some pw = pwd) /\
             opens evs = 0%nat).
  { destruct H as [(pw & svc & -> & _ & _ & Hlog & _) | (_ & _ & ->)].
    - exists [EvSavePassword pw]. split; [exact Hlog |].
      split; [intros q Hin; elem_cases |].
      split; [intros q Hin; elem_cases | reflexivity].
    - exists []. rewrite app_nil_r. split; [reflexivity |].
      split; [intros q Hin; elem_cases |].
      split; [intros q Hin; elem_cases | reflexivity]. }
  destruct Hlog as (evs & Hl2 & Hauth2 & Hsave2 & Hopen2).
  pose proof (len_nonneg rest) as Hr.
  destruct raised as [[] | text].
  - split; [cbn; congruence |]. split; [right; cbn; rewrite len_cons; lia |].
    exists (pre ++ evs ++ [EvClose]). cbn [snd log_event engine_log].
    split; [rewrite Hl2, Hl; now rewrite <- !app_assoc |].
    split; [| split].
    + intros q Hin. apply elem_of_app in Hin as [Hin | Hin].
      * rewrite (Hauth q Hin). left.
      * apply elem_of_app in Hin as [Hin | Hin];
          [destruct (Hauth2 q Hin) | elem_cases].
    + intros q Hin. apply elem_of_app in Hin as [Hin | Hin].
      * rewrite (Hsave q Hin). left.
      * apply elem_of_app in Hin as [Hin | Hin];
          [rewrite (Hsave2 q Hin); left | elem_cases].
    + unfold opens in *. rewrite !List.filter_app, !length_app.
      rewrite Hopen, Hopen2. simpl. lia.
  - apply (loop_post_continue pwd rest n result result0 st st2 (pre ++ evs));
      auto.
    + rewrite Hl2, Hl. now rewrite app_assoc.
    + intros q Hin. apply elem_of_app in Hin as [Hin | Hin];
        [now apply Hauth | destruct (Hauth2 q Hin)].
    + intros q Hin. apply elem_of_app in Hin as [Hin | Hin];
        [now apply Hsave | now apply Hsave2].
    + unfold opens in *. rewrite List.filter_app, length_app. lia.
Qed.

(** Closes the side conditions of the two lemmas above. *)
Ltac loop_side :=
  try reflexivity; auto;
  try (cbn; now rewrite <- ?app_assoc);
  intros pw Hin; elem_cases.

Lemma try_passwords_spec (self : processor) (pdf_path : path)
    (fitz_open : Py.attempt document) (cands : list (option string)) :
  forall (n : Z) (result : extraction_result) (st : engine_state),
  loop_post cands n result st
    (try_passwords self pdf_path fitz_open n cands result st).
Proof.
  induction cands as [| pwd rest IH]; intros n result st.
  - cbn. split; [reflexivity |]. split; [left; auto |].
    exists []. rewrite app_nil_r. repeat split; try (intros ? H; inversion H).
    unfold opens. simpl. lia.
  - cbn [try_passwords]. cbv zeta.
    destruct fitz_open as [doc | e].
    + destruct (needs_pass doc).
      * destruct pwd as [p |].
        -- destruct (truthy (Some p)) eqn:Et.
           ++ destruct (authenticate doc p).
              ** eapply (loop_post_worked self pdf_path (Done doc) doc (Some p) rest n
                           result _ st _ [EvOpen; EvAuthenticate p]); loop_side.
              ** eapply (loop_post_continue _ _ _ _ _ _
                           (log_event EvClose (log_event (EvAuthenticate p)
                                                 (log_event EvOpen st)))
                           [EvOpen; EvAuthenticate p; EvClose]);
                   revgoals; [solve [apply IH] | ..]; loop_side.
           ++ eapply (loop_post_continue _ _ _ _ _ _
                        (log_event EvClose (log_event EvOpen st))
                        [EvOpen; EvClose]);
                revgoals; [solve [apply IH] | ..]; loop_side.
        -- eapply (loop_post_continue _ _ _ _ _ _
                     (log_event EvClose (log_event EvOpen st))
                     [EvOpen; EvClose]);
             revgoals; [solve [apply IH] | ..]; loop_side.
      * eapply (loop_post_worked self pdf_path (Done doc) doc pwd rest n
                  result _ st _ [EvOpen]); loop_side.
    + eapply (loop_post_continue _ _ _ _ _ _ (log_event EvOpen st) [EvOpen]);
        revgoals; [solve [apply IH] | ..]; loop_side.
Qed.

Lemma resolver_nonempty (self : service) (fs : gmap string csv_rows)
    (pdf_path : path) (provided_password : option string) :
  exists c rest,
    get_all_passwords_for_file self fs pdf_path provided_password = c :: rest.
Proof.
  unfold get_all_passwords_for_file.
  match goal with |- context [?l ++ [None]] => destruct l as [| c l'] end;
    simpl; eauto.
Qed.

Lemma passwords_to_try_nonempty (pdf_path : path) (password : option string)
    (st : engine_state) :
  exists c rest, passwords_to_try pdf_path password st = c :: rest.
Proof.
  unfold passwords_to_try. destruct (fm st) as [svc |].
  - destruct (resolver_nonempty svc (fs st) pdf_path password) as (c & rest & ->).
    simpl. eauto.
  - simpl. eauto.
Qed.

Lemma extract_unfold (self : processor) (pdf_path : path)
    (fitz_open : Py.attempt document) (password : option string)
    (st : engine_state) :
  FITZ_AVAILABLE self = true ->
  extract_text_from_pdf_enhanced self pdf_path fitz_open password st =
  let out :=
    try_passwords self pdf_path fitz_open 0 (passwords_to_try pdf_path password st)
      {| success := false; total_pages := 0; pages := []; error_message := None;
         password_required := false; password_used := None; attempts_made := 0;
         suggested_passwords := omap id (passwords_to_try pdf_path password st) |}
      st in
  (Ret (fst out), snd out).
Proof.
  intros H. unfold extract_text_from_pdf_enhanced, passwords_to_try. rewrite H.
  cbn [negb]. cbv zeta.
  match goal with |- context [try_passwords ?a ?b ?c ?d ?e ?f ?g] =>
    destruct (try_passwords a b c d e f g) end.
  reflexivity.
Qed.

Lemma take_length_le {A} (n : nat) (l : list A) : len (take n l) <= Z.of_nat n.
Proof. unfold len. rewrite length_take. lia. Qed.

(** C6.  The resolver returns the sequence provided, CSV, memory, default,
    null with duplicates removed (first occurrence kept): at most five
    entries, the last one null; and the authentication loop works on the
    first three entries only. *)
Theorem resolver_order_and_three_attempts (self : service)
    (fs0 : gmap string csv_rows) (pdf_path : path)
    (provided_password : option string) (proc : processor)
    (fitz_open : Py.attempt document) (answers : nat -> write_answer)
    (log0 : list engine_event) :
  FITZ_AVAILABLE proc = true ->
  let resolved := get_all_passwords_for_file self fs0 pdf_path provided_password in
  resolved =
    dedup (candidate_sequence provided_password
             (load_saved_passwords fs0 pdf_path !! name pdf_path)
             (password_cache self !! name pdf_path)
             (default_password self)) /\
  (length resolved <= 5)%nat /\
  last resolved = Some None /\
  exists r st' evs,
    extract_text_from_pdf_enhanced proc pdf_path fitz_open provided_password
      {| fm := Some self; fs := fs0; csv_write := answers; engine_log := log0 |} =
      (Ret r, st') /\
    suggested_passwords r = omap id (take 3 resolved) /\
    attempts_made r <= 3 /\
    engine_log st' = log0 ++ evs /\
    (opens evs <= 3)%nat /\
    (forall pw, EvAuthenticate pw ∈ evs -> Some pw ∈ take 3 resolved) /\
    (forall pw, EvSavePassword pw ∈ evs -> Some pw ∈ take 3 resolved).
Proof.
  intros Hfitz resolved.
  split; [apply resolver_is_dedup |].
  split; [apply resolver_length |].
  split; [apply resolver_ends_with_None |].
  rewrite (extract_unfold _ _ _ _ _ Hfitz). cbv zeta.
  set (st := {| fm := Some self; fs := fs0; csv_write := answers;
                engine_log := log0 |}).
  assert (Hc : passwords_to_try pdf_path provided_password st = take 3 resolved)
    by reflexivity.
  rewrite Hc.
  match goal with |- context [try_passwords ?a ?b ?c ?d ?e ?f ?g] =>
    pose proof (try_passwords_spec a b c e d f g) as Hloop;
    destruct (try_passwords a b c d e f g) as [r st'] end.
  destruct Hloop as (Hs & Ha & evs & Hl & Hauth & Hsave & Hopen).
  cbn [fst snd] in *.
  exists r, st', evs. split; [reflexivity |]. split; [exact Hs |].
  pose proof (take_length_le 3 resolved) as Hlen.
  split; [destruct Ha as [[_ ->] | Ha]; cbn; lia |].
  split; [exact Hl |].
  split; [rewrite length_take in Hopen; lia |].
  split; assumption.
Qed.

Definition plain_document : document :=
  {| needs_pass := false; authenticate := λ _, false; doc_pages := [] |}.

Definition source_pdf : path := {| parent := "/lake/D1"; name := "source.pdf" |}.

Definition fresh_service : service :=
  {| default_password := Some "operations@PRI"%string; password_cache := ∅ |}.

Lemma resolver_order_and_three_attempts_witness :
  get_all_passwords_for_file fresh_service ∅ source_pdf (Some "hint"%string) =
  [Some "hint"%string; Some "operations@PRI"%string; None].
Proof.
  pose proof (resolver_order_and_three_attempts fresh_service ∅ source_pdf
                (Some "hint"%string) (service1_processor no_table)
                (Done plain_document) (λ _, Written) [] eq_refl) as [H _].
  rewrite H. vm_compute. reflexivity.
Defined.

(** *** Documents that need no password *)

(** A file system on which every write of a password file goes through. *)
Definition writes_go_through (st : engine_state) : Prop :=
  forall n, csv_write st n = Written.

(** The claim as stated, at one input: for a PDF that needs no password the
    first candidate, when it is not null, is recorded as [password_used] and
    persisted to the in-memory cache and to the CSV. *)
Definition non_null_candidate_is_persisted (self : processor) (pdf_path : path)
    (doc : document) (password : option string) (st : engine_state) : Prop :=
  forall (r : extraction_result) (st' : engine_state)
         (pw : string) (rest : list (option string)),
    FITZ_AVAILABLE self = true ->
    needs_pass doc = false ->
    passwords_to_try pdf_path password st = Some pw :: rest ->
    extract_text_from_pdf_enhanced self pdf_path (Done doc) password st =
      (Ret r, st') ->
    password_used r = Some pw /\
    exists svc' rows,
      fm st' = Some svc' /\
      password_cache svc' !! name pdf_path = Some pw /\
      fs st' !! parent pdf_path = Some rows /\
      [name pdf_path; pw] ∈ rows.

(** A password file whose entry for the document is the empty string. *)
Definition csv_with_empty_password : gmap string csv_rows :=
  {[ "/lake/D1"%string := [header; ["source.pdf"; ""]%string] ]}.

Definition no_default_service : service :=
  {| default_password := None; password_cache := ∅ |}.

(** The directory of the document cannot be written. *)
Definition read_only_engine : engine_state :=
  {| fm := Some fresh_service; fs := ∅;
     csv_write := λ _, WriteError "Permission denied" None;
     engine_log := [] |}.

(** Two inputs at which the claim fails.  With the password file above the
    first candidate is the empty string: it is accepted and the in-memory
    cache is left empty.  On a directory that cannot be written the first
    candidate is the default password: its save raises, the attempt is
    abandoned, and the second candidate, the null one, is the one recorded. *)
Lemma non_null_candidate_is_persisted_fails :
  ~ non_null_candidate_is_persisted (service1_processor no_table) source_pdf
      plain_document None
      {| fm := Some no_default_service; fs := csv_with_empty_password;
         csv_write := λ _, Written; engine_log := [] |} /\
  ~ non_null_candidate_is_persisted (service1_processor no_table) source_pdf
      plain_document None read_only_engine.
Proof.
  split; intros H.
  - pose (st0 := {| fm := Some no_default_service; fs := csv_with_empty_password;
                    csv_write := λ _, Written; engine_log := [] |}).
    pose (out := extract_text_from_pdf_enhanced (service1_processor no_table)
                   source_pdf (Done plain_document) None st0).
    assert (E : exists r st', out = (Ret r, st') /\
                  fm st' = Some no_default_service).
    { vm_compute. eauto. }
    destruct E as (r & st' & E & Hfm).
    destruct (H r st' ""%string [None] eq_refl eq_refl eq_refl E)
      as (_ & svc' & rows & Hsvc & Hcache & _).
    rewrite Hfm in Hsvc. injection Hsvc as <-.
    cbn in Hcache. rewrite lookup_empty in Hcache. discriminate Hcache.
  - pose (out := extract_text_from_pdf_enhanced (service1_processor no_table)
                   source_pdf (Done plain_document) None read_only_engine).
    assert (E : exists r st', out = (Ret r, st') /\
                  password_used r = None /\ attempts_made r = 2).
    { vm_compute. eauto. }
    destruct E as (r & st' & E & Hused & _).
    destruct (H r st' "operations@PRI"%string [None] eq_refl eq_refl eq_refl E)
      as (Hpw & _).
    rewrite Hused in Hpw. discriminate Hpw.
Qed.

(** The first candidate [c] is accepted at the first attempt, with the
    opening and the closing of the document as the only engine events, and
    both caches are left as they were. *)
Definition accepted_unsaved (c : option string) (st : engine_state)
    (out : outcome extraction_result * engine_state) : Prop :=
  exists r st',
    out = (Ret r, st') /\
    success r = true /\ password_used r = c /\ attempts_made r = 1 /\
    engine_log st' = engine_log st ++ [EvOpen; EvClose] /\
    fm st' = fm st /\ fs st' = fs st.

(** C10 (amended).  For a PDF that needs no password the first candidate is
    accepted without any call to [authenticate].  When it is a non-empty
    string and a file-management service was passed, it is handed to
    [save_successful_password]; if the write of the CSV goes through, it is
    recorded as [password_used] in a success at the first attempt, and it is
    in the in-memory cache and in the row of the file in the CSV.  Otherwise
    (a null or empty candidate, or no service) it is recorded as
    [password_used] in a success at the first attempt, nothing is saved and
    both caches are left as they were. *)
Theorem unprotected_pdf_accepts_first_candidate (self : processor)
    (pdf_path : path) (doc : document) (password : option string)
    (st : engine_state) :
  FITZ_AVAILABLE self = true ->
  needs_pass doc = false ->
  exists c rest,
    passwords_to_try pdf_path password st = c :: rest /\
    let out :=
      extract_text_from_pdf_enhanced self pdf_path (Done doc) password st in
    match fm st with
    | Some svc =>
        if truthy c then
          writes_go_through st ->
          exists r st' pw svc' rows,
            out = (Ret r, st') /\ c = Some pw /\
            success r = true /\ password_used r = c /\ attempts_made r = 1 /\
            engine_log st' =
              engine_log st ++ [EvOpen; EvSavePassword pw; EvClose] /\
            fm st' = Some svc' /\
            password_cache svc' !! name pdf_path = Some pw /\
            fs st' !! parent pdf_path = Some rows /\
            [name pdf_path; pw] ∈ rows
        else accepted_unsaved c st out
    | None => accepted_unsaved c st out
    end.
Proof.
  intros Hfitz Hplain.
  destruct (passwords_to_try_nonempty pdf_path password st) as (c & rest & Hc).
  exists c, rest. split; [exact Hc |]. cbv zeta.
  rewrite (extract_unfold _ _ _ _ _ Hfitz). cbv zeta. rewrite Hc.
  cbn [try_passwords]. cbv zeta. rewrite Hplain.
  match goal with |- context [remember_password ?a ?b ?s0] =>
    pose proof (remember_password_spec a b s0) as Hrem; cbv zeta in Hrem;
    destruct (remember_password a b s0) as [raised st1] end.
  cbn [fst snd] in Hrem. destruct Hrem as [_ Hrem].
  destruct Hrem as [(pw & svc & -> & Ht & Hsvc & Hl & Hraised & Hfm & Hfs)
                   | (Hno & -> & ->)].
  - cbn [fm log_event] in Hsvc. rewrite Hsvc, Ht. intros Hwrite.
    cbn [csv_write log_event] in Hraised, Hfm, Hfs. rewrite Hwrite in *.
    unfold save_successful_password in Hraised, Hfm, Hfs.
    rewrite written_file in *. cbn [fst snd] in Hraised, Hfm, Hfs.
    subst raised.
    destruct (saved_row_is_written (fs st) pdf_path pw) as (rows & Hrows & Hin).
    rewrite written_file in Hrows. cbn [snd] in Hrows.
    eexists _, _, pw, (cache_successful_password svc pdf_path pw), rows.
    split; [reflexivity |]. cbn in Hl.
    cbn [log_event engine_log fm fs success password_used attempts_made
         process_document fst snd].
    rewrite Hl, Hfm, Hfs, <- !app_assoc.
    repeat split; auto. apply lookup_insert_eq.
  - cbn [fst snd].
    match goal with |- context [accepted_unsaved c st ?o] =>
      assert (Hacc : accepted_unsaved c st o) end.
    { eexists _, _. split; [reflexivity |].
      cbn. rewrite <- app_assoc. repeat split; reflexivity. }
    cbn [fm log_event] in Hno.
    destruct (fm st) as [svc |]; [| exact Hacc].
    destruct Hno as [-> | Hno]; [exact Hacc | discriminate Hno].
Qed.

Lemma unprotected_pdf_accepts_first_candidate_witness :
  exists r st',
    extract_text_from_pdf_enhanced (service1_processor no_table) source_pdf
      (Done plain_document) None
      {| fm := Some fresh_service; fs := ∅; csv_write := λ _, Written;
         engine_log := [] |} = (Ret r, st') /\
    password_used r = Some "operations@PRI"%string /\
    engine_log st' = [EvOpen; EvSavePassword "operations@PRI"; EvClose] /\
    fs st' !! "/lake/D1"%string =
      Some [header; ["source.pdf"; "operations@PRI"]%string].
Proof.
  destruct (unprotected_pdf_accepts_first_candidate (service1_processor no_table)
              source_pdf plain_document None
              {| fm := Some fresh_service; fs := ∅; csv_write := λ _, Written;
                 engine_log := [] |}
              eq_refl eq_refl)
    as (c & rest & Hc & H).
  vm_compute in Hc. injection Hc as <- <-.
  destruct (H (λ _, eq_refl)) as (r & st' & pw & svc' & rows & E & _).
  exists r, st'. split; [exact E |].
  vm_compute in E. injection E as <- <-. repeat split; reflexivity.
Defined.

End PdfProcessorFacts.

(** ** The per-document pipeline *)

Module ServiceFacts.
Import Py PyFloat FileManagement Service.
Local Open Scope Z_scope.

(** *** Closed forms of the helpers *)

(** The state after some statements and some logged calls. *)
Definition after (s : state) (q : list row) (n : nat) (evs : list event) : state :=
  {| queue := q; trackers := trackers s; engine := engine s; statements := n;
     trace := trace s ++ evs; lock_acquired := lock_acquired s |}.

Definition committed (e : env) (change : Z -> list row -> list row) (s : state) :
    list row :=
  if db_available e (statements s)
  then change (db_now e (statements s)) (queue s) else queue s.

Lemma execute_eq (e : env) (change : Z -> list row -> list row) (s : state) :
  execute e change s =
  (Ret (db_available e (statements s)),
   {| queue := committed e change s; trackers := trackers s; engine := engine s;
      statements := S (statements s); trace := trace s;
      lock_acquired := lock_acquired s |}).
Proof. unfold execute, committed. destruct (db_available e (statements s)); reflexivity. Qed.

Lemma logged_statement_eq (e : env) (ev : event)
    (change : Z -> list row -> list row) (s : state) :
  (log ev ;;; execute e change) s =
  (Ret (db_available e (statements s)),
   after s (committed e change s) (S (statements s)) [ev]).
Proof. unfold bind, log. cbn. rewrite execute_eq. reflexivity. Qed.

(** Whether [_set_processing_lock] answers [True] in state [s]. *)
Definition busy (id : string) (q : list row) : bool :=
  existsb (λ r, bool_decide (doc_id r = id) && is_processing r) q.

Definition acquires (e : env) (id : string) (s : state) : bool :=
  db_available e (statements s) && negb (busy id (queue s)) &&
  db_available e (S (statements s)).

Lemma committed_select (e : env) (s : state) :
  committed e (λ _ q, q) s = queue s.
Proof. unfold committed. destruct (db_available e (statements s)); reflexivity. Qed.

Lemma set_processing_lock_eq (e : env) (id : string) (s : state) :
  exists q' n',
    _set_processing_lock e id s =
      (Ret (acquires e id s), after s q' n' [set_processing_lock (acquires e id s)]) /\
    (acquires e id s = false -> q' = queue s).
Proof.
  unfold _set_processing_lock, acquires, busy, bind, ret, log.
  rewrite execute_eq. cbn. rewrite committed_select.
  destruct (db_available e (statements s)) eqn:E1; cbn.
  - destruct (existsb _ (queue s)) eqn:E2; cbn.
    + eexists _, _. split; reflexivity.
    + rewrite execute_eq. cbn. eexists _, _. split; [reflexivity |].
      intros Hf. unfold committed. cbn. rewrite Hf. reflexivity.
  - eexists _, _. split; reflexivity.
Qed.


(** [when_batch] with a tracker update only changes the trackers. *)
Definition batch_step (batch_id : option string)
    (g : string -> gmap string Tracker.entry -> gmap string Tracker.entry)
    (t : gmap string Tracker.entry) : gmap string Tracker.entry :=
  match batch_id with
  | Some b => if truthy batch_id then g b t else t
  | None => t
  end.

Lemma when_batch_eq (batch_id : option string)
    (g : string -> gmap string Tracker.entry -> gmap string Tracker.entry)
    (s : state) :
  when_batch batch_id (λ b, on_trackers (g b)) s =
  (Ret tt,
   {| queue := queue s; trackers := batch_step batch_id g (trackers s);
      engine := engine s; statements := statements s; trace := trace s;
      lock_acquired := lock_acquired s |}).
Proof.
  unfold when_batch, batch_step, on_trackers, ret.
  destruct batch_id as [b |]; [destruct (truthy (Some b)) |]; destruct s; reflexivity.
Qed.

(** [_extract_pdf_text] always returns a result dictionary. *)
Definition extracted (self : config) (e : env) (pdf_path : path)
    (password : option string) (s : state) : PdfProcessor.extraction_result :=
  match fst (_extract_pdf_text self e pdf_path password s) with
  | Ret r => r
  | Raise _ => PdfProcessor.initial_result
  end.

Lemma extract_pdf_text_eq (self : config) (e : env) (pdf_path : path)
    (password : option string) (s : state) :
  exists est,
    _extract_pdf_text self e pdf_path password s =
    (Ret (extracted self e pdf_path password s),
     {| queue := queue s; trackers := trackers s; engine := est;
        statements := statements s; trace := trace s;
        lock_acquired := lock_acquired s |}).
Proof.
  unfold extracted, _extract_pdf_text, try_except,
    PdfProcessor.extract_text_from_pdf_enhanced.
  destruct (negb (PdfProcessor.FITZ_AVAILABLE (pdf_processor self))).
  - cbn. eexists. reflexivity.
  - match goal with |- context [PdfProcessor.try_passwords ?a ?b ?c ?d ?f ?g ?h] =>
      destruct (PdfProcessor.try_passwords a b c d f g h) as [r est] end.
    cbn. eexists. reflexivity.
Qed.

(** [_call_service2] returns a boolean, logs the call and changes nothing. *)
Definition notified (self : config) (e : env) : bool :=
  negb (service2_enabled self) || negb (httpx_installed self) ||
  match post e with
  | Response status_code => bool_decide (status_code ∈ [200; 201; 202])
  | _ => false
  end.

Lemma call_service2_eq (self : config) (e : env) (id : Z) (doc : string)
    (s : state) :
  _call_service2 self e id doc s =
  (Ret (notified self e), after s (queue s) (statements s) [call_service2 id]).
Proof.
  unfold _call_service2, notified, bind, log, try_except, ret, after.
  destruct (negb (service2_enabled self) || negb (httpx_installed self)); cbn;
    [reflexivity |].
  destruct (post e); reflexivity.
Qed.

(** *** The shapes of a run *)

Definition failure_tail (text : option message) : list event :=
  [update_queue_status (-1); update_error_message text; clear_processing_lock].

Definition notify_events (info : doc_info) : list event :=
  match di_extraction_id info with
  | Some x => if truthy_int (di_extraction_id info) then [call_service2 x] else []
  | None => []
  end.

(** The calls of a successful run between the lock and its release. *)
Definition success_events (info : doc_info) (raw_uri text_uri : string)
    (written : list (Z * string)) (seconds : Z) : list event :=
  [update_datalake_raw_uri raw_uri; save_extracted_content written;
   update_datalake_text_uri text_uri; update_queue_status 100;
   update_text_extraction_duration seconds; update_last_processed] ++
  notify_events info.

Definition success_result (info : doc_info) (pages seconds : Z) :
    Tracker.doc_result :=
  {| Tracker.r_doc_id := di_doc_id info; Tracker.r_success := true;
     Tracker.r_error := None; Tracker.r_total_pages := Some pages;
     Tracker.r_processed_pages := Some pages;
     Tracker.r_duration_seconds := Some seconds |}.

(** The writes a run has made when it fails or is aborted. *)
Definition progress_prefix (pre : list event) : Prop :=
  pre = [] \/
  (exists u, pre = [update_datalake_raw_uri u]) \/
  (exists u w, pre = [update_datalake_raw_uri u; save_extracted_content w]).

(** What the [try] block does once the lock is held. *)
Inductive body_shape (info : doc_info) :
    outcome Tracker.doc_result -> list event -> Prop :=
  | body_failed (pre : list event) (text : option message) :
      progress_prefix pre ->
      body_shape info (Ret (failure (di_doc_id info) text))
        (pre ++ [update_queue_status (-1); update_error_message text])
  | body_raised (pre : list event) (err : exn) :
      progress_prefix pre ->
      body_shape info (Raise err) pre
  | body_success (raw_uri text_uri : string) (written : list (Z * string))
        (pages seconds : Z) :
      body_shape info (Ret (success_result info pages seconds))
        (success_events info raw_uri text_uri written seconds).

(** What a whole run does. *)
Inductive run_shape (info : doc_info) :
    outcome Tracker.doc_result -> list event -> Prop :=
  | shape_contended :
      run_shape info
        (Ret (failure (di_doc_id info)
                (Some (Literal "Document is currently being processed"))))
        [set_processing_lock false]
  | shape_failed (pre : list event) (text : option message) :
      progress_prefix pre ->
      run_shape info (Ret (failure (di_doc_id info) text))
        (set_processing_lock true :: pre ++ failure_tail text)
  | shape_aborted (pre : list event) (err : exn) :
      progress_prefix pre ->
      exn_is_Exception err = false ->
      run_shape info (Raise err)
        (set_processing_lock true :: pre ++ [clear_processing_lock])
  | shape_success (raw_uri text_uri : string) (written : list (Z * string))
        (pages seconds : Z) :
      run_shape info (Ret (success_result info pages seconds))
        (set_processing_lock true ::
         success_events info raw_uri text_uri written seconds ++
         [clear_processing_lock]).

(** One step of symbolic execution in the hypothesis [H]. *)
Ltac step H :=
  unfold bind at 1 in H;
  first
    [ rewrite logged_statement_eq in H
    | rewrite when_batch_eq in H
    | rewrite call_service2_eq in H ];
  cbn [after queue trackers engine statements trace lock_acquired] in H.

Lemma notify_eq (self : config) (e : env) (info : doc_info) (s : state) :
  (match di_extraction_id info with
   | Some x =>
       if truthy_int (di_extraction_id info)
       then _call_service2 self e x (di_doc_id info) ;;; ret tt
       else ret tt
   | None => ret tt
   end) s =
  (Ret tt, after s (queue s) (statements s) (notify_events info)).
Proof.
  unfold notify_events, after.
  destruct (di_extraction_id info) as [x |];
    [destruct (truthy_int (Some x)) |]; cbn.
  - unfold bind. rewrite call_service2_eq. reflexivity.
  - rewrite app_nil_r. destruct s; reflexivity.
  - rewrite app_nil_r. destruct s; reflexivity.
Qed.

Lemma save_and_complete_spec (self : config) (e : env) (info : doc_info)
    (batch_id : option string) (r : PdfProcessor.extraction_result) (s : state) :
  let out := save_and_complete self e info batch_id r s in
  let written := map (λ p, (p.1, PdfProcessor.pr_method p.2)) (PdfProcessor.pages r) in
  lock_acquired (snd out) = lock_acquired s /\
  match storage_write e with
  | Ret _ =>
      fst out =
        Ret (success_result info (PdfProcessor.total_pages r)
               (to_int (fsub (time_end e) (time_start e)))) /\
      trace (snd out) = trace s ++
        [save_extracted_content written;
         update_datalake_text_uri (service1_text_path self (di_doc_id info));
         update_queue_status 100;
         update_text_extraction_duration (to_int (fsub (time_end e) (time_start e)));
         update_last_processed] ++ notify_events info
  | Raise err =>
      fst out = Raise err /\
      trace (snd out) = trace s ++ [save_extracted_content written]
  end.
Proof.
  cbv zeta.
  destruct (save_and_complete self e info batch_id r s) as [o s'] eqn:E.
  cbn [fst snd]. unfold save_and_complete in E. cbv zeta in E.
  unfold bind at 1 in E.
  unfold _save_extracted_content_to_service1_folder, bind at 1, log at 1 in E.
  cbn [queue trackers engine statements trace lock_acquired] in E.
  destruct (storage_write e) as [[] | err].
  - unfold _update_datalake_text_uri, _update_queue_status,
      _update_text_extraction_duration, _update_last_processed in E.
    step E. step E. step E. step E. step E.
    unfold bind at 1 in E. rewrite notify_eq in E.
    cbn [after queue trackers engine statements trace lock_acquired] in E.
    step E. unfold ret in E. injection E as <- <-. cbn.
    split; [reflexivity |]. split; [reflexivity |].
    rewrite <- !app_assoc. reflexivity.
  - injection E as <- <-. cbn. auto.
Qed.


Lemma extract_and_save_spec (self : config) (e : env) (info : doc_info)
    (batch_id : option string) (pdf_path : path) (s : state) :
  let out := extract_and_save self e info batch_id pdf_path s in
  lock_acquired (snd out) = lock_acquired s /\
  exists evs, trace (snd out) = trace s ++ evs /\ body_shape info (fst out) evs.
Proof.
  cbv zeta.
  destruct (extract_and_save self e info batch_id pdf_path s) as [o s'] eqn:E.
  cbn [fst snd]. unfold extract_and_save in E. cbv zeta in E.
  unfold _update_datalake_raw_uri in E. step E. step E.
  unfold bind at 1 in E.
  match type of E with context [_extract_pdf_text ?a ?b ?c ?d ?s0] =>
    destruct (extract_pdf_text_eq a b c d s0) as (est & Hx);
    rewrite Hx in E; clear Hx;
    revert E; generalize (extracted a b c d s0); intros r E end.
  cbn [queue trackers engine statements trace lock_acquired] in E.
  destruct (PdfProcessor.success r); cbn [negb] in E.
  - match type of E with save_and_complete ?a ?b ?c ?d ?r0 ?s0 = _ =>
      pose proof (save_and_complete_spec a b c d r0 s0) as Hs end.
    cbv zeta in Hs. rewrite E in Hs. cbn [fst snd lock_acquired trace] in Hs.
    destruct Hs as [Hl Hs]. split; [exact Hl |].
    destruct (storage_write e) as [[] | err]; destruct Hs as [-> ->].
    + eexists. rewrite <- app_assoc. split; [reflexivity |].
      apply (body_success info _ _ _ _ _).
    + eexists. rewrite <- app_assoc. split; [reflexivity |].
      apply body_raised. right. right. eauto.
  - unfold _update_queue_status, _update_error_message in E.
    step E. step E. unfold ret in E. injection E as <- <-. cbn.
    split; [reflexivity |].
    eexists. rewrite <- !app_assoc. split; [reflexivity |].
    apply (body_failed info [update_datalake_raw_uri _]).
    right. left. eauto.
Qed.

Lemma except_block_eq (e : env) (info : doc_info) (batch_id : option string)
    (err : exn) (s : state) :
  exists s',
    except_block e info batch_id err s =
      (Ret (failure (di_doc_id info) (Some (exn_text err))), s') /\
    lock_acquired s' = lock_acquired s /\
    trace s' = trace s ++
      [update_queue_status (-1); update_error_message (Some (exn_text err))].
Proof.
  destruct (except_block e info batch_id err s) as [o s'] eqn:E.
  unfold except_block in E. cbv zeta in E.
  unfold _update_queue_status, _update_error_message in E.
  step E. step E. step E. unfold ret in E. injection E as <- <-.
  eexists. split; [reflexivity |]. cbn. split; [reflexivity |].
  now rewrite <- app_assoc.
Qed.

Lemma finally_block_eq (e : env) (info : doc_info) (s : state) :
  exists s',
    finally_block e info s = (Ret tt, s') /\
    trace s' = trace s ++ (if lock_acquired s then [clear_processing_lock] else []).
Proof.
  destruct (finally_block e info s) as [o s'] eqn:E.
  unfold finally_block, bind at 1, get_lock_acquired in E.
  destruct (lock_acquired s).
  - unfold _clear_processing_lock in E. unfold bind at 1 in E.
    rewrite logged_statement_eq in E. unfold ret in E. injection E as <- <-.
    eexists. split; reflexivity.
  - unfold ret in E. injection E as <- <-.
    eexists. split; [reflexivity |]. now rewrite app_nil_r.
Qed.

(** The [try] block: either the lock is refused, or the body runs with the
    lock held. *)
Lemma try_block_spec (self : config) (e : env) (info : doc_info)
    (batch_id : option string) (s : state) :
  let out := try_block self e info batch_id s in
  lock_acquired (snd out) = acquires e (di_doc_id info) s /\
  exists evs,
    trace (snd out) =
      trace s ++ set_processing_lock (acquires e (di_doc_id info) s) :: evs /\
    if acquires e (di_doc_id info) s
    then body_shape info (fst out) evs
    else evs = [] /\
         fst out = Ret (failure (di_doc_id info)
                          (Some (Literal "Document is currently being processed"))).
Proof.
  cbv zeta.
  destruct (try_block self e info batch_id s) as [o s'] eqn:E.
  cbn [fst snd]. unfold try_block in E. cbv zeta in E.
  unfold bind at 1 in E.
  destruct (set_processing_lock_eq e (di_doc_id info) s) as (q1 & n1 & Hlock & _).
  rewrite Hlock in E. clear Hlock.
  revert E. generalize (acquires e (di_doc_id info) s). intros acquired E.
  unfold bind at 1, set_lock_acquired at 1 in E.
  cbn [after queue trackers engine statements trace lock_acquired] in E.
  destruct acquired; cbn [negb] in E.
  - step E. unfold bind at 1, _get_pdf_file in E.
    destruct (get_pdf_file e) as [[pdf_path |] | err].
    + match type of E with extract_and_save ?a ?b ?c ?d ?p ?s0 = _ =>
        pose proof (extract_and_save_spec a b c d p s0) as Hs end.
      cbv zeta in Hs. rewrite E in Hs. cbn [fst snd lock_acquired trace] in Hs.
      destruct Hs as (Hl & evs & Ht & Hshape).
      split; [exact Hl |]. exists evs. rewrite Ht, <- app_assoc. auto.
    + unfold _update_queue_status, _update_error_message in E.
      step E. step E. unfold ret in E. injection E as <- <-. cbn.
      split; [reflexivity |]. eexists. rewrite <- !app_assoc.
      split; [reflexivity |]. apply (body_failed info []). now left.
    + injection E as <- <-. cbn. split; [reflexivity |].
      exists []. split; [reflexivity |]. apply body_raised. now left.
  - unfold ret in E. injection E as <- <-. cbn. split; [reflexivity |].
    exists []. auto.
Qed.

Lemma acquires_lock_acquired (e : env) (id : string) (s : state) (b : bool) :
  acquires e id
    {| queue := queue s; trackers := trackers s; engine := engine s;
       statements := statements s; trace := trace s; lock_acquired := b |} =
  acquires e id s.
Proof. reflexivity. Qed.

Ltac norm_app :=
  unfold failure_tail, success_events;
  repeat first [rewrite <- app_assoc | rewrite <- app_comm_cons | progress cbn [app]].

(** Every run has one of the four shapes. *)
Lemma run_has_shape (self : config) (e : env) (info : doc_info)
    (batch_id : option string) (s : state) :
  exists evs,
    trace (snd (_process_single_document self e info batch_id s)) = trace s ++ evs /\
    run_shape info (fst (_process_single_document self e info batch_id s)) evs /\
    (acquires e (di_doc_id info) s = true <-> set_processing_lock true ∈ evs).
Proof.
  destruct (_process_single_document self e info batch_id s) as [out s'] eqn:E.
  cbn [fst snd].
  unfold _process_single_document, bind at 1, set_lock_acquired at 1 in E.
  unfold try_finally, try_except in E.
  match type of E with context [try_block ?a ?b ?c ?d ?s0] =>
    pose proof (try_block_spec a b c d s0) as Hb;
    cbv zeta in Hb; rewrite acquires_lock_acquired in Hb;
    destruct (try_block a b c d s0) as [o s1] end.
  cbn [fst snd trace] in Hb. destruct Hb as (Hl & evs & Ht & Hshape).
  destruct (acquires e (di_doc_id info) s) eqn:Hacq.
  - destruct Hshape as [pre text Hpre | pre err Hpre | u1 u2 w pages seconds].
    + destruct (finally_block_eq e info s1) as (s2 & Hf & Hft).
      rewrite Hf in E. injection E as <- <-. rewrite Hft, Hl, Ht.
      exists (set_processing_lock true :: pre ++ failure_tail text).
      split; [now norm_app |].
      split; [now apply shape_failed | split; [intros _; left | auto]].
    + destruct (exn_is_Exception err) eqn:Hexn.
      * destruct (except_block_eq e info batch_id err s1) as (s2 & Hx & Hxl & Hxt).
        rewrite Hx in E.
        destruct (finally_block_eq e info s2) as (s3 & Hf & Hft).
        rewrite Hf in E. injection E as <- <-. rewrite Hft, Hxl, Hl, Hxt, Ht.
        exists (set_processing_lock true ::
                pre ++ failure_tail (Some (exn_text err))).
        split; [now norm_app |].
        split; [now apply shape_failed | split; [intros _; left | auto]].
      * destruct (finally_block_eq e info s1) as (s2 & Hf & Hft).
        rewrite Hf in E. injection E as <- <-. rewrite Hft, Hl, Ht.
        exists (set_processing_lock true :: pre ++ [clear_processing_lock]).
        split; [now norm_app |].
        split; [now apply shape_aborted | split; [intros _; left | auto]].
    + destruct (finally_block_eq e info s1) as (s2 & Hf & Hft).
      rewrite Hf in E. injection E as <- <-. rewrite Hft, Hl, Ht.
      exists (set_processing_lock true ::
              success_events info u1 u2 w seconds ++ [clear_processing_lock]).
      split; [now norm_app |].
      split; [apply shape_success | split; [intros _; left | auto]].
  - destruct Hshape as [-> ->].
    destruct (finally_block_eq e info s1) as (s2 & Hf & Hft).
    rewrite Hf in E. injection E as <- <-. rewrite Hft, Hl, Ht.
    exists [set_processing_lock false].
    split; [now norm_app |].
    split; [constructor |].
    split; [discriminate |].
    intros Hin. apply elem_of_cons in Hin as [Hin | Hin]; [discriminate |].
    apply elem_of_nil in Hin. destruct Hin.
Qed.


(** *** Lock release *)

Definition releases (evs : list event) : nat :=
  length (List.filter (λ ev, bool_decide (ev = clear_processing_lock)) evs).

Definition lock_attempts (evs : list event) : nat :=
  length (List.filter
            (λ ev, match ev with set_processing_lock _ => true | _ => false end) evs).

Lemma releases_app (l1 l2 : list event) :
  releases (l1 ++ l2) = (releases l1 + releases l2)%nat.
Proof. unfold releases. now rewrite List.filter_app, length_app. Qed.

Lemma lock_attempts_app (l1 l2 : list event) :
  lock_attempts (l1 ++ l2) = (lock_attempts l1 + lock_attempts l2)%nat.
Proof. unfold lock_attempts. now rewrite List.filter_app, length_app. Qed.

Lemma progress_prefix_quiet (pre : list event) :
  progress_prefix pre -> releases pre = 0%nat /\ lock_attempts pre = 0%nat.
Proof. intros [-> | [[u ->] | (u & w & ->)]]; split; reflexivity. Qed.

Lemma notify_events_quiet (info : doc_info) :
  releases (notify_events info) = 0%nat /\ lock_attempts (notify_events info) = 0%nat.
Proof.
  unfold notify_events. destruct (di_extraction_id info) as [x |];
    [destruct (truthy_int (Some x)) |]; split; reflexivity.
Qed.

Lemma run_shape_releases (info : doc_info) (out : outcome Tracker.doc_result)
    (evs : list event) :
  run_shape info out evs ->
  lock_attempts evs = 1%nat /\
  ((set_processing_lock true ∈ evs /\ releases evs = 1%nat /\
    last evs = Some clear_processing_lock) \/
   ((set_processing_lock true ∉ evs) /\ releases evs = 0%nat)).
Proof.
  intros [ | pre text Hpre | pre err Hpre Hexn | u1 u2 w pages seconds].
  - split; [reflexivity |]. right. split; [| reflexivity].
    intros Hin. apply elem_of_cons in Hin as [Hin | Hin]; [discriminate |].
    now apply elem_of_nil in Hin.
  - destruct (progress_prefix_quiet pre Hpre) as [R L].
    change (set_processing_lock true :: pre ++ failure_tail text)
      with ([set_processing_lock true] ++ pre ++ failure_tail text).
    rewrite !lock_attempts_app, !releases_app, R, L.
    split; [reflexivity |]. left. split; [left |]. split; [reflexivity |].
    unfold failure_tail.
    change (?a ++ pre ++ [?x; ?y; ?z]) with (a ++ pre ++ [x; y] ++ [z]).
    rewrite !app_assoc. apply last_snoc.
  - destruct (progress_prefix_quiet pre Hpre) as [R L].
    change (set_processing_lock true :: pre ++ [clear_processing_lock])
      with ([set_processing_lock true] ++ pre ++ [clear_processing_lock]).
    rewrite !lock_attempts_app, !releases_app, R, L.
    split; [reflexivity |]. left. split; [left |]. split; [reflexivity |].
    rewrite !app_assoc. apply last_snoc.
  - destruct (notify_events_quiet info) as [R L].
    change (set_processing_lock true :: ?l ++ [clear_processing_lock])
      with ([set_processing_lock true] ++ l ++ [clear_processing_lock]).
    unfold success_events.
    rewrite !lock_attempts_app, !releases_app, R, L.
    split; [reflexivity |]. left. split; [left |]. split; [reflexivity |].
    rewrite !app_assoc. apply last_snoc.
Qed.

(** The calls to the two lock helpers.  Every run makes one call to
    [_set_processing_lock].  If it answered true, the run makes exactly one
    call to [_clear_processing_lock], as its last call, whether it returns a
    success, returns a failure or leaves by an exception; if it answered
    false, the run makes no such call. *)
Lemma release_is_called_once (self : config) (e : env) (info : doc_info)
    (batch_id : option string) (s : state) :
  exists acquired evs,
    fst (_set_processing_lock e (di_doc_id info) s) = Ret acquired /\
    trace (snd (_process_single_document self e info batch_id s)) = trace s ++ evs /\
    lock_attempts evs = 1%nat /\
    set_processing_lock acquired ∈ evs /\
    if acquired
    then releases evs = 1%nat /\ last evs = Some clear_processing_lock
    else releases evs = 0%nat.
Proof.
  destruct (run_has_shape self e info batch_id s) as (evs & Ht & Hshape & Hacq).
  destruct (set_processing_lock_eq e (di_doc_id info) s) as (q1 & n1 & Hlock & _).
  exists (acquires e (di_doc_id info) s), evs.
  rewrite Hlock. split; [reflexivity |]. split; [exact Ht |].
  destruct (run_shape_releases _ _ _ Hshape) as [Hone Hcases].
  split; [exact Hone |].
  destruct Hcases as [(Hin & Hr & Hlast) | (Hnin & Hr)].
  - rewrite (proj2 Hacq Hin). auto.
  - destruct (acquires e (di_doc_id info) s).
    + exfalso. apply Hnin, Hacq. reflexivity.
    + split; [| exact Hr].
      inversion Hshape; subst; first [now left | exfalso; apply Hnin; left].
Qed.


(** *** Lock contention *)

Lemma busy_refuses (e : env) (id : string) (s : state) :
  busy id (queue s) = true -> acquires e id s = false.
Proof.
  intros H. unfold acquires. rewrite H. cbn. now rewrite andb_false_r.
Qed.

(** C5.  When [_set_processing_lock] answers false, the run returns a
    failure whose error is the contention message; the queue table, the
    trackers and the password caches are left as they were; and the only call
    made is the lock attempt: no status, error, URI or duration write and no
    lock release. *)
Theorem contended_run_touches_nothing (self : config) (e : env) (info : doc_info)
    (batch_id : option string) (s : state) :
  fst (_set_processing_lock e (di_doc_id info) s) = Ret false ->
  let out := _process_single_document self e info batch_id s in
  fst out = Ret (failure (di_doc_id info)
                   (Some (Literal "Document is currently being processed"))) /\
  queue (snd out) = queue s /\
  trackers (snd out) = trackers s /\
  engine (snd out) = engine s /\
  trace (snd out) = trace s ++ [set_processing_lock false].
Proof.
  intros Hrefused. cbv zeta.
  destruct (set_processing_lock_eq e (di_doc_id info) s) as (q0 & n0 & Hlock & _).
  rewrite Hlock in Hrefused. cbn in Hrefused. injection Hrefused as Hacq.
  destruct (_process_single_document self e info batch_id s) as [out s'] eqn:E.
  cbn [fst snd].
  unfold _process_single_document, bind at 1, set_lock_acquired at 1 in E.
  unfold try_finally, try_except, try_block in E. cbv zeta in E.
  unfold bind at 1 in E.
  match type of E with context [_set_processing_lock e ?i ?s0] =>
    destruct (set_processing_lock_eq e i s0) as (q1 & n1 & Hl & Hq);
    rewrite acquires_lock_acquired in Hl, Hq; rewrite Hacq in Hl;
    specialize (Hq Hacq); rewrite Hl in E end.
  unfold bind at 1, set_lock_acquired at 1 in E.
  cbn [after queue trackers engine statements trace lock_acquired negb] in E.
  unfold ret, finally_block, bind, get_lock_acquired in E.
  cbn [lock_acquired] in E. injection E as <- <-.
  cbn. rewrite Hq. cbn. auto.
Qed.


(** *** A concrete setting: one queue row, one scanned page *)

Definition example_row (locked : bool) : row :=
  {| extraction_id := 1; doc_id := "D1"; text_extraction_status := 0;
     is_processing := locked; processing_started_at := None;
     datalake_raw_uri := None; datalake_text_uri := None;
     text_extraction_duration_seconds := None; last_error_message := None;
     error_message := None; last_processed_at := None; extracted_at := None;
     updated_at := None |}.

Definition example_config : config :=
  {| storage_backend := "local"; s3_bucket := ""; s3_prefix := "";
     extracted_text_folder := λ id, ("/out/" +:+ id +:+ "/extracted_text")%string;
     service2_enabled := true;
     httpx_installed := true;
     pdf_processor := PdfProcessorFacts.service1_processor PdfProcessorFacts.no_table |}.

Definition scanned_document : PdfProcessor.document :=
  {| PdfProcessor.needs_pass := false; PdfProcessor.authenticate := λ _, false;
     PdfProcessor.doc_pages := [PdfProcessorFacts.blank_page] |}.

Definition example_env (answer : post_outcome) : env :=
  {| db_available := λ _, true; db_now := λ n, Z.of_nat n;
     time_start := 10%Q; time_end := (25 # 2)%Q; tracker_now := 7;
     get_pdf_file := Ret (Some PdfProcessorFacts.source_pdf);
     fitz_open := Done scanned_document; storage_write := Ret tt;
     post := answer |}.

Definition example_state (locked : bool) : state :=
  {| queue := [example_row locked];
     trackers := Tracker.start_extraction ∅ "batch_0_1" [1] 0;
     engine := {| PdfProcessor.fm := Some PdfProcessorFacts.fresh_service;
                  PdfProcessor.fs := ∅;
                  PdfProcessor.csv_write := λ _, FileManagement.Written;
                  PdfProcessor.engine_log := [] |};
     statements := 0; trace := []; lock_acquired := false |}.

Definition example_info (id : option Z) : doc_info :=
  {| di_extraction_id := id; di_doc_id := "D1"; di_password := None |}.

Lemma contended_run_touches_nothing_witness :
  let out := _process_single_document example_config (example_env (Response 200))
               (example_info (Some 1)) (Some "batch_0_1"%string)
               (example_state true) in
  fst out = Ret (failure "D1"
                   (Some (Literal "Document is currently being processed"))) /\
  queue (snd out) = [example_row true] /\
  trace (snd out) = [set_processing_lock false].
Proof.
  destruct (contended_run_touches_nothing example_config
              (example_env (Response 200)) (example_info (Some 1))
              (Some "batch_0_1"%string) (example_state true) eq_refl)
    as (H1 & H2 & _ & _ & H3).
  cbv zeta. auto.
Defined.

(** *** Order of the calls *)

Lemma progress_prefix_no_text_uri (pre : list event) (u : string) :
  progress_prefix pre -> update_datalake_text_uri u ∉ pre.
Proof.
  intros [-> | [[v ->] | (v & w & ->)]] Hin;
    repeat (apply elem_of_cons in Hin as [Hin | Hin]; [discriminate |]);
    now apply elem_of_nil in Hin.
Qed.

(** *** The downstream notification *)

(** The same surroundings with another answer to the POST. *)
Definition with_post (e : env) (answer : post_outcome) : env :=
  {| db_available := db_available e; db_now := db_now e;
     time_start := time_start e; time_end := time_end e;
     tracker_now := tracker_now e; get_pdf_file := get_pdf_file e;
     fitz_open := fitz_open e; storage_write := storage_write e;
     post := answer |}.

Lemma bind_ext {A B} (m1 m2 : M A) (k1 k2 : A -> M B) (s : state) :
  m1 s = m2 s -> (forall a s', k1 a s' = k2 a s') -> bind m1 k1 s = bind m2 k2 s.
Proof.
  intros Hm Hk. unfold bind. rewrite Hm.
  destruct (m2 s) as [[a | err] s']; [apply Hk | reflexivity].
Qed.

Lemma try_except_ext {A} (m1 m2 : M A) (h1 h2 : exn -> M A) (s : state) :
  m1 s = m2 s -> (forall err s', h1 err s' = h2 err s') ->
  try_except m1 h1 s = try_except m2 h2 s.
Proof.
  intros Hm Hh. unfold try_except. rewrite Hm.
  destruct (m2 s) as [[a | err] s']; [reflexivity |].
  destruct (exn_is_Exception err); [apply Hh | reflexivity].
Qed.

Lemma try_finally_ext {A} (m1 m2 : M A) (f1 f2 : M unit) (s : state) :
  m1 s = m2 s -> (forall s', f1 s' = f2 s') ->
  try_finally m1 f1 s = try_finally m2 f2 s.
Proof.
  intros Hm Hf. unfold try_finally. rewrite Hm.
  destruct (m2 s) as [r s']. now rewrite Hf.
Qed.

Lemma save_and_complete_post (self : config) (e : env) (answer : post_outcome)
    (info : doc_info) (batch_id : option string)
    (r : PdfProcessor.extraction_result) (s : state) :
  save_and_complete self (with_post e answer) info batch_id r s =
  save_and_complete self e info batch_id r s.
Proof.
  unfold save_and_complete. cbv zeta.
  repeat (apply bind_ext; [reflexivity | intros]).
  apply bind_ext; [| reflexivity].
  rewrite !notify_eq. reflexivity.
Qed.

Lemma extract_and_save_post (self : config) (e : env) (answer : post_outcome)
    (info : doc_info) (batch_id : option string) (pdf_path : path) (s : state) :
  extract_and_save self (with_post e answer) info batch_id pdf_path s =
  extract_and_save self e info batch_id pdf_path s.
Proof.
  unfold extract_and_save. cbv zeta.
  repeat (apply bind_ext; [reflexivity | intros]).
  match goal with |- context [negb (PdfProcessor.success ?r)] =>
    destruct (negb (PdfProcessor.success r)) end; [reflexivity |].
  apply save_and_complete_post.
Qed.

Lemma run_post (self : config) (e : env) (answer : post_outcome)
    (info : doc_info) (batch_id : option string) (s : state) :
  _process_single_document self (with_post e answer) info batch_id s =
  _process_single_document self e info batch_id s.
Proof.
  unfold _process_single_document.
  apply bind_ext; [reflexivity | intros].
  apply try_finally_ext; [| reflexivity].
  apply try_except_ext; [| reflexivity].
  unfold try_block. cbv zeta.
  repeat (apply bind_ext; [reflexivity | intros]).
  match goal with |- (if negb ?b then _ else _) _ = _ => destruct (negb b) end;
    [reflexivity |].
  repeat (apply bind_ext; [reflexivity | intros]).
  match goal with |- match ?x with Some _ => _ | None => _ end _ = _ =>
    destruct x as [pdf_path |] end; [| reflexivity].
  apply extract_and_save_post.
Qed.

(** C7.  [_call_service2] always returns a boolean (it never raises), logs
    the call and leaves the queue, the trackers and the caches alone; it
    returns true exactly when the integration is off or the status code is
    200, 201 or 202.  The outcome of the POST changes neither the result of
    the run nor the state it leaves: with any other answer the run returns
    the same result and leaves the same queue table. *)
Theorem notify_never_changes_the_run (self : config) (e : env)
    (answer : post_outcome) (info : doc_info) (batch_id : option string)
    (s : state) :
  (forall id doc s0,
     exists b,
       _call_service2 self e id doc s0 =
         (Ret b, after s0 (queue s0) (statements s0) [call_service2 id]) /\
       (b = true <->
        service2_enabled self = false \/ httpx_installed self = false \/
        exists status_code,
          post e = Response status_code /\ status_code ∈ [200; 201; 202])) /\
  _process_single_document self (with_post e answer) info batch_id s =
  _process_single_document self e info batch_id s.
Proof.
  split; [| apply run_post].
  intros id doc s0. exists (notified self e).
  split; [apply call_service2_eq |].
  unfold notified.
  destruct (service2_enabled self); cbn; [| intuition].
  destruct (httpx_installed self); cbn; [| intuition].
  destruct (post e) as [c | | t | t]; cbn.
  - rewrite bool_decide_eq_true. split.
    + intros Hc. right. right. eauto.
    + intros [H | [H | (c' & Hc & Hin)]]; try discriminate.
      now injection Hc as ->.
  - split; [discriminate |].
    intros [H | [H | (c' & Hc & _)]]; discriminate.
  - split; [discriminate |].
    intros [H | [H | (c' & Hc & _)]]; discriminate.
  - split; [discriminate |].
    intros [H | [H | (c' & Hc & _)]]; discriminate.
Qed.

(** A 500 from the downstream service: the document is a success, its row
    has status 100 and the lock is released. *)
Example downstream_failure_isolation :
  let out := _process_single_document example_config (example_env (Response 500))
               (example_info (Some 1)) None (example_state false) in
  (exists r, fst out = Ret r /\ Tracker.r_success r = true) /\
  map text_extraction_status (queue (snd out)) = [100] /\
  map is_processing (queue (snd out)) = [false].
Proof. vm_compute. eauto. Qed.

End ServiceFacts.

(** ** More on the quality gate *)

Module QualityGateMore.
Import PyFloat PyStr QualityGate PyFloatFacts QualityGateFacts.
Local Open Scope Z_scope.

Lemma distinct_le_len (s : text) : distinct s <= len s.
Proof.
  unfold distinct, len. apply inj_le.
  induction s as [| c s IH]; [reflexivity |].
  cbn [list_to_set length].
  destruct (decide (c ∈ (list_to_set s : gset Z))) as [Hin | Hni].
  - rewrite (subseteq_union_1_L (C := gset Z)) by (apply singleton_subseteq_l, Hin).
    lia.
  - rewrite size_union by (apply disjoint_singleton_l, Hni).
    rewrite size_singleton. lia.
Qed.

Lemma lstrip_spaces (s : text) : forallb isspace s = true -> lstrip s = [].
Proof.
  induction s as [| c s IH]; [reflexivity |]. cbn [forallb lstrip].
  intros H. apply andb_true_iff in H as [Hc Hs]. rewrite Hc. now apply IH.
Qed.

Lemma strip_spaces (s : text) : forallb isspace s = true -> strip s = [].
Proof. intros H. unfold strip. now rewrite (lstrip_spaces s H). Qed.

Lemma gate_rejects_few_distinct (db : unicode_db) (s : text) :
  distinct s < 5 -> _is_garbage_text db s = true.
Proof.
  intros H. unfold _is_garbage_text. destruct (strip s); [reflexivity |].
  cbv zeta. apply Z.ltb_lt in H. rewrite H.
  repeat match goal with
  | |- (if ?b then true else _) = true => destruct b; [reflexivity |]
  end.
  reflexivity.
Qed.

(** X16.  The gate rejects every text with fewer than five distinct
    characters, whatever the characters are: in particular every text
    shorter than five characters, the empty text, and every text made of
    white space only. *)
Theorem short_or_blank_text_is_rejected (db : unicode_db) (s : text) :
  distinct s < 5 \/ len s < 5 \/ forallb isspace s = true ->
  _is_garbage_text db s = true.
Proof.
  intros [H | [H | H]].
  - now apply gate_rejects_few_distinct.
  - apply gate_rejects_few_distinct. pose proof (distinct_le_len s). lia.
  - unfold _is_garbage_text. now rewrite (strip_spaces s H).
Qed.

Lemma short_or_blank_text_is_rejected_witness :
  _is_garbage_text latin1_only [32; 10; 9; 32] = true.
Proof.
  apply short_or_blank_text_is_rejected. right. left. vm_compute. reflexivity.
Defined.

(** *** Plain text *)

(** ASCII letters and digits, the space, and the punctuation the gate
    exempts. *)
Definition plain (c : Z) : bool :=
  in_range 48 57 c || in_range 65 90 c || in_range 97 122 c || (c =? 32) ||
  mem c common_punctuation.

Definition plain_checks (db : unicode_db) (c : Z) : bool :=
  implb (plain c)
    (negb (is_control_char c) && negb (control_pattern c) &&
     negb (is_special_char db c) && negb (is_non_printable c) &&
     is_printable_char db c && implb (isspace c) (c =? 32)).

Lemma plain_range (c : Z) : plain c = true -> 32 <= c < 32 + 94.
Proof.
  unfold plain, in_range, mem, common_punctuation. cbn [existsb].
  rewrite !orb_true_iff, !andb_true_iff, !Z.leb_le, !Z.eqb_eq. lia.
Qed.

Lemma plain_checked (db : unicode_db) (c : Z) : plain_checks db c = true.
Proof.
  destruct (plain c) eqn:Hp; [| unfold plain_checks; now rewrite Hp].
  assert (H : forallb (plain_checks db) (seqZ 32 94) = true)
    by (vm_compute; reflexivity).
  rewrite forallb_forall in H. apply H. apply list_elem_of_In, elem_of_seqZ.
  now apply plain_range.
Qed.

Lemma plain_facts (db : unicode_db) (c : Z) :
  plain c = true ->
  is_control_char c = false /\ control_pattern c = false /\
  is_special_char db c = false /\ is_non_printable c = false /\
  is_printable_char db c = true /\ (isspace c = true -> c = 32).
Proof.
  intros Hp. pose proof (plain_checked db c) as H. unfold plain_checks in H.
  rewrite Hp in H. cbn [implb] in H.
  rewrite !andb_true_iff, !negb_true_iff in H.
  destruct H as (((((H1 & H2) & H3) & H4) & H5) & H6).
  repeat split; try assumption.
  intros Hs. rewrite Hs in H6. now apply Z.eqb_eq in H6.
Qed.

Lemma count_none {A} (p : A -> bool) (l : list A) :
  Forall (λ x, p x = false) l -> count p l = 0.
Proof.
  unfold count. induction 1 as [| x l Hx _ IH]; [reflexivity |].
  cbn [List.filter]. now rewrite Hx.
Qed.

Lemma count_all {A} (p : A -> bool) (l : list A) :
  Forall (λ x, p x = true) l -> count p l = len l.
Proof.
  unfold count. induction 1 as [| x l Hx _ IH]; [reflexivity |].
  cbn [List.filter]. rewrite Hx, !len_step. now rewrite IH.
Qed.

Lemma findall_none (cls : Z -> bool) (s : text) :
  Forall (λ c, cls c = false) s -> findall_class_plus cls s = [].
Proof.
  unfold findall_class_plus. induction 1 as [| c s Hc _ IH]; [reflexivity |].
  cbn [findall_from]. now rewrite Hc.
Qed.

Lemma lstrip_nil (s : text) : lstrip s = [] -> Forall (λ c, isspace c = true) s.
Proof.
  induction s as [| c s IH]; [constructor |]. cbn [lstrip].
  destruct (isspace c) eqn:E; [| discriminate]. auto.
Qed.

Lemma lstrip_suffix (s : text) : exists pre, s = pre ++ lstrip s /\
  Forall (λ c, isspace c = true) pre.
Proof.
  induction s as [| c s (pre & Hs & Hpre)]; [exists []; auto |].
  cbn [lstrip]. destruct (isspace c) eqn:E.
  - exists (c :: pre). split; [cbn; congruence | constructor; assumption].
  - exists []. auto.
Qed.

Lemma strip_nil (s : text) : strip s = [] -> Forall (λ c, isspace c = true) s.
Proof.
  unfold strip, rstrip. intros H.
  destruct (lstrip_suffix s) as (pre & Hs & Hpre). rewrite Hs.
  apply Forall_app. split; [exact Hpre |].
  assert (Hr : lstrip (rev (lstrip s)) = []).
  { apply (f_equal (@rev Z)) in H. now rewrite rev_involutive in H. }
  apply lstrip_nil in Hr. apply Forall_rev in Hr.
  now rewrite rev_involutive in Hr.
Qed.

Lemma distinct_of_spaces (s : text) :
  Forall (λ c, c = 32) s -> distinct s <= 1.
Proof.
  intros H. unfold distinct.
  assert (Hsub : (list_to_set s : gset Z) ⊆ {[ 32 ]}).
  { intros c Hc. apply elem_of_list_to_set in Hc.
    rewrite Forall_forall in H. apply elem_of_singleton. now apply H. }
  apply subseteq_size in Hsub. rewrite size_singleton in Hsub. lia.
Qed.

(** X17.  Plain prose always passes the gate: a text made of ASCII letters,
    digits, spaces and the exempted punctuation only, with at least five
    distinct characters, in which at most 70% of the words have a single
    character, is never rejected. *)
Theorem plain_prose_passes (db : unicode_db) (s : text) :
  len s < 2 ^ 48 ->
  forallb plain s = true ->
  5 <= distinct s ->
  10 * count is_short_word (split s) <= 7 * len (split s) ->
  _is_garbage_text db s = false.
Proof.
  intros Hlen Hplain Hd Hw.
  assert (Hall : Forall (λ c, plain c = true) s)
    by (apply Forall_forall; intros c Hc; rewrite forallb_forall in Hplain;
        apply Hplain; now apply list_elem_of_In).
  assert (Hf : forall (P : Z -> Prop),
             (forall c, plain c = true -> P c) -> Forall P s).
  { intros P HP. eapply Forall_impl; [exact Hall | exact HP]. }
  assert (Hne : strip s <> []).
  { intros E. apply strip_nil in E.
    assert (H32 : Forall (λ c, c = 32) s).
    { rewrite Forall_forall in *. intros c Hc.
      apply (plain_facts db c (Hall c Hc)), E, Hc. }
    pose proof (distinct_of_spaces s H32). lia. }
  assert (Hn : 0 < len s) by now apply strip_nonempty.
  assert (Hc : forall p, count_of (count p s) (len s)).
  { intros p. pose proof (count_bounds p s). unfold count_of. lia. }
  unfold _is_garbage_text. destruct (strip s) eqn:Es; [contradiction |].
  cbv zeta.
  assert (C1 : count is_control_char s = 0)
    by (apply count_none, Hf; intros c Hp; apply (plain_facts db c Hp)).
  assert (C2 : findall_class_plus control_pattern s = [])
    by (apply findall_none, Hf; intros c Hp; apply (plain_facts db c Hp)).
  assert (C3 : count (is_special_char db) s = 0)
    by (apply count_none, Hf; intros c Hp; apply (plain_facts db c Hp)).
  assert (C4 : count is_non_printable s = 0)
    by (apply count_none, Hf; intros c Hp; apply (plain_facts db c Hp)).
  assert (C5 : count (is_printable_char db) s = len s)
    by (apply count_all, Hf; intros c Hp; apply (plain_facts db c Hp)).
  assert (T1 : int_gt_float (count is_control_char s)
                 (fmul (of_int (len s)) (literal 3 10)) = false).
  { apply not_true_is_false. rewrite (count_gt_three_tenths _ _ (Hc _)). lia. }
  assert (T3 : float_gt (int_truediv (count (is_special_char db) s) (len s))
                 (literal 5 10) = false).
  { apply not_true_is_false. rewrite (ratio_gt_half _ _ (Hc _)). lia. }
  assert (T6 : (0 <? len (split s)) &&
               float_gt (int_truediv (count is_short_word (split s)) (len (split s)))
                 (literal 7 10) = false).
  { destruct (Z.ltb_spec 0 (len (split s))) as [Hpos | Hz]; [| reflexivity].
    cbn [andb]. apply not_true_is_false.
    rewrite ratio_gt_seven_tenths; [lia |].
    pose proof (count_bounds is_short_word (split s)).
    pose proof (split_length s). unfold count_of. lia. }
  assert (T7 : int_gt_float (count is_non_printable s)
                 (fmul (of_int (len s)) (literal 2 10)) = false).
  { apply not_true_is_false. rewrite (count_gt_fifth _ _ (Hc _)). lia. }
  assert (T8 : float_lt (int_truediv (count (is_printable_char db) s) (len s))
                 (literal 3 10) = false).
  { apply not_true_is_false. rewrite (ratio_lt_three_tenths _ _ (Hc _)). lia. }
  rewrite T1, C2, T3, T6, T7, T8.
  destruct (Z.ltb_spec (distinct s) 5) as [Hlt | _]; [lia |]. reflexivity.
Qed.

(** The words [Total due: 1,250 (net)]. *)
Definition invoice_line : text :=
  [84; 111; 116; 97; 108; 32; 100; 117; 101; 58; 32; 49; 44; 50; 53; 48; 32;
   40; 110; 101; 116; 41].

Lemma plain_prose_passes_witness : _is_garbage_text latin1_only invoice_line = false.
Proof.
  apply plain_prose_passes; vm_compute; first [reflexivity | discriminate].
Defined.

End QualityGateMore.

(** ** More on the progress tracker *)

Module TrackerMore.
Import Py PyFloat Tracker Router PyFloatFacts.
Local Open Scope Z_scope.

(** The percentage one call of [increment_processed] stores for a batch. *)
Definition percentage_after (trackers : gmap string entry) (batch_id : string)
    (n now : Z) : option Z :=
  (increment_processed trackers batch_id n now).1 !! batch_id ≫= progress_percentage.

Lemma percentage_after_pages (trackers : gmap string entry) (batch_id : string)
    (tracker : entry) (n now : Z) :
  trackers !! batch_id = Some tracker ->
  0 < total_pages tracker ->
  percentage_after trackers batch_id n now =
  Some (percent (processed_pages tracker + Z.max 0 n) (total_pages tracker)).
Proof.
  intros Hl Ht. unfold percentage_after, increment_processed. rewrite Hl.
  cbn [fst]. rewrite lookup_insert_eq. cbn.
  apply Z.ltb_lt in Ht. rewrite Ht.
  destruct (Z.ltb_spec 0 n); do 2 f_equal; lia.
Qed.

Lemma ratio_nonneg (p t : Z) : 0 <= p -> 0 < t -> (0 <= inject_Z p / inject_Z t)%Q.
Proof.
  intros Hp Ht.
  assert (P : (0 <= inject_Z p)%Q) by (rewrite <- (Zle_Qle 0); lia).
  assert (T : (0 < inject_Z t)%Q) by (rewrite <- (Zlt_Qlt 0); lia).
  apply Qle_shift_div_l; lra.
Qed.

Lemma scaled_nonneg (p t : Z) :
  0 <= p -> 0 < t -> (0 <= fmul (int_truediv p t) (of_int 100))%Q.
Proof.
  intros Hp Ht. unfold fmul, int_truediv, of_int. apply rnd_nonneg.
  pose proof (rnd_nonneg _ (ratio_nonneg p t Hp Ht)).
  assert (H100 : (0 <= rnd (inject_Z 100))%Q) by (apply rnd_nonneg; discriminate).
  nra.
Qed.

Lemma percent_mono (p p' t : Z) :
  0 <= p <= p' -> 0 < t -> percent p t <= percent p' t.
Proof.
  intros [Hp Hpp] Ht. unfold percent.
  rewrite !to_int_nonneg by (apply scaled_nonneg; lia).
  apply Qfloor_resp_le. unfold fmul, int_truediv, of_int.
  pose proof (ratio_nonneg p t Hp Ht) as X0.
  assert (T : (0 < inject_Z t)%Q) by (rewrite <- (Zlt_Qlt 0); lia).
  assert (Hx : (inject_Z p / inject_Z t <= inject_Z p' / inject_Z t)%Q).
  { apply Qmult_le_compat_r; [rewrite <- Zle_Qle; lia |].
    apply Qlt_le_weak, Qinv_lt_0_compat, T. }
  pose proof (rnd_mono _ _ X0 Hx) as Hr.
  pose proof (rnd_nonneg _ X0) as R0.
  assert (H100 : (0 <= rnd (inject_Z 100))%Q) by (apply rnd_nonneg; discriminate).
  apply rnd_mono; nra.
Qed.

Lemma percent_of_exact (p t : Z) (k : Z) :
  0 < t -> 0 <= k < 2 ^ 46 -> p = k * t -> percent p t = 100 * k.
Proof.
  intros Ht Hk ->. unfold percent, fmul, int_truediv.
  assert (T : (0 < inject_Z t)%Q) by (rewrite <- (Zlt_Qlt 0); lia).
  assert (K : (0 <= inject_Z k)%Q) by (rewrite <- (Zle_Qle 0); lia).
  assert (E1 : (inject_Z (k * t) / inject_Z t == inject_Z k)%Q).
  { rewrite inject_Z_mult. field. lra. }
  assert (X0 : (0 <= inject_Z (k * t) / inject_Z t)%Q) by (rewrite E1; exact K).
  assert (R1 : (rnd (inject_Z (k * t) / inject_Z t) == inject_Z k)%Q).
  { rewrite (rnd_comp_nonneg _ _ X0 E1). apply rnd_exact_int. lia. }
  assert (E100 : (of_int 100 == 100)%Q) by (apply (of_int_exact 100); lia).
  assert (E2 : (rnd (inject_Z (k * t) / inject_Z t) * of_int 100 ==
                inject_Z (100 * k))%Q).
  { rewrite R1, E100, inject_Z_mult. change (inject_Z 100) with 100%Q. ring. }
  assert (Y0 : (0 <= rnd (inject_Z (k * t) / inject_Z t) * of_int 100)%Q).
  { rewrite E2. rewrite <- (Zle_Qle 0). lia. }
  assert (R2 : (rnd (rnd (inject_Z (k * t) / inject_Z t) * of_int 100) ==
                inject_Z (100 * k))%Q).
  { rewrite (rnd_comp_nonneg _ _ Y0 E2). apply rnd_exact_int. lia. }
  rewrite to_int_nonneg by (rewrite R2; rewrite <- (Zle_Qle 0); lia).
  rewrite R2. apply Qfloor_Z.
Qed.

(** X1.  With a positive page total and page counts below 2^1000 (where
    the floats involved are finite), the percentage [increment_processed]
    stores never goes down when more pages are reported. *)
Theorem page_percentage_is_monotone (trackers : gmap string entry)
    (batch_id : string) (tracker : entry) (n n' now now' : Z) :
  trackers !! batch_id = Some tracker ->
  0 < total_pages tracker ->
  0 <= processed_pages tracker ->
  n <= n' ->
  processed_pages tracker + Z.max 0 n' < 2 ^ 1000 ->
  exists p p',
    percentage_after trackers batch_id n now = Some p /\
    percentage_after trackers batch_id n' now' = Some p' /\
    p <= p'.
Proof.
  intros Hl Ht Hp Hn _.
  rewrite !(percentage_after_pages _ _ _ _ _ Hl Ht).
  eexists _, _. split; [reflexivity |]. split; [reflexivity |].
  apply percent_mono; lia.
Qed.

Lemma page_percentage_is_monotone_witness :
  exists p p',
    percentage_after {[ "batch_1_2" := TrackerFacts.snapshot 100 0 ]} "batch_1_2" 29 0
      = Some p /\
    percentage_after {[ "batch_1_2" := TrackerFacts.snapshot 100 0 ]} "batch_1_2" 58 1
      = Some p' /\
    p <= p'.
Proof.
  apply (page_percentage_is_monotone _ _ (TrackerFacts.snapshot 100 0)).
  - apply lookup_singleton_eq.
  - simpl. lia.
  - simpl. lia.
  - lia.
  - vm_compute. reflexivity.
Defined.

(** X2.  When the pages processed so far are a whole multiple [k] of the page
    total, the stored percentage is exactly [100 * k]: 0 when nothing has been
    processed, 100 when the last page has been processed. *)
Theorem whole_multiples_are_exact (trackers : gmap string entry)
    (batch_id : string) (tracker : entry) (n now k : Z) :
  trackers !! batch_id = Some tracker ->
  0 < total_pages tracker ->
  0 <= k < 2 ^ 46 ->
  processed_pages tracker + Z.max 0 n = k * total_pages tracker ->
  percentage_after trackers batch_id n now = Some (100 * k).
Proof.
  intros Hl Ht Hk He. rewrite (percentage_after_pages _ _ _ _ _ Hl Ht).
  f_equal. now apply percent_of_exact.
Qed.

Lemma whole_multiples_are_exact_witness :
  percentage_after {[ "batch_1_2" := TrackerFacts.snapshot 100 71 ]} "batch_1_2" 29 0
  = Some (100 * 1).
Proof.
  apply (whole_multiples_are_exact _ _ (TrackerFacts.snapshot 100 71)).
  - apply lookup_singleton_eq.
  - simpl; lia.
  - lia.
  - simpl; lia.
Defined.

(** One keyword of [update_progress] cannot create a key. *)
Lemma set_key_keeps_absent (tracker : entry) (kw : kwarg) :
  progress_percentage tracker = None ->
  progress_percentage (set_key tracker kw) = None.
Proof. destruct tracker, kw; cbn; intros ->; reflexivity. Qed.

Lemma set_keys_keep_absent (kwargs : list kwarg) (tracker : entry) :
  progress_percentage tracker = None ->
  progress_percentage (foldl set_key tracker kwargs) = None.
Proof.
  revert tracker. induction kwargs as [| kw kwargs IH]; intros tracker H; [exact H |].
  cbn. apply IH. now apply set_key_keeps_absent.
Qed.

(** A sequence of [update_progress] calls on one batch, each with its
    keywords and its clock reading. *)
Definition updates (batch_id : string) (calls : list (list kwarg * Z))
    (trackers : gmap string entry) : gmap string entry :=
  foldl (λ t call, update_progress t batch_id call.1 call.2) trackers calls.

Lemma updates_keep_absent (batch_id : string) (calls : list (list kwarg * Z)) :
  forall (trackers : gmap string entry) (tracker : entry),
  trackers !! batch_id = Some tracker ->
  progress_percentage tracker = None ->
  Forall (λ call, existsb is_processed_documents call.1 = false) calls ->
  exists tracker',
    updates batch_id calls trackers !! batch_id = Some tracker' /\
    progress_percentage tracker' = None.
Proof.
  induction calls as [| [kwargs now] calls IH]; intros trackers tracker Hl Hn Hc.
  - exists tracker. auto.
  - apply Forall_cons in Hc as [Hk Hc]. cbn in Hk. cbn [updates foldl].
    eapply IH; [| | exact Hc].
    + unfold update_progress. rewrite Hl. cbn [fst snd]. apply lookup_insert_eq.
    + cbn [progress_percentage fst]. rewrite Hk. cbn.
      now apply set_keys_keep_absent.
Qed.

(** X3.  [start_extraction] creates no [progress_percentage] key and
    [update_progress] only writes keys that exist: from the start of a batch,
    whatever [progress_percentage] values are passed to [update_progress],
    the snapshot keeps reporting 0 percent until a call passes
    [processed_documents] (or the batch is incremented or completed). *)
Theorem percentage_keyword_is_dropped_at_first (trackers : gmap string entry)
    (batch_id : string) (queue_ids : list Z) (now : Z)
    (calls : list (list kwarg * Z)) :
  Forall (λ call, existsb is_processed_documents call.1 = false) calls ->
  exists p,
    get_progress
      (updates batch_id calls (start_extraction trackers batch_id queue_ids now))
      batch_id = Some p /\
    p_progress_percentage p = 0.
Proof.
  intros Hc.
  destruct (updates_keep_absent batch_id calls
              (start_extraction trackers batch_id queue_ids now)
              {| total_documents := Z.of_nat (length queue_ids);
                 processed_documents := 0; total_pages := 0; processed_pages := 0;
                 current_document := None; current_stage := None;
                 current_operation := None; status := "starting";
                 start_time := now; last_update := now; results := [];
                 errors := []; progress_percentage := None; completed_at := None;
                 error := None |})
    as (tracker' & Hl & Hn); [apply lookup_insert_eq | reflexivity | exact Hc |].
  unfold get_progress. rewrite Hl. eexists. split; [reflexivity |].
  cbn. now rewrite Hn.
Qed.

Lemma percentage_keyword_is_dropped_at_first_witness :
  exists p,
    get_progress
      (updates "batch_1_2"
         [([kw_status "processing"; kw_progress_percentage 0], 1);
          ([kw_current_stage "initializing"; kw_progress_percentage 10], 2)]
         (start_extraction ∅ "batch_1_2" [7; 8] 0))
      "batch_1_2" = Some p /\
    p_progress_percentage p = 0.
Proof.
  apply percentage_keyword_is_dropped_at_first.
  repeat constructor.
Defined.

(** X4.  Every tracker operation on one batch leaves the entries of all
    other batches as they are. *)
Theorem operations_touch_one_batch (trackers : gmap string entry)
    (batch_id other : string) (n now : Z) (kwargs : list kwarg)
    (batch_results : list doc_result) (text : message)
    (document : option string) (queue_ids : list Z) :
  other <> batch_id ->
  start_extraction trackers batch_id queue_ids now !! other = trackers !! other /\
  (increment_processed trackers batch_id n now).1 !! other = trackers !! other /\
  update_progress trackers batch_id kwargs now !! other = trackers !! other /\
  complete_extraction trackers batch_id batch_results now !! other =
    trackers !! other /\
  cleanup_later trackers batch_id !! other = trackers !! other /\
  fail_extraction trackers batch_id text now !! other = trackers !! other /\
  update_total_pages trackers batch_id n !! other = trackers !! other /\
  update_page_progress trackers batch_id n document now !! other =
    trackers !! other.
Proof.
  intros Hne.
  unfold start_extraction, increment_processed, update_progress,
    complete_extraction, cleanup_later, fail_extraction, update_total_pages,
    update_page_progress.
  destruct (trackers !! batch_id) as [tracker |]; cbn [fst];
    rewrite ?lookup_insert_ne, ?lookup_delete_ne by congruence;
    repeat split; reflexivity.
Qed.

(** Two batches started in the same second. *)
Definition two_batches : gmap string entry :=
  start_extraction (start_extraction ∅ "batch_1_3" [4; 5; 6] 0) "batch_1_2" [7; 8] 0.

Lemma operations_touch_one_batch_witness :
  start_extraction two_batches "batch_1_2" [7; 8] 0 !! "batch_1_3" =
    two_batches !! "batch_1_3" /\
  (increment_processed two_batches "batch_1_2" 1 0).1 !! "batch_1_3" =
    two_batches !! "batch_1_3" /\
  update_progress two_batches "batch_1_2" [] 0 !! "batch_1_3" =
    two_batches !! "batch_1_3" /\
  complete_extraction two_batches "batch_1_2" [] 0 !! "batch_1_3" =
    two_batches !! "batch_1_3" /\
  cleanup_later two_batches "batch_1_2" !! "batch_1_3" = two_batches !! "batch_1_3" /\
  fail_extraction two_batches "batch_1_2" (Literal "x") 0 !! "batch_1_3" =
    two_batches !! "batch_1_3" /\
  update_total_pages two_batches "batch_1_2" 1 !! "batch_1_3" =
    two_batches !! "batch_1_3" /\
  update_page_progress two_batches "batch_1_2" 1 None 0 !! "batch_1_3" =
    two_batches !! "batch_1_3".
Proof. apply operations_touch_one_batch. discriminate. Defined.

Definition with_status (p : progress) (v : string) : progress :=
  {| p_batch_id := p_batch_id p; p_status := v;
     p_total_documents := p_total_documents p;
     p_processed_documents := p_processed_documents p;
     p_total_pages := p_total_pages p;
     p_processed_pages := p_processed_pages p;
     p_current_document := p_current_document p;
     p_current_stage := p_current_stage p;
     p_current_operation := p_current_operation p;
     p_progress_percentage := p_progress_percentage p;
     p_started_at := p_started_at p; p_completed_at := p_completed_at p;
     p_results := p_results p; p_errors := p_errors p |}.

(** X5.  The text given to [fail_extraction] never reaches a client: the
    snapshot of a failed batch is the snapshot it had before with the status
    "failed", its percentage included, and the progress route passes that
    snapshot through. *)
Theorem failure_text_is_not_reported (trackers : gmap string entry)
    (batch_id : string) (text : message) (now : Z) (p : progress) :
  get_progress trackers batch_id = Some p ->
  get_progress (fail_extraction trackers batch_id text now) batch_id =
    Some (with_status p "failed") /\
  get_document_text_extraction_progress
    (fail_extraction trackers batch_id text now) batch_id =
    Body (with_status p "failed").
Proof.
  unfold get_document_text_extraction_progress, get_progress, fail_extraction.
  destruct (trackers !! batch_id) as [tracker |] eqn:Hl; [| discriminate].
  intros [= <-]. rewrite lookup_insert_eq. split; reflexivity.
Qed.

Lemma failure_text_is_not_reported_witness :
  exists p,
    get_progress two_batches "batch_1_2" = Some p /\
    get_progress
      (fail_extraction two_batches "batch_1_2"
         (Literal "All documents failed to process") 9) "batch_1_2" =
      Some (with_status p "failed") /\
    get_document_text_extraction_progress
      (fail_extraction two_batches "batch_1_2"
         (Literal "All documents failed to process") 9) "batch_1_2" =
      Body (with_status p "failed").
Proof.
  eexists. split; [reflexivity |].
  apply failure_text_is_not_reported. reflexivity.
Defined.

End TrackerMore.

(** ** More on the password store *)

Module FileManagementMore.
Import Py FileManagement FileManagementFacts.

(** [load_saved_passwords] reads the file of the directory: the base name
    plays no part. *)
Lemma load_by_directory (fs : gmap string csv_rows) (p q : path) :
  parent q = parent p -> load_saved_passwords fs q = load_saved_passwords fs p.
Proof. intros H. unfold load_saved_passwords. now rewrite H. Qed.

Lemma no_cr_iff (s : string) : universal_newlines s = s <-> no_cr s = true.
Proof.
  split; [| apply no_cr_fixed].
  intros H. rewrite <- H. apply universal_newlines_no_cr.
Qed.

(** X6.  Writing a password and reading the store back, for a file whose
    name has no carriage return: every PDF of the same directory sees the
    stored passwords with the new one added (or replaced) under the file's
    base name, with every CR LF pair and every other CR of the password turned
    into LF, so that the password comes back as it was saved exactly when it
    has no carriage return; and the stores of other directories are as
    before, whether or not the write goes through. *)
Theorem csv_round_trip (fs : gmap string csv_rows) (p q : path)
    (password : string) :
  no_cr (name p) = true ->
  (parent q = parent p ->
   load_saved_passwords (snd (save_password_to_csv fs p password Written)) q =
   <[name p := universal_newlines password]> (load_saved_passwords fs p)) /\
  (universal_newlines password = password <-> no_cr password = true) /\
  (parent q <> parent p ->
   forall answer,
     load_saved_passwords (snd (save_password_to_csv fs p password answer)) q =
     load_saved_passwords fs q).
Proof.
  intros Hname. split; [| split].
  - intros H. rewrite (load_by_directory _ p q H). now apply load_after_save.
  - apply no_cr_iff.
  - intros H answer. unfold save_password_to_csv, load_saved_passwords.
    destruct answer as [| text [rows |]]; cbn [snd];
      rewrite ?lookup_insert_ne by congruence; reflexivity.
Qed.

(** A password of two lines, separated by a carriage return. *)
Definition two_lines : string := ("a" +:+ String CR "b")%string.

Lemma csv_round_trip_witness :
  let p := {| parent := "/data/doc1"; name := "source.pdf" |} in
  let q := {| parent := "/data/doc1"; name := "other.pdf" |} in
  load_saved_passwords (snd (save_password_to_csv ∅ p two_lines Written)) q =
    {[ "source.pdf"%string := ("a" +:+ String LF "b")%string ]} /\
  no_cr two_lines = false.
Proof.
  cbv zeta. split; [| reflexivity].
  rewrite (proj1 (csv_round_trip ∅ {| parent := "/data/doc1"; name := "source.pdf" |}
                    {| parent := "/data/doc1"; name := "other.pdf" |} two_lines
                    eq_refl) eq_refl).
  reflexivity.
Defined.

(** *** The file that is written *)

Lemma item_le_total : Total item_le.
Proof.
  intros a b. unfold item_le.
  destruct (String.eqb a.1 b.1) eqn:E.
  - rewrite String.eqb_sym, E.
    destruct (String.leb_total a.2 b.2) as [H | H]; rewrite H; auto.
  - rewrite String.eqb_sym, E.
    destruct (String.leb_total a.1 b.1) as [H | H]; rewrite H; auto.
Qed.

(** Strictly increasing file names. *)
Definition name_lt (a b : string * string) : Prop :=
  String.ltb a.1 b.1 = true.

Lemma item_le_name_lt (a b : string * string) :
  item_le a b -> a.1 <> b.1 -> name_lt a b.
Proof.
  unfold item_le, name_lt. intros H Hne.
  destruct (String.eqb_spec a.1 b.1) as [E | _]; [contradiction |].
  unfold String.leb in H. unfold String.ltb.
  destruct (String.compare a.1 b.1) eqn:C; auto.
  apply String.compare_eq_iff in C. contradiction.
Qed.

Lemma sorted_names (l : list (string * string)) :
  NoDup l.*1 -> Sorted item_le l -> Sorted name_lt l.
Proof.
  induction l as [| a l IH]; intros Hnd Hs; [constructor |].
  apply Sorted_inv in Hs as [Hs Hhd]. cbn in Hnd.
  apply NoDup_cons in Hnd as [Hni Hnd].
  constructor; [now apply IH |].
  destruct Hhd as [| b l Hab]; constructor.
  apply item_le_name_lt; [exact Hab |].
  intros E. apply Hni. cbn. rewrite E. left.
Qed.

(** X7.  The file [save_password_to_csv] writes, when the write goes
    through, is the header followed by
    one row [file name, password] per stored file, in strictly increasing
    order of the file names (so no file name occurs twice), and it holds the
    row of the file just saved. *)
Theorem written_csv_is_sorted (fs : gmap string csv_rows) (p : path)
    (password : string) :
  exists items,
    snd (save_password_to_csv fs p password Written) !! parent p =
      Some (header :: map (λ kv, [kv.1; kv.2]) items) /\
    Sorted name_lt items /\
    (name p, password) ∈ items.
Proof.
  rewrite written_file. cbn [snd].
  set (m := <[name p := password]> (load_saved_passwords fs p)).
  exists (merge_sort item_le (map_to_list m)).
  split; [apply lookup_insert_eq |]. split.
  - apply sorted_names.
    + rewrite (merge_sort_Permutation item_le (map_to_list m)).
      apply NoDup_fst_map_to_list.
    + apply (@Sorted_merge_sort _ item_le _ item_le_total).
  - rewrite (merge_sort_Permutation item_le (map_to_list m)).
    apply elem_of_map_to_list. apply lookup_insert_eq.
Qed.

(** X8.  A password without carriage return that has been saved, with a
    write that went through, for a file whose name has none, is the
    resolver's first candidate for that file, or its second when the caller
    provides another non-empty password: it is always among the three the
    engine tries, and it is listed once. *)
Theorem saved_password_is_tried_next (self : service) (fs : gmap string csv_rows)
    (p : path) (password : string) (provided_password : option string) :
  no_cr (name p) = true ->
  no_cr password = true ->
  let '(_, (self', fs')) := save_successful_password self fs p password Written in
  exists rest,
    get_all_passwords_for_file self' fs' p provided_password =
      (if truthy provided_password && negb (bool_decide (provided_password = Some password))
       then [provided_password; Some password] else [Some password]) ++ rest /\
    Some password ∉ rest.
Proof.
  intros Hname Hpw.
  pose proof (saved_password_is_loaded self fs p password Hname Hpw) as H.
  destruct (save_successful_password self fs p password Written)
    as [raised [self' fs']].
  destruct H as [Hc Hl].
  unfold get_all_passwords_for_file. rewrite Hl, Hc.
  unfold append_if, not_in.
  destruct (truthy provided_password) eqn:Tp;
    [apply truthy_Some in Tp as [pv ->] |];
  (destruct (truthy (default_password self')) eqn:Td;
    [apply truthy_Some in Td as [d ->] |]);
  cbn; repeat (case_bool_decide; cbn); simplify_eq;
  first [ eexists; split; [reflexivity |]; set_unfold; naive_solver
        | exfalso; set_unfold; naive_solver ].
Qed.

Lemma saved_password_is_tried_next_witness :
  let p := {| parent := "/data/doc1"; name := "source.pdf" |} in
  let '(_, (self', fs')) :=
    save_successful_password
      {| default_password := Some "operations@PRI"%string; password_cache := ∅ |}
      ∅ p "secret" Written in
  exists rest,
    get_all_passwords_for_file self' fs' p (Some "hint"%string) =
      [Some "hint"%string; Some "secret"%string] ++ rest /\
    Some "secret"%string ∉ rest.
Proof.
  exact (saved_password_is_tried_next
           {| default_password := Some "operations@PRI"%string;
              password_cache := ∅ |}
           ∅ {| parent := "/data/doc1"; name := "source.pdf" |} "secret"
           (Some "hint"%string) eq_refl eq_refl).
Defined.

End FileManagementMore.

(** ** More on the extraction engine *)

Module PdfProcessorMore.
Import Py PyStr QualityGate FileManagement FileManagementFacts PdfProcessor
  PdfProcessorFacts.
Local Open Scope Z_scope.

(** *** The authentication loop as a search *)

(** Whether the loop accepts candidate [c] for document [doc]. *)
Definition accepts (doc : document) (c : option string) : bool :=
  negb (needs_pass doc) ||
  match c with
  | Some p => truthy c && authenticate doc p
  | None => false
  end.

(** The first accepted candidate and its position. *)
Fixpoint first_accepted (doc : document) (cands : list (option string)) :
    option (nat * option string) :=
  match cands with
  | [] => None
  | c :: rest =>
      if accepts doc c then Some (0%nat, c)
      else
        match first_accepted doc rest with
        | Some (i, c') => Some (S i, c')
        | None => None
        end
  end.

Definition with_attempts (result : extraction_result) (k : Z) : extraction_result :=
  {| success := success result; total_pages := total_pages result;
     pages := pages result; error_message := error_message result;
     password_required := password_required result;
     password_used := password_used result; attempts_made := k;
     suggested_passwords := suggested_passwords result |}.

Definition with_password (result : extraction_result) (c : option string) :
    extraction_result :=
  {| success := success result; total_pages := total_pages result;
     pages := pages result; error_message := error_message result;
     password_required := password_required result;
     password_used := c; attempts_made := attempts_made result;
     suggested_passwords := suggested_passwords result |}.

(** The page count the loop reads: [len(doc)] cut to [max_pages]. *)
Definition pages_read (self : processor) (doc : document) : Z :=
  match max_pages self with
  | None => len (doc_pages doc)
  | Some m => Z.min (len (doc_pages doc)) m
  end.

(** One turn of the loop on a document that opens. *)
Lemma try_passwords_step (self : processor) (pdf_path : path) (doc : document)
    (c : option string) (rest : list (option string)) (n : Z)
    (result : extraction_result) (st : engine_state) :
  exists st1,
    fm st1 = fm st /\ csv_write st1 = csv_write st /\
    try_passwords self pdf_path (Done doc) n (c :: rest) result st =
    if accepts doc c
    then
      match remember_password pdf_path c st1 with
      | (Done _, st2) =>
          (process_document self doc
             (with_password (with_attempts result (n + 1)) c),
           log_event EvClose st2)
      | (Failed _, st2) =>
          try_passwords self pdf_path (Done doc) (n + 1) rest
            (with_password (with_attempts result (n + 1)) c) st2
      end
    else try_passwords self pdf_path (Done doc) (n + 1) rest
           (with_attempts result (n + 1)) st1.
Proof.
  cbn [try_passwords]. cbv zeta. fold (with_attempts result (n + 1)).
  fold (with_password (with_attempts result (n + 1)) c). unfold accepts.
  destruct (needs_pass doc); cbn [negb orb];
    [| eexists; split; [| split; [| reflexivity]]; reflexivity].
  destruct c as [p |];
    [| eexists; split; [| split; [| reflexivity]]; reflexivity].
  destruct (truthy (Some p)); cbn [andb];
    [| eexists; split; [| split; [| reflexivity]]; reflexivity].
  destruct (authenticate doc p);
    eexists; split; [| split; [| reflexivity] | | split; [| reflexivity]];
    reflexivity.
Qed.

(** A state in which no save can fail: no file-management service was
    passed, or every write of a password file goes through. *)
Definition saves_succeed (st : engine_state) : Prop :=
  fm st = None \/ writes_go_through st.

Lemma remember_password_succeeds (pdf_path : path) (c : option string)
    (st : engine_state) :
  saves_succeed st ->
  exists st2, remember_password pdf_path c st = (Done tt, st2).
Proof.
  intros Hs. unfold remember_password.
  destruct c as [p |]; [| eauto].
  destruct (fm st) as [svc |] eqn:Efm; [| eauto].
  destruct (truthy (Some p)); [| eauto].
  destruct Hs as [Hs | Hs]; [congruence |].
  rewrite Hs. unfold save_successful_password. rewrite written_file. eauto.
Qed.

Lemma try_passwords_search (self : processor) (pdf_path : path) (doc : document)
    (cands : list (option string)) :
  forall (n : Z) (result : extraction_result) (st : engine_state),
  saves_succeed st ->
  attempts_made result = n ->
  let r := fst (try_passwords self pdf_path (Done doc) n cands result st) in
  suggested_passwords r = suggested_passwords result /\
  match first_accepted doc cands with
  | Some (i, c) =>
      success r = true /\ password_used r = c /\
      attempts_made r = n + Z.of_nat i + 1 /\
      error_message r = error_message result /\
      password_required r = password_required result /\
      total_pages r = pages_read self doc /\
      pages r = process_pages self 0 (take (Z.to_nat (total_pages r)) (doc_pages doc))
  | None =>
      success r = success result /\ password_used r = password_used result /\
      attempts_made r = n + len cands /\
      password_required r = true /\
      error_message r =
        Some (PasswordAttemptsFailed (n + len cands) (suggested_passwords result)) /\
      total_pages r = total_pages result /\ pages r = pages result
  end.
Proof.
  induction cands as [| c rest IH]; intros n result st Hsave Hn; cbv zeta.
  - cbn. unfold len. cbn. rewrite Z.add_0_r, Hn. repeat split.
  - destruct (try_passwords_step self pdf_path doc c rest n result st)
      as (st1 & Hfm & Hw & ->).
    assert (Hsave1 : saves_succeed st1).
    { unfold saves_succeed, writes_go_through in *. now rewrite Hfm, Hw. }
    cbn [first_accepted]. destruct (accepts doc c).
    + destruct (remember_password_succeeds pdf_path c st1 Hsave1) as [st2 ->].
      cbn. repeat split. lia.
    + specialize (IH (n + 1) (with_attempts result (n + 1)) st1 Hsave1 eq_refl).
      cbv zeta in IH. destruct IH as [Hs IH]. split; [exact Hs |].
      destruct (first_accepted doc rest) as [[i c'] |].
      * destruct IH as (H1 & H2 & H3 & H4 & H5 & H6 & H7).
        repeat split; try assumption. rewrite H3. lia.
      * destruct IH as (H1 & H2 & H3 & H4 & H5 & H6 & H7).
        rewrite len_cons. cbn in H5.
        replace (n + (len rest + 1)) with (n + 1 + len rest) by lia.
        repeat split; assumption.
Qed.

(** X9.  On a document that opens, and when no save can fail (no
    file-management service, or a password file that can be written), the
    loop of [extract_text_from_pdf_enhanced] is a search for the first
    candidate the document accepts: any candidate when it needs no password,
    otherwise a non-empty one that authenticates.  When there is one, the
    result is a success that names it in [password_used] and its 1-based
    position in [attempts_made]; when there is none, the result is a failure
    with [password_required] set, no pages, and the message that counts all
    the candidates. *)
Theorem loop_finds_first_accepted (self : processor) (pdf_path : path)
    (doc : document) (password : option string) (st : engine_state) :
  FITZ_AVAILABLE self = true ->
  saves_succeed st ->
  exists r st',
    extract_text_from_pdf_enhanced self pdf_path (Done doc) password st =
      (Ret r, st') /\
    let cands := passwords_to_try pdf_path password st in
    suggested_passwords r = omap id cands /\
    match first_accepted doc cands with
    | Some (i, c) =>
        success r = true /\ password_used r = c /\
        attempts_made r = Z.of_nat i + 1 /\
        error_message r = None /\ password_required r = false
    | None =>
        success r = false /\ password_used r = None /\
        attempts_made r = len cands /\ password_required r = true /\
        error_message r = Some (PasswordAttemptsFailed (len cands) (omap id cands)) /\
        total_pages r = 0 /\ pages r = []
    end.
Proof.
  intros Hf Hsave. rewrite (extract_unfold _ _ _ _ _ Hf). cbv zeta.
  eexists _, _. split; [reflexivity |].
  match goal with
  | |- context [try_passwords ?a ?b ?c ?d ?e ?f ?g] =>
      pose proof (try_passwords_search a b doc e d f g Hsave eq_refl) as H
  end.
  cbv zeta in H. destruct H as [Hs H]. split; [exact Hs |].
  destruct (first_accepted doc (passwords_to_try pdf_path password st)) as [[i c] |].
  - destruct H as (H1 & H2 & H3 & H4 & H5 & _). repeat split; assumption.
  - destruct H as (H1 & H2 & H3 & H4 & H5 & H6 & H7). repeat split; assumption.
Qed.

(** A document that opens with the default password only. *)
Definition protected_document : document :=
  {| needs_pass := true; authenticate := String.eqb "operations@PRI";
     doc_pages := [blank_page; blank_page] |}.

Lemma loop_finds_first_accepted_witness :
  exists r st',
    extract_text_from_pdf_enhanced (service1_processor no_table)
      source_pdf (Done protected_document) None
      {| fm := Some fresh_service; fs := ∅; csv_write := λ _, Written;
         engine_log := [] |} = (Ret r, st') /\
    let cands :=
      passwords_to_try source_pdf None
        {| fm := Some fresh_service; fs := ∅; csv_write := λ _, Written;
         engine_log := [] |} in
    suggested_passwords r = omap id cands /\
    match first_accepted protected_document cands with
    | Some (i, c) =>
        success r = true /\ password_used r = c /\
        attempts_made r = Z.of_nat i + 1 /\
        error_message r = None /\ password_required r = false
    | None =>
        success r = false /\ password_used r = None /\
        attempts_made r = len cands /\ password_required r = true /\
        error_message r = Some (PasswordAttemptsFailed (len cands) (omap id cands)) /\
        total_pages r = 0 /\ pages r = []
    end.
Proof.
  apply loop_finds_first_accepted; [reflexivity |].
  right. intros n. reflexivity.
Defined.

(** The loop on a file that does not open. *)
Lemma try_passwords_unreadable (self : processor) (pdf_path : path) (e : string)
    (cands : list (option string)) :
  forall (n : Z) (result : extraction_result) (st : engine_state),
  attempts_made result = n ->
  try_passwords self pdf_path (Failed e) n cands result st =
  ({| success := success result; total_pages := total_pages result;
      pages := pages result;
      error_message :=
        Some (PasswordAttemptsFailed (n + len cands) (suggested_passwords result));
      password_required := true; password_used := password_used result;
      attempts_made := n + len cands;
      suggested_passwords := suggested_passwords result |},
   {| fm := fm st; fs := fs st; csv_write := csv_write st;
      engine_log := engine_log st ++ repeat EvOpen (length cands) |}).
Proof.
  induction cands as [| c rest IH]; intros n result st Hn.
  - cbn. unfold len. cbn. rewrite Z.add_0_r, app_nil_r, Hn. destruct st; reflexivity.
  - cbn [try_passwords]. rewrite IH by reflexivity. cbn.
    rewrite len_cons, <- app_assoc. cbn.
    replace (n + 1 + len rest) with (n + (len rest + 1)) by lia. reflexivity.
Qed.

(** X10.  A file that [fitz.open] cannot open at all is reported as a
    password problem: the loop opens it once per candidate, never
    authenticates and never saves a password, and the result has
    [password_required] set and, as error message, the text
    "PDF requires password. Tried N attempts with passwords: [...]" with the
    number of candidates and the list of the non-null ones (the value
    [PasswordAttemptsFailed]); the text of the library's exception is not
    reported. *)
Theorem unreadable_file_is_reported_as_protected (self : processor)
    (pdf_path : path) (e : string) (password : option string)
    (st : engine_state) :
  FITZ_AVAILABLE self = true ->
  let cands := passwords_to_try pdf_path password st in
  extract_text_from_pdf_enhanced self pdf_path (Failed e) password st =
  (Ret {| success := false; total_pages := 0; pages := [];
          error_message := Some (PasswordAttemptsFailed (len cands) (omap id cands));
          password_required := true; password_used := None;
          attempts_made := len cands; suggested_passwords := omap id cands |},
   {| fm := fm st; fs := fs st; csv_write := csv_write st;
      engine_log := engine_log st ++ repeat EvOpen (length cands) |}).
Proof.
  intros Hf. cbv zeta. rewrite (extract_unfold _ _ _ _ _ Hf). cbv zeta.
  rewrite try_passwords_unreadable by reflexivity. reflexivity.
Qed.

Lemma unreadable_file_is_reported_as_protected_witness :
  let st := {| fm := Some fresh_service; fs := ∅; csv_write := λ _, Written;
         engine_log := [] |} in
  let cands := passwords_to_try source_pdf None st in
  extract_text_from_pdf_enhanced (service1_processor no_table) source_pdf
    (Failed "cannot open broken document") None st =
  (Ret {| success := false; total_pages := 0; pages := [];
          error_message := Some (PasswordAttemptsFailed (len cands) (omap id cands));
          password_required := true; password_used := None;
          attempts_made := len cands; suggested_passwords := omap id cands |},
   {| fm := fm st; fs := fs st; csv_write := csv_write st;
      engine_log := engine_log st ++ repeat EvOpen (length cands) |}).
Proof.
  cbv zeta.
  apply (unreadable_file_is_reported_as_protected (service1_processor no_table)).
  reflexivity.
Defined.

(** *** Pages *)

Lemma process_pages_numbers (self : processor) (pgs : list page) :
  forall k : Z, (process_pages self k pgs).*1 = seqZ (k + 1) (len pgs).
Proof.
  induction pgs as [| pg pgs IH]; intros k; [reflexivity |].
  cbn [process_pages fmap list_fmap fst]. rewrite len_cons.
  rewrite (seqZ_cons (k + 1) (len pgs + 1)) by (pose proof (len_nonneg pgs); lia).
  f_equal. rewrite IH. f_equal. lia.
Qed.

Lemma process_pages_lookup (self : processor) (pgs : list page) (i : nat) (pg : page) :
  forall k : Z,
  pgs !! i = Some pg ->
  process_pages self k pgs !! i =
    Some (k + Z.of_nat i + 1, fst (_extract_page_text self pg)).
Proof.
  revert i. induction pgs as [| pg0 pgs IH]; intros i k H; [discriminate |].
  destruct i as [| i]; cbn [process_pages].
  - cbn in H. injection H as ->. cbn. do 2 f_equal. lia.
  - cbn in H.
    change (process_pages self (k + 1) pgs !! i =
            Some (k + Z.of_nat (S i) + 1, (_extract_page_text self pg).1)).
    rewrite (IH i (k + 1) H). do 2 f_equal. lia.
Qed.

(** Whatever the saves do, the loop leaves with the pages of the document
    it accepted or with no page at all. *)
Lemma try_passwords_pages (self : processor) (pdf_path : path) (doc : document)
    (cands : list (option string)) :
  forall (n : Z) (result : extraction_result) (st : engine_state),
  success result = false -> total_pages result = 0 -> pages result = [] ->
  let r := fst (try_passwords self pdf_path (Done doc) n cands result st) in
  (success r = true /\ total_pages r = pages_read self doc /\
   pages r = process_pages self 0 (take (Z.to_nat (total_pages r)) (doc_pages doc))) \/
  (success r = false /\ total_pages r = 0 /\ pages r = []).
Proof.
  induction cands as [| c rest IH]; intros n result st Hs Ht Hp; cbv zeta.
  - right. cbn. auto.
  - destruct (try_passwords_step self pdf_path doc c rest n result st)
      as (st1 & _ & _ & ->).
    destruct (accepts doc c).
    + destruct (remember_password pdf_path c st1) as [[[] | e] st2].
      * left. cbn. repeat split.
      * apply IH; assumption.
    + apply IH; assumption.
Qed.

(** X11.  In every result of [extract_text_from_pdf_enhanced] the pages are
    numbered 1, 2, ..., [total_pages] in this order; in a success
    [total_pages] is the page count of the document cut to [max_pages], and
    page [i + 1] holds what [_extract_page_text] returns for the document's
    page of index [i]: a page on which both engines fail is kept as a page
    and does not fail the document. *)
Theorem pages_are_numbered (self : processor) (pdf_path : path)
    (fitz_open : attempt document) (password : option string)
    (st : engine_state) :
  FITZ_AVAILABLE self = true ->
  exists r st',
    extract_text_from_pdf_enhanced self pdf_path fitz_open password st =
      (Ret r, st') /\
    (pages r).*1 = seqZ 1 (total_pages r) /\
    (success r = true ->
     exists doc,
       fitz_open = Done doc /\
       total_pages r =
         match max_pages self with
         | None => len (doc_pages doc)
         | Some m => Z.min (len (doc_pages doc)) m
         end /\
       forall (i : nat) (pg : page),
         (Z.of_nat i < total_pages r) ->
         doc_pages doc !! i = Some pg ->
         pages r !! i = Some (Z.of_nat i + 1, fst (_extract_page_text self pg))).
Proof.
  intros Hf. destruct fitz_open as [doc | e].
  - rewrite (extract_unfold _ _ _ _ _ Hf). cbv zeta.
    eexists _, _. split; [reflexivity |].
    match goal with
    | |- context [try_passwords ?a ?b ?c ?d ?e ?f ?g] =>
        pose proof (try_passwords_pages a b doc e d f g eq_refl eq_refl eq_refl)
          as H;
        cbv zeta in H;
        set (r := fst (try_passwords a b c d e f g)) in *
    end.
    destruct H as [(H1 & H6 & H7) | (H1 & H6 & H7)].
    + unfold pages_read in H6.
      assert (Hlen : len (take (Z.to_nat (total_pages r)) (doc_pages doc)) =
                     Z.max 0 (total_pages r)).
      { unfold len. rewrite length_take. rewrite H6.
        destruct (max_pages self); unfold len; lia. }
      split.
      * rewrite H7, process_pages_numbers, Hlen. cbn.
        unfold seqZ.
        replace (Z.to_nat (Z.max 0 (total_pages r))) with (Z.to_nat (total_pages r))
          by lia.
        reflexivity.
      * intros _. exists doc. split; [reflexivity |]. split; [exact H6 |].
        intros j pg Hj Hpg. rewrite H7.
        rewrite (process_pages_lookup self _ j pg 0).
        -- reflexivity.
        -- rewrite lookup_take_lt by lia. exact Hpg.
    + rewrite H7, H6. split; [reflexivity |].
      rewrite H1. discriminate.
  - rewrite (extract_unfold _ _ _ _ _ Hf). cbv zeta.
    rewrite try_passwords_unreadable by reflexivity.
    eexists _, _. split; [reflexivity |]. cbn.
    split; [reflexivity | discriminate].
Qed.

Lemma pages_are_numbered_witness :
  exists r st',
    extract_text_from_pdf_enhanced (service1_processor no_table)
      source_pdf (Done protected_document) None
      {| fm := Some fresh_service; fs := ∅; csv_write := λ _, Written;
         engine_log := [] |} = (Ret r, st') /\
    (pages r).*1 = seqZ 1 (total_pages r) /\
    (success r = true ->
     exists doc,
       Done protected_document = Done doc /\
       total_pages r =
         match max_pages (service1_processor no_table) with
         | None => len (doc_pages doc)
         | Some m => Z.min (len (doc_pages doc)) m
         end /\
       forall (i : nat) (pg : page),
         (Z.of_nat i < total_pages r) ->
         doc_pages doc !! i = Some pg ->
         pages r !! i =
           Some (Z.of_nat i + 1,
                 fst (_extract_page_text (service1_processor no_table) pg))).
Proof. apply pages_are_numbered. reflexivity. Defined.

(** *** One page *)

Lemma lstrip_head (s : text) (c : Z) (t : text) :
  lstrip s = c :: t -> isspace c = false.
Proof.
  induction s as [| a s IH]; [discriminate |]. cbn [lstrip].
  destruct (isspace a) eqn:E; [exact IH |]. intros [= <- _]. exact E.
Qed.

Lemma lstrip_fixed (c : Z) (t : text) : isspace c = false -> lstrip (c :: t) = c :: t.
Proof. intros H. cbn [lstrip]. now rewrite H. Qed.

Lemma lstrip_idem (s : text) : lstrip (lstrip s) = lstrip s.
Proof.
  destruct (lstrip s) as [| c t] eqn:E; [reflexivity |].
  apply lstrip_fixed. exact (lstrip_head s c t E).
Qed.

Lemma lstrip_snoc (l : text) (c : Z) :
  isspace c = false -> lstrip (l ++ [c]) = lstrip l ++ [c].
Proof.
  intros H. induction l as [| a l IH]; cbn [app lstrip]; [now rewrite H |].
  destruct (isspace a); [exact IH | reflexivity].
Qed.

Lemma rstrip_cons (c : Z) (t : text) :
  isspace c = false -> rstrip (c :: t) = c :: rstrip t.
Proof.
  intros H. unfold rstrip. cbn [rev]. rewrite (lstrip_snoc _ _ H).
  rewrite rev_app_distr. reflexivity.
Qed.

Lemma rstrip_idem (s : text) : rstrip (rstrip s) = rstrip s.
Proof. unfold rstrip. rewrite rev_involutive, lstrip_idem. reflexivity. Qed.

Lemma strip_idem (s : text) : strip (strip s) = strip s.
Proof.
  unfold strip. destruct (lstrip s) as [| c t] eqn:E; [reflexivity |].
  pose proof (lstrip_head s c t E) as Hc.
  rewrite (rstrip_cons c t Hc), (lstrip_fixed _ _ Hc), (rstrip_cons _ _ Hc).
  now rewrite rstrip_idem.
Qed.

(** X12.  What [_extract_page_text] returns for any page: the method is
    fitz, tesseract or failed; the method is failed exactly when an error is
    recorded, and then the text is empty; a fitz page holds the stripped
    primary text, which is at least [min_text_length] long and passed the
    quality gate; and the text never has white space at either end. *)
Theorem page_result_invariants (self : processor) (pg : page) :
  let r := fst (_extract_page_text self pg) in
  (pr_method r = "fitz" \/ pr_method r = "tesseract" \/ pr_method r = "failed")%string /\
  (pr_method r = "failed"%string <-> pr_error r <> None) /\
  (pr_method r = "failed"%string -> pr_text r = []) /\
  (pr_method r = "fitz"%string ->
   exists raw,
     get_text pg = Done raw /\ pr_text r = strip raw /\
     min_text_length self <= len (strip raw) /\
     _is_garbage_text (db self) raw = false) /\
  strip (pr_text r) = pr_text r.
Proof.
  cbv zeta. unfold _extract_page_text, _extract_with_tesseract.
  destruct (get_text pg) as [raw | e1] eqn:Hg.
  - destruct ((min_text_length self <=? len (strip raw)) &&
              negb (_is_garbage_text (db self) raw)) eqn:Hok.
    + cbn. apply andb_true_iff in Hok as [H1 H2].
      apply Z.leb_le in H1. apply negb_true_iff in H2.
      repeat split; auto; try discriminate; try congruence.
      * intros _. exists raw. auto.
      * apply strip_idem.
    + destruct (PYTESSERACT_AVAILABLE self);
        [destruct (get_pixmap pg); [destruct (image_to_string pg "") |] |];
        cbn; repeat split; auto; try discriminate; try congruence;
        apply strip_idem.
  - destruct (PYTESSERACT_AVAILABLE self);
      [destruct (get_pixmap pg); [destruct (image_to_string pg "") |] |];
      cbn; repeat split; auto; try discriminate; try congruence;
      apply strip_idem.
Qed.

(** *** The one-password entry point *)

(** What [extract_text_from_pdf] returns when it returns. *)
Definition basic_result (self : processor) (fitz_open : attempt document)
    (password : option string) (st : engine_state) : extraction_result :=
  match fst (extract_text_from_pdf self fitz_open password st) with
  | Ret r => r
  | Raise _ => initial_result
  end.

Definition enhanced_result (self : processor) (pdf_path : path)
    (fitz_open : attempt document) (password : option string)
    (st : engine_state) : extraction_result :=
  match fst (extract_text_from_pdf_enhanced self pdf_path fitz_open password st) with
  | Ret r => r
  | Raise _ => initial_result
  end.

Lemma basic_result_spec (self : processor) (doc : document)
    (password : option string) (st : engine_state) :
  FITZ_AVAILABLE self = true ->
  let r := basic_result self (Done doc) password st in
  success r = accepts doc password /\
  (success r = true ->
   total_pages r =
     match max_pages self with
     | None => len (doc_pages doc)
     | Some m => Z.min (len (doc_pages doc)) m
     end /\
   pages r = process_pages self 0 (take (Z.to_nat (total_pages r)) (doc_pages doc))).
Proof.
  intros Hf. unfold basic_result, extract_text_from_pdf, accepts. rewrite Hf.
  cbn [negb]. cbv zeta.
  destruct (needs_pass doc); cbn [negb orb].
  - destruct password as [p |]; [| cbn; split; [reflexivity | discriminate]].
    destruct (truthy (Some p)); cbn [andb];
      [| cbn; split; [reflexivity | discriminate]].
    destruct (authenticate doc p); cbn; split; auto; discriminate.
  - cbn. auto.
Qed.

Lemma resolver_head_provided (self : service) (fs : gmap string csv_rows)
    (pdf_path : path) (provided_password : option string) :
  truthy provided_password = true ->
  exists rest,
    get_all_passwords_for_file self fs pdf_path provided_password =
    provided_password :: rest.
Proof.
  intros H. unfold get_all_passwords_for_file. rewrite H. unfold append_if at 1.
  cbn [app].
  match goal with |- context [?l ++ [None]] =>
    assert (Hl : exists rest, l = provided_password :: rest) end.
  { unfold append_if.
    repeat match goal with
    | |- context [match ?x with Some _ => _ | None => _ end] => destruct x
    | |- context [if ?b then _ else _] => destruct b
    end; cbn; eauto. }
  destruct Hl as [rest ->]. cbn. eauto.
Qed.

(** X13.  [extract_text_from_pdf] tries the one password it is given:
    it succeeds exactly when the document needs no password or the password
    is non-empty and authenticates.  Whenever it succeeds and no save can
    fail (no file-management service, or a password file that can be
    written), [extract_text_from_pdf_enhanced] called with the same password
    succeeds too, with the same pages; and without a file-management service
    the two succeed on exactly the same documents. *)
Theorem basic_and_enhanced_agree (self : processor) (pdf_path : path)
    (doc : document) (password : option string) (st : engine_state) :
  FITZ_AVAILABLE self = true ->
  let rb := basic_result self (Done doc) password st in
  let re := enhanced_result self pdf_path (Done doc) password st in
  success rb = accepts doc password /\
  (saves_succeed st -> success rb = true ->
   success re = true /\ total_pages re = total_pages rb /\ pages re = pages rb) /\
  (fm st = None -> success re = success rb).
Proof.
  intros Hf. cbv zeta.
  destruct (basic_result_spec self doc password st Hf) as [Hb Hbp].
  split; [exact Hb |].
  unfold enhanced_result. rewrite (extract_unfold _ _ _ _ _ Hf). cbv zeta. cbn [fst].
  match goal with
  | |- context [try_passwords ?a ?b ?c ?d ?e ?f ?g] =>
      pose proof (fun Hsave => proj2 (try_passwords_search a b doc e d f g Hsave eq_refl))
        as H;
      cbv zeta in H;
      set (re := fst (try_passwords a b c d e f g)) in *
  end.
  split.
  - intros Hsave Hs. specialize (H Hsave). destruct (Hbp Hs) as [Ht Hp]. rewrite Hs in Hb. symmetry in Hb.
    assert (Hfirst : exists c, first_accepted doc (passwords_to_try pdf_path password st)
                               = Some (0%nat, c)).
    { destruct (passwords_to_try_nonempty pdf_path password st) as (c & rest & Hc).
      unfold accepts in Hb. destruct (needs_pass doc) eqn:Hn; cbn [negb orb] in Hb.
      - destruct password as [p |]; [| discriminate].
        apply andb_true_iff in Hb as [Htp Ha].
        assert (c = Some p) as ->.
        { unfold passwords_to_try in Hc. destruct (fm st) as [svc |].
          - destruct (resolver_head_provided svc (fs st) pdf_path (Some p) Htp)
              as [rest' Hr].
            rewrite Hr in Hc. cbn in Hc. congruence.
          - cbn in Hc. congruence. }
        rewrite Hc. cbn [first_accepted]. unfold accepts. rewrite Hn. cbn [negb orb].
        rewrite Htp, Ha. cbn. eauto.
      - rewrite Hc. cbn [first_accepted]. unfold accepts. rewrite Hn. cbn. eauto. }
    destruct Hfirst as [c Hc]. rewrite Hc in H.
    destruct H as (H1 & _ & _ & _ & _ & H6 & H7).
    unfold pages_read in H6.
    split; [exact H1 |]. split; [congruence |]. rewrite H7, Hp. congruence.
  - intros Hfm. specialize (H (or_introl Hfm)). rewrite Hb.
    unfold passwords_to_try in H. rewrite Hfm in H. cbn [take first_accepted] in H.
    assert (Hnone : accepts doc None = negb (needs_pass doc)).
    { unfold accepts. now rewrite orb_false_r. }
    destruct (accepts doc password) eqn:Ha.
    + destruct H as (H1 & _). exact H1.
    + rewrite Hnone in H.
      assert (Hn : needs_pass doc = true).
      { unfold accepts in Ha. destruct (needs_pass doc); [reflexivity | discriminate]. }
      rewrite Hn in H. cbn in H. destruct H as (H1 & _). exact H1.
Qed.

Lemma basic_and_enhanced_agree_witness :
  let st := {| fm := Some fresh_service; fs := ∅; csv_write := λ _, Written;
         engine_log := [] |} in
  let rb := basic_result (service1_processor no_table) (Done protected_document)
              (Some "operations@PRI"%string) st in
  let re := enhanced_result (service1_processor no_table) source_pdf
              (Done protected_document) (Some "operations@PRI"%string) st in
  success rb = accepts protected_document (Some "operations@PRI"%string) /\
  (saves_succeed st -> success rb = true ->
   success re = true /\ total_pages re = total_pages rb /\ pages re = pages rb) /\
  (fm st = None -> success re = success rb).
Proof.
  cbv zeta. apply (basic_and_enhanced_agree (service1_processor no_table)).
  reflexivity.
Defined.

End PdfProcessorMore.

(** ** The OCR layout *)

Module LayoutFacts.
Import Py PyStr PdfProcessor.
Local Open Scope Z_scope.

Lemma alter_last_snoc {A} (f : A -> A) (l : list A) (x : A) :
  alter_last f (l ++ [x]) = l ++ [f x].
Proof.
  induction l as [| a l IH]; [reflexivity |].
  cbn [app alter_last]. rewrite IH.
  destruct (l ++ [x]) eqn:E; [destruct l; discriminate | reflexivity].
Qed.

(** The words the loop keeps. *)
Definition kept (w : ocr_word) : bool :=
  match strip (w_text w) with
  | [] => false
  | _ => negb (w_conf w <? 30)
  end.

Definition line_of_spans (b : block) : list span :=
  concat (map line_spans (block_lines b)).

Definition spans_of (blocks : list block) : list span :=
  concat (map line_of_spans blocks).

Lemma spans_of_snoc (blocks : list block) (b : block) :
  spans_of (blocks ++ [b]) = spans_of blocks ++ line_of_spans b.
Proof.
  unfold spans_of. rewrite map_app, concat_app. cbn. now rewrite app_nil_r.
Qed.

Lemma add_word_skips (blocks : list block) (w : ocr_word) :
  kept w = false -> add_word blocks w = blocks.
Proof.
  unfold kept, add_word. destruct (strip (w_text w)); [reflexivity |].
  intros H. apply negb_false_iff in H. now rewrite H.
Qed.

(** The three things a kept word can do to the layout. *)
Lemma add_word_cases (blocks : list block) (w : ocr_word) :
  kept w = true ->
  (add_word blocks w =
     blocks ++ [{| block_bbox := word_bbox w; block_lines := [fresh_line w];
                   block_y := w_top w |}] /\
   (blocks = [] \/
    exists bs cb, blocks = bs ++ [cb] /\ 20 < Z.abs (w_top w - block_y cb))) \/
  (exists bs cb,
     blocks = bs ++ [cb] /\ Z.abs (w_top w - block_y cb) <= 20 /\
     ((add_word blocks w =
         bs ++ [{| block_bbox := block_bbox cb;
                   block_lines := block_lines cb ++ [fresh_line w];
                   block_y := block_y cb |}] /\
       (block_lines cb = [] \/
        exists ls cl, block_lines cb = ls ++ [cl] /\
                      5 < Z.abs (w_top w - line_y cl))) \/
      (exists ls cl,
         block_lines cb = ls ++ [cl] /\ Z.abs (w_top w - line_y cl) <= 5 /\
         add_word blocks w =
           bs ++ [{| block_bbox := block_bbox cb;
                     block_lines :=
                       ls ++ [{| line_bbox := line_bbox cl;
                                 line_spans := line_spans cl ++ [word_span w];
                                 line_y := line_y cl |}];
                     block_y := block_y cb |}]))).
Proof.
  unfold kept, add_word. destruct (strip (w_text w)) eqn:Et; [discriminate |].
  intros H. apply negb_true_iff in H. rewrite H.
  destruct (last blocks) as [cb |] eqn:Hl.
  - apply last_Some in Hl as [bs ->].
    destruct (Z.ltb_spec 20 (Z.abs (w_top w - block_y cb))) as [Hb | Hb].
    + left. split; [reflexivity |]. right. eauto.
    + right. exists bs, cb. split; [reflexivity |]. split; [exact Hb |].
      rewrite alter_last_snoc.
      destruct (last (block_lines cb)) as [cl |] eqn:Hll.
      * apply last_Some in Hll as [ls Hls].
        destruct (Z.ltb_spec 5 (Z.abs (w_top w - line_y cl))) as [Hc | Hc].
        -- left. split; [reflexivity |]. right. eauto.
        -- right. exists ls, cl. split; [exact Hls |]. split; [exact Hc |].
           rewrite Hls, alter_last_snoc. reflexivity.
      * left. split; [reflexivity |]. left.
        destruct (block_lines cb) as [| a l] using rev_ind; [reflexivity |].
        rewrite last_snoc in Hll. discriminate.
  - left. split; [reflexivity |]. left.
    destruct blocks as [| a l] using rev_ind; [reflexivity |].
    rewrite last_snoc in Hl. discriminate.
Qed.

Lemma add_word_spans (blocks : list block) (w : ocr_word) :
  spans_of (add_word blocks w) =
  spans_of blocks ++ (if kept w then [word_span w] else []).
Proof.
  destruct (kept w) eqn:Hk.
  - destruct (add_word_cases blocks w Hk)
      as [[-> _] | (bs & cb & -> & _ & [[-> _] | (ls & cl & Hls & _ & ->)])].
    + rewrite spans_of_snoc. reflexivity.
    + rewrite !spans_of_snoc. unfold line_of_spans. cbn [block_lines].
      rewrite map_app, concat_app. cbn. now rewrite ?app_nil_r, app_assoc.
    + rewrite !spans_of_snoc. unfold line_of_spans. cbn [block_lines].
      rewrite Hls, !map_app, !concat_app. cbn. rewrite ?app_nil_r.
      now rewrite !app_assoc.
  - rewrite (add_word_skips _ _ Hk). now rewrite app_nil_r.
Qed.

Lemma layout_spans_from (data : list ocr_word) :
  forall blocks : list block,
  spans_of (foldl add_word blocks data) =
  spans_of blocks ++ map word_span (List.filter kept data).
Proof.
  induction data as [| w data IH]; intros blocks.
  - cbn. now rewrite app_nil_r.
  - cbn [foldl List.filter]. rewrite IH, add_word_spans.
    destruct (kept w); cbn; rewrite <- app_assoc; reflexivity.
Qed.

(** X14.  [_extract_tesseract_layout] loses no kept word and invents none:
    read block by block and line by line, the spans of the layout are the
    words whose stripped text is not empty and whose confidence is at least
    30, in the order of the OCR output, each with its stripped text, its own
    box, the font tesseract, its height as size and the flags 0. *)
Theorem layout_keeps_the_words (data : list ocr_word) :
  spans_of (_extract_tesseract_layout data) =
  map word_span (List.filter kept data).
Proof. apply (layout_spans_from data []). Qed.

(** *** Shape of the layout *)

Definition span_top (sp : span) : Z := default 0 (span_bbox sp !! 1%nat).

Definition line_ok (l : line) : Prop :=
  (exists sp rest,
     line_spans l = sp :: rest /\ line_bbox l = span_bbox sp /\
     line_y l = span_top sp) /\
  Forall (λ sp, Z.abs (span_top sp - line_y l) <= 5) (line_spans l).

Definition block_ok (b : block) : Prop :=
  (exists l rest,
     block_lines b = l :: rest /\ block_bbox b = line_bbox l /\
     block_y b = line_y l) /\
  Forall (λ l, line_ok l /\ Z.abs (line_y l - block_y b) <= 20) (block_lines b).

Lemma fresh_line_ok (w : ocr_word) : line_ok (fresh_line w).
Proof.
  split.
  - exists (word_span w), []. repeat split.
  - repeat constructor. cbn. unfold span_top. cbn. lia.
Qed.

Lemma snoc_head {A} (l : list A) (x a : A) (rest : list A) :
  l = a :: rest -> exists rest', l ++ [x] = a :: rest'.
Proof. intros ->. cbn. eauto. Qed.

Lemma add_word_ok (blocks : list block) (w : ocr_word) :
  Forall block_ok blocks -> Forall block_ok (add_word blocks w).
Proof.
  intros Hok. destruct (kept w) eqn:Hk; [| now rewrite (add_word_skips _ _ Hk)].
  destruct (add_word_cases blocks w Hk)
    as [[-> _] | (bs & cb & -> & Hb & [[-> _] | (ls & cl & Hls & Hc & ->)])].
  - apply Forall_app. split; [exact Hok |]. apply Forall_singleton. split.
    + exists (fresh_line w), []. repeat split.
    + apply Forall_singleton. split; [apply fresh_line_ok | cbn; lia].
  - apply Forall_app in Hok as [Hbs Hcb]. apply Forall_app. split; [exact Hbs |].
    apply (proj1 (Forall_singleton _ _)) in Hcb. destruct Hcb as [(l & rest & Hl & Hbb & Hy) Hall].
    apply Forall_singleton. split.
    + cbn [block_lines block_bbox block_y]. rewrite Hl. cbn. eauto.
    + cbn [block_lines block_y]. apply Forall_app. split; [exact Hall |].
      apply Forall_singleton. split; [apply fresh_line_ok | exact Hb].
  - apply Forall_app in Hok as [Hbs Hcb]. apply Forall_app. split; [exact Hbs |].
    apply (proj1 (Forall_singleton _ _)) in Hcb. destruct Hcb as [(l & rest & Hl & Hbb & Hy) Hall].
    rewrite Hls in Hall. apply Forall_app in Hall as [Hlsok Hcl].
    apply (proj1 (Forall_singleton _ _)) in Hcl. destruct Hcl as [[(sp & srest & Hsp & Hlb & Hly) Hsps] Hcy].
    apply Forall_singleton. split.
    + cbn [block_lines block_bbox block_y].
      destruct ls as [| l0 ls].
      * cbn in Hls. rewrite Hls in Hl. injection Hl as <- <-.
        cbn. eexists _, _. split; [reflexivity |]. cbn. auto.
      * rewrite Hls in Hl. cbn in Hl. injection Hl as <- <-.
        cbn. eexists _, _. split; [reflexivity |]. auto.
    + cbn [block_lines block_y]. apply Forall_app. split; [exact Hlsok |].
      apply Forall_singleton. split; [| exact Hcy]. split.
      * cbn [line_spans line_bbox line_y]. rewrite Hsp. cbn. eauto.
      * cbn [line_spans line_y]. apply Forall_app. split; [exact Hsps |].
        apply Forall_singleton. unfold span_top. cbn. exact Hc.
Qed.

(** X15.  Shape of the layout [_extract_tesseract_layout] builds: no block
    is without lines and no line without spans; the box and the vertical
    position of a line are those of its first word and are never widened by
    the words that follow, and likewise for a block and its first line; every
    word of a line lies within 5 units of the top of the line's first word,
    and every line of a block starts within 20 units of the top of the
    block's first word. *)
Theorem layout_shape (data : list ocr_word) :
  Forall block_ok (_extract_tesseract_layout data).
Proof.
  unfold _extract_tesseract_layout.
  assert (H : forall blocks, Forall block_ok blocks ->
                             Forall block_ok (foldl add_word blocks data)).
  { induction data as [| w data IH]; intros blocks Hok; [exact Hok |].
    cbn [foldl]. apply IH. now apply add_word_ok. }
  apply H. constructor.
Qed.

End LayoutFacts.

(** ** More on the service *)

Module ServiceMore.
Import Py PyFloat FileManagement Service ServiceFacts.
Local Open Scope Z_scope.

(** *** S3 locations *)

Definition no_slash (s : string) : Prop :=
  forall a b, s <> (a ++ String slash b)%string.

Lemma no_slash_cons (c : Ascii.ascii) (s : string) :
  no_slash (String c s) -> Ascii.eqb c slash = false /\ no_slash s.
Proof.
  intros H. split.
  - destruct (Ascii.eqb_spec c slash) as [-> | _]; [| reflexivity].
    exfalso. apply (H EmptyString s). reflexivity.
  - intros a b E. apply (H (String c a) b). cbn. now rewrite E.
Qed.

Lemma split_once_no_slash (s : string) :
  no_slash s -> split_once s = (s, None).
Proof.
  induction s as [| c s IH]; intros H; [reflexivity |].
  apply no_slash_cons in H as [Hc Hs]. cbn [split_once]. rewrite Hc.
  now rewrite (IH Hs).
Qed.

Lemma split_once_at_slash (b rest : string) :
  no_slash b -> split_once (b ++ String slash rest) = (b, Some rest).
Proof.
  induction b as [| c b IH]; intros H; [reflexivity |].
  apply no_slash_cons in H as [Hc Hb].
  change (String c b +:+ String slash rest) with (String c (b +:+ String slash rest)).
  cbn [split_once]. rewrite Hc. now rewrite (IH Hb).
Qed.

Lemma split_once_bucket (s : string) : no_slash (fst (split_once s)).
Proof.
  induction s as [| c s IH]; cbn [split_once].
  - intros [| ? ?] b E; discriminate.
  - destruct (Ascii.eqb_spec c slash) as [-> | Hc].
    + intros [| ? ?] b E; discriminate.
    + destruct (split_once s) as [first rest]. cbn [fst] in *.
      intros [| a0 a] b E; cbn in E; injection E as E1 E2.
      * now subst c.
      * apply (IH a b E2).
Qed.

(** A string that [strip("/")] leaves alone. *)
Definition stripped (s : string) : Prop := strip_slash s = s.

Lemma rstrip_slash_idem (s : string) : rstrip_slash (rstrip_slash s) = rstrip_slash s.
Proof.
  induction s as [| c s IH]; [reflexivity |]. cbn [rstrip_slash].
  destruct (Ascii.eqb c slash && String.eqb (rstrip_slash s) "") eqn:E;
    [reflexivity |].
  cbn [rstrip_slash]. rewrite IH, E. reflexivity.
Qed.

Lemma rstrip_slash_head (c : Ascii.ascii) (s : string) :
  Ascii.eqb c slash = false -> rstrip_slash (String c s) = String c (rstrip_slash s).
Proof. intros H. cbn [rstrip_slash]. now rewrite H. Qed.

Lemma lstrip_slash_head (s : string) (c : Ascii.ascii) (t : string) :
  lstrip_slash s = String c t -> Ascii.eqb c slash = false.
Proof.
  induction s as [| a s IH]; [discriminate |]. cbn [lstrip_slash].
  destruct (Ascii.eqb a slash) eqn:E; [exact IH |]. intros [= <- _]. exact E.
Qed.

Lemma strip_slash_stripped (s : string) : stripped (strip_slash s).
Proof.
  unfold stripped, strip_slash.
  destruct (lstrip_slash s) as [| c t] eqn:E; [reflexivity |].
  pose proof (lstrip_slash_head s c t E) as Hc.
  rewrite (rstrip_slash_head c t Hc). cbn [lstrip_slash]. rewrite Hc.
  rewrite (rstrip_slash_head c _ Hc). now rewrite rstrip_slash_idem.
Qed.

Lemma skip_scheme (t : string) : skip 5 ("s3://" +:+ t) = t.
Proof. reflexivity. Qed.

(** X18.  [_parse_s3_uri] cuts an S3 location into a bucket without slash
    and a prefix without slash at either end; and it reads back what it is
    given: the location [s3://bucket/prefix] of a slash-free bucket and such
    a prefix parses to that bucket and that prefix, and [s3://bucket] to the
    bucket and the empty prefix. *)
Theorem parse_s3_uri_round_trip (uri bucket prefix : string) :
  (no_slash (fst (_parse_s3_uri uri)) /\ stripped (snd (_parse_s3_uri uri))) /\
  (no_slash bucket -> stripped prefix ->
   _parse_s3_uri ("s3://" ++ bucket ++ "/" ++ prefix) = (bucket, prefix) /\
   _parse_s3_uri ("s3://" ++ bucket) = (bucket, ""%string)).
Proof.
  split.
  - unfold _parse_s3_uri. cbv zeta.
    pose proof (split_once_bucket (skip 5 uri)) as H.
    destruct (split_once (skip 5 uri)) as [b rest]. cbn [fst snd] in *.
    split; [exact H | apply strip_slash_stripped].
  - intros Hb Hp. unfold _parse_s3_uri. rewrite !skip_scheme. split.
    + change ("/" +:+ prefix) with (String slash prefix).
      rewrite (split_once_at_slash bucket prefix Hb). now rewrite Hp.
    + now rewrite (split_once_no_slash bucket Hb).
Qed.

Lemma no_slash_check (s : string) : snd (split_once s) = None -> no_slash s.
Proof.
  intros H a b ->. revert H.
  induction a as [| c a IH].
  - change ("" +:+ String slash b) with (String slash b). cbn. discriminate.
  - change (String c a +:+ String slash b) with (String c (a +:+ String slash b)).
    cbn [split_once]. destruct (Ascii.eqb c slash); [discriminate |].
    destruct (split_once (a +:+ String slash b)) as [f r]. cbn [snd] in *. exact IH.
Qed.

Lemma parse_s3_uri_round_trip_witness :
  (no_slash (fst (_parse_s3_uri "s3://lake/service1/text/")) /\
   stripped (snd (_parse_s3_uri "s3://lake/service1/text/"))) /\
  _parse_s3_uri ("s3://" ++ "lake" ++ "/" ++ "service1/text") =
    ("lake", "service1/text")%string /\
  _parse_s3_uri ("s3://" ++ "lake") = ("lake", "")%string.
Proof.
  destruct (parse_s3_uri_round_trip "s3://lake/service1/text/" "lake" "service1/text")
    as [H1 H2].
  split; [exact H1 |].
  apply H2; [apply no_slash_check; reflexivity | reflexivity].
Defined.

(** *** What a run keeps *)

(** The [try] block from the assignment of [lock_acquired] on. *)
Definition after_lock (self : config) (e : env) (info : doc_info)
    (batch_id : option string) (acquired : bool) : M Tracker.doc_result :=
  let id := di_doc_id info in
  set_lock_acquired acquired ;;;
  if negb acquired then
    ret (failure id (Some (Literal "Document is currently being processed")))
  else
    when_batch batch_id (λ b, on_trackers (λ t,
      Tracker.update_progress t b
        [Tracker.kw_current_document id;
         Tracker.kw_current_stage "downloading_pdf";
         Tracker.kw_current_operation "Accessing PDF file from datalake";
         Tracker.kw_status "processing"] (tracker_now e))) ;;;
    let* pdf_path := _get_pdf_file e in
    match pdf_path with
    | None =>
        _update_queue_status e id (-1) ;;;
        _update_error_message e id (Some (Literal "Could not access PDF file")) ;;;
        ret (failure id (Some (Literal "Could not access PDF file")))
    | Some pdf_path => extract_and_save self e info batch_id pdf_path
    end.

Lemma try_block_after_lock (self : config) (e : env) (info : doc_info)
    (batch_id : option string) :
  try_block self e info batch_id =
  bind (_set_processing_lock e (di_doc_id info)) (after_lock self e info batch_id).
Proof. reflexivity. Qed.

(** The write a call asks the database for: one [UPDATE] of the document's
    row.  The page artifacts and the notification are no statements, and the
    two statements of [_set_processing_lock] are made before its answer is
    known. *)
Definition statement_of (ev : event) : option (Z -> row -> row) :=
  match ev with
  | update_datalake_raw_uri raw_uri => Some (set_raw_uri raw_uri)
  | update_datalake_text_uri text_uri => Some (set_text_uri text_uri)
  | update_queue_status status_value => Some (set_status status_value)
  | update_error_message text => Some (set_error text)
  | update_text_extraction_duration seconds => Some (set_duration seconds)
  | update_last_processed => Some set_last_processed
  | clear_processing_lock => Some (set_lock false None)
  | set_processing_lock _ | save_extracted_content _ | call_service2 _ => None
  end.

(** The queue table and the statement count after the calls [evs], the
    first of them being statement number [n]: every write is one statement,
    committed at the time the database gives when the database answers, and
    lost otherwise. *)
Fixpoint replay (e : env) (id : string) (evs : list event) (n : nat)
    (q : list row) : list row * nat :=
  match evs with
  | [] => (q, n)
  | ev :: evs =>
      match statement_of ev with
      | Some set =>
          replay e id evs (S n)
            (if db_available e n then update_where id (set (db_now e n)) q else q)
      | None => replay e id evs n q
      end
  end.

Lemma statement_keeps_doc_id (ev : event) (set : Z -> row -> row) :
  statement_of ev = Some set -> forall now r, doc_id (set now r) = doc_id r.
Proof. destruct ev; intros [= <-]; reflexivity. Qed.

Lemma statement_keeps_lock (ev : event) (set : Z -> row -> row) :
  statement_of ev = Some set -> ev <> clear_processing_lock ->
  forall now r, is_processing (set now r) = is_processing r.
Proof. destruct ev; intros [= <-] Hne; first [reflexivity | contradiction]. Qed.

Lemma set_processing_lock_state (e : env) (id : string) (s : state) :
  acquires e id s = true ->
  queue (snd (_set_processing_lock e id s)) =
    update_where id
      (set_lock true (Some (db_now e (S (statements s)))) (db_now e (S (statements s))))
      (queue s) /\
  statements (snd (_set_processing_lock e id s)) = S (S (statements s)).
Proof.
  unfold acquires, busy. intros H.
  apply andb_true_iff in H as [H H3]. apply andb_true_iff in H as [H1 H2].
  apply negb_true_iff in H2.
  unfold _set_processing_lock, bind, ret, log.
  rewrite execute_eq. cbn. rewrite committed_select, H1. cbn. rewrite H2.
  rewrite execute_eq. cbn. unfold committed. cbn. rewrite H3. auto.
Qed.

Section Invariant.

Variable R : state -> state -> Prop.
Hypothesis R_refl : forall s, R s s.
Hypothesis R_trans : forall a b c, R a b -> R b c -> R a c.

(** A computation keeps [R] when its final state is related to the state it
    starts in, whether it returns or raises. *)
Definition keeps {A} (m : M A) : Prop := forall s, R s (snd (m s)).

Lemma keeps_pure {A} (g : state -> outcome A) : keeps (λ s, (g s, s)).
Proof. intros s. apply R_refl. Qed.

Lemma keeps_ret {A} (a : A) : keeps (ret a).
Proof. apply (keeps_pure (λ _, Ret a)). Qed.

Lemma keeps_bind {A B} (m : M A) (f : A -> M B) :
  keeps m -> (forall a, keeps (f a)) -> keeps (bind m f).
Proof.
  intros Hm Hf s. unfold bind. specialize (Hm s).
  destruct (m s) as [[a | err] s1]; cbn [snd] in *; [| exact Hm].
  eapply R_trans; [exact Hm | apply Hf].
Qed.

Lemma keeps_try_except {A} (body : M A) (handler : exn -> M A) :
  keeps body -> (forall err, keeps (handler err)) -> keeps (try_except body handler).
Proof.
  intros Hb Hh s. unfold try_except. specialize (Hb s).
  destruct (body s) as [[a | err] s1]; cbn [snd] in *; [exact Hb |].
  destruct (exn_is_Exception err); [| exact Hb].
  eapply R_trans; [exact Hb | apply Hh].
Qed.

Lemma keeps_try_finally {A} (body : M A) (final : M unit) :
  keeps body -> keeps final -> keeps (try_finally body final).
Proof.
  intros Hb Hf s. unfold try_finally. specialize (Hb s).
  destruct (body s) as [r s1]. specialize (Hf s1).
  destruct (final s1) as [[[] | err] s2]; cbn [snd] in *;
    eapply R_trans; eassumption.
Qed.

Variable e : env.
Variable self : config.
Variable info : doc_info.
Variable batch_id : option string.

(** The steps of a run that change the state: the assignment of the flag,
    a call that is no statement, a write to the row, the two lock helpers,
    the tracker updates and the engine. *)
Hypothesis keeps_flag : forall b, keeps (set_lock_acquired b).
Hypothesis keeps_note : forall ev, statement_of ev = None -> keeps (log ev).
Hypothesis keeps_write :
  forall (ev : event) (set : Z -> row -> row),
  statement_of ev = Some set -> ev <> clear_processing_lock ->
  keeps (log ev ;;; execute e (λ now, update_where (di_doc_id info) (set now))).
Hypothesis keeps_acquire : keeps (_set_processing_lock e (di_doc_id info)).
Hypothesis keeps_release : keeps (_clear_processing_lock e (di_doc_id info)).
Hypothesis keeps_update_progress :
  forall (b doc stage operation status_value : string) (now : Z),
  batch_id = Some b ->
  keeps (on_trackers (λ t,
    Tracker.update_progress t b
      [Tracker.kw_current_document doc; Tracker.kw_current_stage stage;
       Tracker.kw_current_operation operation; Tracker.kw_status status_value]
      now)).
Hypothesis keeps_increment_processed :
  forall (b : string) (n now : Z),
  batch_id = Some b ->
  keeps (on_trackers (λ t, (Tracker.increment_processed t b n now).1)).
Hypothesis keeps_engine :
  forall (pdf_path : path) (password : option string),
  keeps (λ s,
    let '(out, est) :=
      PdfProcessor.extract_text_from_pdf_enhanced (pdf_processor self) pdf_path
        (fitz_open e) password (engine s) in
    (out,
     {| queue := queue s; trackers := trackers s; engine := est;
        statements := statements s; trace := trace s;
        lock_acquired := lock_acquired s |})).

Lemma keeps_statement (ev : event) (set : Z -> row -> row) :
  statement_of ev = Some set -> ev <> clear_processing_lock ->
  keeps (log ev ;;; execute e (λ now, update_where (di_doc_id info) (set now))).
Proof. apply keeps_write. Qed.

Lemma keeps_progress (doc stage operation status_value : string) (now : Z) :
  keeps (when_batch batch_id (λ b, on_trackers (λ t,
    Tracker.update_progress t b
      [Tracker.kw_current_document doc; Tracker.kw_current_stage stage;
       Tracker.kw_current_operation operation; Tracker.kw_status status_value]
      now))).
Proof.
  unfold when_batch. destruct batch_id as [b |] eqn:Eb; [| apply keeps_ret].
  destruct (truthy (Some b)); [| apply keeps_ret].
  now apply keeps_update_progress.
Qed.

Lemma keeps_increment (n now : Z) :
  keeps (when_batch batch_id (λ b, on_trackers (λ t,
    (Tracker.increment_processed t b n now).1))).
Proof.
  unfold when_batch. destruct batch_id as [b |] eqn:Eb; [| apply keeps_ret].
  destruct (truthy (Some b)); [| apply keeps_ret].
  now apply keeps_increment_processed.
Qed.

Lemma keeps_call_service2 (id : Z) (doc : string) :
  keeps (_call_service2 self e id doc).
Proof.
  unfold _call_service2.
  apply keeps_bind; [now apply keeps_note | intros _].
  destruct (negb (service2_enabled self) || negb (httpx_installed self));
    [apply keeps_ret |].
  apply keeps_try_except; [| intros _; apply keeps_ret].
  destruct (post e); try apply keeps_ret. apply keeps_pure.
Qed.

Lemma keeps_save_and_complete (r : PdfProcessor.extraction_result) :
  keeps (save_and_complete self e info batch_id r).
Proof.
  unfold save_and_complete. cbv zeta.
  apply keeps_bind; [| intros _].
  { unfold _save_extracted_content_to_service1_folder.
    apply keeps_bind; [now apply keeps_note | intros _; apply keeps_pure]. }
  apply keeps_bind; [apply (keeps_statement (update_datalake_text_uri _) (set_text_uri _)); [reflexivity | discriminate] | intros _].
  apply keeps_bind; [apply (keeps_statement (update_queue_status _) (set_status _)); [reflexivity | discriminate] | intros _].
  apply keeps_bind; [apply keeps_progress | intros _].
  apply keeps_bind; [apply (keeps_statement (update_text_extraction_duration _) (set_duration _)); [reflexivity | discriminate] | intros _].
  apply keeps_bind;
    [apply (keeps_statement update_last_processed set_last_processed); [reflexivity | discriminate] | intros _].
  apply keeps_bind; [| intros _].
  { destruct (di_extraction_id info) as [x |]; [| apply keeps_ret].
    destruct (truthy_int (Some x)); [| apply keeps_ret].
    apply keeps_bind; [apply keeps_call_service2 | intros _; apply keeps_ret]. }
  apply keeps_bind; [apply keeps_increment | intros _].
  apply keeps_ret.
Qed.

Lemma keeps_extract_and_save (pdf_path : path) :
  keeps (extract_and_save self e info batch_id pdf_path).
Proof.
  unfold extract_and_save. cbv zeta.
  apply keeps_bind; [apply (keeps_statement (update_datalake_raw_uri _) (set_raw_uri _)); [reflexivity | discriminate] | intros _].
  apply keeps_bind; [apply keeps_progress | intros _].
  apply keeps_bind; [| intros r].
  { unfold _extract_pdf_text. apply keeps_try_except;
      [apply keeps_engine | intros err; apply keeps_ret]. }
  destruct (negb (PdfProcessor.success r)); [| apply keeps_save_and_complete].
  apply keeps_bind; [apply (keeps_statement (update_queue_status _) (set_status _)); [reflexivity | discriminate] | intros _].
  apply keeps_bind; [apply (keeps_statement (update_error_message _) (set_error _)); [reflexivity | discriminate] | intros _].
  apply keeps_ret.
Qed.

Lemma keeps_after_lock (acquired : bool) :
  keeps (after_lock self e info batch_id acquired).
Proof.
  unfold after_lock. cbv zeta.
  apply keeps_bind; [apply keeps_flag | intros _].
  destruct (negb acquired); [apply keeps_ret |].
  apply keeps_bind; [apply keeps_progress | intros _].
  apply keeps_bind; [apply keeps_pure | intros [pdf_path |]];
    [apply keeps_extract_and_save |].
  apply keeps_bind; [apply (keeps_statement (update_queue_status _) (set_status _)); [reflexivity | discriminate] | intros _].
  apply keeps_bind; [apply (keeps_statement (update_error_message _) (set_error _)); [reflexivity | discriminate] | intros _].
  apply keeps_ret.
Qed.

Lemma keeps_try_block : keeps (try_block self e info batch_id).
Proof.
  rewrite try_block_after_lock.
  apply keeps_bind; [apply keeps_acquire | apply keeps_after_lock].
Qed.

Lemma keeps_except_block (err : exn) : keeps (except_block e info batch_id err).
Proof.
  unfold except_block. cbv zeta.
  apply keeps_bind; [apply (keeps_statement (update_queue_status _) (set_status _)); [reflexivity | discriminate] | intros _].
  apply keeps_bind; [apply (keeps_statement (update_error_message _) (set_error _)); [reflexivity | discriminate] | intros _].
  apply keeps_bind; [apply keeps_increment | intros _].
  apply keeps_ret.
Qed.

Lemma keeps_finally_block : keeps (finally_block e info).
Proof.
  unfold finally_block. apply keeps_bind; [apply keeps_pure | intros acquired].
  destruct acquired; [| apply keeps_ret].
  apply keeps_bind; [apply keeps_release | intros _; apply keeps_ret].
Qed.

(** A relation that is kept by the steps is kept by the whole run. *)
Lemma run_keeps : keeps (_process_single_document self e info batch_id).
Proof.
  unfold _process_single_document.
  apply keeps_bind; [apply keeps_flag | intros _].
  apply keeps_try_finally; [| apply keeps_finally_block].
  apply keeps_try_except; [apply keeps_try_block | apply keeps_except_block].
Qed.

End Invariant.

Lemma update_progress_local (b : string) (kwargs : list Tracker.kwarg) (now : Z)
    (t : gmap string Tracker.entry) (b' : string) :
  b' <> b -> Tracker.update_progress t b kwargs now !! b' = t !! b'.
Proof.
  intros H. unfold Tracker.update_progress.
  destruct (t !! b); [now rewrite lookup_insert_ne by congruence | reflexivity].
Qed.

Lemma increment_processed_local (b : string) (n now : Z)
    (t : gmap string Tracker.entry) (b' : string) :
  b' <> b -> (Tracker.increment_processed t b n now).1 !! b' = t !! b'.
Proof.
  intros H. unfold Tracker.increment_processed.
  destruct (t !! b); [cbn; now rewrite lookup_insert_ne by congruence | reflexivity].
Qed.

(** *** The queue table *)

(** Row by row: the same documents, and the rows of other documents as they
    were. *)
Definition same_rows (id : string) (q q' : list row) : Prop :=
  Forall2 (λ r r', doc_id r' = doc_id r /\ (doc_id r <> id -> r' = r)) q q'.

Lemma same_rows_refl (id : string) (q : list row) : same_rows id q q.
Proof. apply Forall2_same_length_lookup_2; [reflexivity |]. intros i r r' H1 H2.
  assert (r = r') by congruence. subst. auto. Qed.

Lemma same_rows_trans (id : string) (a b c : list row) :
  same_rows id a b -> same_rows id b c -> same_rows id a c.
Proof.
  intros Hab. revert c. induction Hab as [| r r' a b [H1 H2] _ IH]; intros c Hbc.
  - inversion Hbc. constructor.
  - inversion Hbc as [| x r'' y c' [H3 H4] Hrest]; subst. constructor.
    + split; [congruence |]. intros Hne. rewrite H4 by congruence. now apply H2.
    + now apply IH.
Qed.

Lemma same_rows_update (id : string) (f : row -> row) (q : list row) :
  (forall r, doc_id (f r) = doc_id r) -> same_rows id q (update_where id f q).
Proof.
  intros Hf. unfold same_rows, update_where. induction q as [| r q IH];
    constructor; [| exact IH].
  destruct (decide (doc_id r = id)); [| auto].
  split; [apply Hf | contradiction].
Qed.

Lemma set_processing_lock_queue (e : env) (id : string) (s : state) :
  let s1 := snd (_set_processing_lock e id s) in
  trackers s1 = trackers s /\ engine s1 = engine s /\
  (queue s1 = queue s \/
   exists started now, queue s1 = update_where id (set_lock true started now) (queue s)).
Proof.
  cbv zeta. destruct (acquires e id s) eqn:Hacq.
  - destruct (set_processing_lock_state e id s Hacq) as [Hq _].
    destruct (set_processing_lock_eq e id s) as (q1 & n1 & Hlock & _).
    rewrite Hlock in Hq |- *. cbn [snd after queue trackers engine] in *.
    repeat split. right. eauto.
  - destruct (set_processing_lock_eq e id s) as (q1 & n1 & Hlock & Hq).
    rewrite Hlock. cbn [snd after queue trackers engine].
    repeat split. left. now apply Hq.
Qed.

Lemma clear_processing_lock_eq (e : env) (id : string) (s : state) :
  _clear_processing_lock e id s =
  (Ret (db_available e (statements s)),
   after s (committed e (λ now, update_where id (set_lock false None now)) s)
     (S (statements s)) [clear_processing_lock]).
Proof. unfold _clear_processing_lock. apply logged_statement_eq. Qed.

(** X21.  A run never adds, removes or reorders rows of the queue table,
    never changes a document id, and leaves the rows of all other documents
    exactly as they were, whatever the database, the engines, the storage and
    the downstream service answer. *)
Theorem run_touches_only_its_row (self : config) (e : env) (info : doc_info)
    (batch_id : option string) (s : state) :
  same_rows (di_doc_id info) (queue s)
    (queue (snd (_process_single_document self e info batch_id s))).
Proof.
  apply (run_keeps (λ s s', same_rows (di_doc_id info) (queue s) (queue s'))).
  - intros s0. apply same_rows_refl.
  - intros a b c. apply same_rows_trans.
  - intros b s0. apply same_rows_refl.
  - intros ev _ s0. apply same_rows_refl.
  - intros ev set Hset _ s0. rewrite logged_statement_eq. cbn. unfold committed.
    destruct (db_available e (statements s0)); [| apply same_rows_refl].
    apply same_rows_update. intros r. apply (statement_keeps_doc_id ev set Hset).
  - intros s0.
    destruct (set_processing_lock_queue e (di_doc_id info) s0)
      as (_ & _ & [-> | (started & now & ->)]);
      [apply same_rows_refl | apply same_rows_update; reflexivity].
  - intros s0. rewrite clear_processing_lock_eq. cbn. unfold committed.
    destruct (db_available e (statements s0)); [| apply same_rows_refl].
    apply same_rows_update. reflexivity.
  - intros b doc stage operation status_value now _ s0. apply same_rows_refl.
  - intros b n now _ s0. apply same_rows_refl.
  - intros pdf_path password s0.
    destruct (PdfProcessor.extract_text_from_pdf_enhanced _ _ _ _ _).
    apply same_rows_refl.
Qed.

(** X22.  A run leaves the snapshots of all other batches as they were; a
    run without batch id leaves the whole tracker as it was. *)
Theorem run_touches_only_its_batch (self : config) (e : env) (info : doc_info)
    (batch_id : option string) (s : state) :
  let out := _process_single_document self e info batch_id s in
  (forall b, batch_id <> Some b -> trackers (snd out) !! b = trackers s !! b) /\
  (batch_id = None -> trackers (snd out) = trackers s).
Proof.
  cbv zeta.
  assert (H : forall b, batch_id <> Some b ->
              trackers (snd (_process_single_document self e info batch_id s)) !! b =
              trackers s !! b).
  { apply (run_keeps (λ s s', forall b, batch_id <> Some b ->
                                trackers s' !! b = trackers s !! b)).
    - intros s0 b _. reflexivity.
    - intros a b c Hab Hbc b0 Hb. rewrite (Hbc b0 Hb). now apply Hab.
    - intros b s0 b0 _. reflexivity.
    - intros ev _ s0 b _. reflexivity.
    - intros ev set _ _ s0 b _. rewrite logged_statement_eq. reflexivity.
    - intros s0 b _.
      destruct (set_processing_lock_queue e (di_doc_id info) s0) as (-> & _).
      reflexivity.
    - intros s0 b _. rewrite clear_processing_lock_eq. reflexivity.
    - intros b doc stage operation status_value now Hb s0 b0 Hb0. cbn.
      apply update_progress_local. congruence.
    - intros b n now Hb s0 b0 Hb0. cbn. apply increment_processed_local. congruence.
    - intros pdf_path password s0 b _.
      destruct (PdfProcessor.extract_text_from_pdf_enhanced _ _ _ _ _). reflexivity. }
  split; [exact H |].
  intros Hnone. apply map_eq. intros b. apply H. rewrite Hnone. discriminate.
Qed.

(** *** The tracker across a run *)

(** What a run may do to the snapshots: none appears or disappears, the
    totals and the results stay, the counters do not go down. *)
Definition snapshots_grow (ts ts' : gmap string Tracker.entry) : Prop :=
  forall b,
    match ts !! b, ts' !! b with
    | Some t, Some t' =>
        Tracker.total_documents t' = Tracker.total_documents t /\
        Tracker.total_pages t' = Tracker.total_pages t /\
        Tracker.results t' = Tracker.results t /\
        Tracker.processed_documents t <= Tracker.processed_documents t' /\
        Tracker.processed_pages t <= Tracker.processed_pages t'
    | None, None => True
    | _, _ => False
    end.

Lemma snapshots_grow_refl (ts : gmap string Tracker.entry) : snapshots_grow ts ts.
Proof. intros b. destruct (ts !! b); [repeat split; lia | exact I]. Qed.

Lemma snapshots_grow_trans (a b c : gmap string Tracker.entry) :
  snapshots_grow a b -> snapshots_grow b c -> snapshots_grow a c.
Proof.
  intros Hab Hbc k. specialize (Hab k). specialize (Hbc k).
  destruct (a !! k), (b !! k), (c !! k); try contradiction; try exact I.
  destruct Hab as (A1 & A2 & A3 & A4 & A5), Hbc as (B1 & B2 & B3 & B4 & B5).
  repeat split; try congruence; lia.
Qed.

Lemma update_progress_grows (b doc stage operation status_value : string) (now : Z)
    (ts : gmap string Tracker.entry) :
  snapshots_grow ts
    (Tracker.update_progress ts b
       [Tracker.kw_current_document doc; Tracker.kw_current_stage stage;
        Tracker.kw_current_operation operation; Tracker.kw_status status_value] now).
Proof.
  intros k. unfold Tracker.update_progress.
  destruct (ts !! b) as [t |] eqn:Hb; [| apply snapshots_grow_refl].
  destruct (decide (k = b)) as [-> | Hne].
  - rewrite Hb, lookup_insert_eq. destruct t. cbn. repeat split; lia.
  - rewrite lookup_insert_ne by congruence. apply snapshots_grow_refl.
Qed.

Lemma increment_processed_grows (b : string) (n now : Z)
    (ts : gmap string Tracker.entry) :
  snapshots_grow ts (Tracker.increment_processed ts b n now).1.
Proof.
  intros k. unfold Tracker.increment_processed.
  destruct (ts !! b) as [t |] eqn:Hb; [| apply snapshots_grow_refl].
  cbn [fst]. destruct (decide (k = b)) as [-> | Hne].
  - rewrite Hb, lookup_insert_eq. cbn.
    repeat split; try lia. destruct (Z.ltb_spec 0 n); lia.
  - rewrite lookup_insert_ne by congruence. apply snapshots_grow_refl.
Qed.

(** X23.  Across a run the tracker only grows: no snapshot is created or
    removed, no batch has its [total_documents], [total_pages] or [results]
    changed, and [processed_documents] and [processed_pages] of a batch are
    never lowered. *)
Theorem run_only_grows_the_tracker (self : config) (e : env) (info : doc_info)
    (batch_id : option string) (s : state) :
  snapshots_grow (trackers s)
    (trackers (snd (_process_single_document self e info batch_id s))).
Proof.
  apply (run_keeps (λ s s', snapshots_grow (trackers s) (trackers s'))).
  - intros s0. apply snapshots_grow_refl.
  - intros a b c. apply snapshots_grow_trans.
  - intros b s0. apply snapshots_grow_refl.
  - intros ev _ s0. apply snapshots_grow_refl.
  - intros ev set _ _ s0. rewrite logged_statement_eq. apply snapshots_grow_refl.
  - intros s0.
    destruct (set_processing_lock_queue e (di_doc_id info) s0) as (-> & _).
    apply snapshots_grow_refl.
  - intros s0. rewrite clear_processing_lock_eq. apply snapshots_grow_refl.
  - intros b doc stage operation status_value now _ s0. cbn.
    apply update_progress_grows.
  - intros b n now _ s0. cbn. apply increment_processed_grows.
  - intros pdf_path password s0.
    destruct (PdfProcessor.extract_text_from_pdf_enhanced _ _ _ _ _).
    apply snapshots_grow_refl.
Qed.

(** *** The processing lock in the table *)

Lemma busy_after_lock (id : string) (started : option Z) (now : Z) (q : list row) :
  busy id (update_where id (set_lock true started now) q) =
  existsb (λ r, bool_decide (doc_id r = id)) q.
Proof.
  unfold busy, update_where. induction q as [| r q IH]; [reflexivity |].
  cbn [map existsb]. rewrite IH. f_equal.
  destruct (decide (doc_id r = id)) as [E | E]; cbn.
  - now rewrite !bool_decide_eq_true_2 by assumption.
  - now rewrite !bool_decide_eq_false_2 by assumption.
Qed.

Lemma busy_after_clear (id : string) (now : Z) (q : list row) :
  busy id (update_where id (set_lock false None now) q) = false.
Proof.
  unfold busy, update_where. induction q as [| r q IH]; [reflexivity |].
  cbn [map existsb]. rewrite IH.
  destruct (decide (doc_id r = id)) as [E | E]; cbn.
  - now rewrite andb_false_r.
  - now rewrite bool_decide_eq_false_2 by assumption.
Qed.

Lemma acquired_acquires (e : env) (id : string) (s : state) (b : bool) :
  fst (_set_processing_lock e id s) = Ret b -> acquires e id s = b.
Proof.
  destruct (set_processing_lock_eq e id s) as (q & n & H & _). rewrite H. cbn.
  congruence.
Qed.

(** X24.  The lock excludes a second worker only for a document that has a
    row.  After [_set_processing_lock] has answered [True], a second call is
    refused when the queue holds a row of the document; when it holds none,
    the first call has changed nothing and the second call is granted again
    as soon as its two statements go through.  A committed
    [_clear_processing_lock] leaves no row of the document locked. *)
Theorem lock_is_exclusive_for_known_rows (e e' : env) (id : string) (s : state) :
  fst (_set_processing_lock e id s) = Ret true ->
  let s1 := snd (_set_processing_lock e id s) in
  ((exists r, r ∈ queue s /\ doc_id r = id) ->
   fst (_set_processing_lock e' id s1) = Ret false) /\
  ((forall r, r ∈ queue s -> doc_id r <> id) ->
   queue s1 = queue s /\
   fst (_set_processing_lock e' id s1) =
     Ret (db_available e' (statements s1) && db_available e' (S (statements s1)))) /\
  (db_available e' (statements s1) = true ->
   busy id (queue (snd (_clear_processing_lock e' id s1))) = false).
Proof.
  intros H. apply acquired_acquires in H. cbv zeta.
  destruct (set_processing_lock_state e id s H) as [Hq Hn].
  set (s1 := snd (_set_processing_lock e id s)) in *.
  assert (Hbusy : busy id (queue s1) = existsb (λ r, bool_decide (doc_id r = id)) (queue s))
    by (rewrite Hq; apply busy_after_lock).
  destruct (set_processing_lock_eq e' id s1) as (q2 & n2 & H2 & _).
  split; [| split].
  - intros (r & Hr & Hid). rewrite H2. cbn. f_equal. unfold acquires.
    rewrite Hbusy.
    assert (Hex : existsb (λ r, bool_decide (doc_id r = id)) (queue s) = true).
    { apply existsb_exists. exists r. split; [now apply list_elem_of_In |].
      now apply bool_decide_eq_true_2. }
    rewrite Hex. cbn. now rewrite andb_false_r.
  - intros Hnone.
    assert (Hsame : queue s1 = queue s).
    { rewrite Hq. unfold update_where. rewrite <- (map_id (queue s)) at 2.
      apply map_ext_in. intros r Hr.
      destruct (decide (doc_id r = id)) as [E | _]; [| reflexivity].
      exfalso. apply (Hnone r); [now apply list_elem_of_In | exact E]. }
    split; [exact Hsame |]. rewrite H2. cbn. f_equal. unfold acquires.
    rewrite Hbusy.
    assert (Hex : existsb (λ r, bool_decide (doc_id r = id)) (queue s) = false).
    { apply not_true_is_false. intros Hex. apply existsb_exists in Hex as (r & Hr & Hd).
      apply bool_decide_eq_true in Hd. apply (Hnone r); [now apply list_elem_of_In | exact Hd]. }
    rewrite Hex. cbn. now rewrite andb_true_r.
  - intros Hdb. unfold _clear_processing_lock. rewrite logged_statement_eq. cbn.
    unfold committed. rewrite Hdb. apply busy_after_clear.
Qed.

Lemma lock_is_exclusive_for_known_rows_witness :
  let s1 := snd (_set_processing_lock (example_env (Response 200)) "D1"
                   (example_state false)) in
  fst (_set_processing_lock (example_env TimeoutException) "D1" s1) = Ret false /\
  busy "D1" (queue (snd (_clear_processing_lock (example_env TimeoutException)
                           "D1" s1))) = false.
Proof.
  destruct (lock_is_exclusive_for_known_rows (example_env (Response 200))
              (example_env TimeoutException) "D1" (example_state false) eq_refl)
    as (H1 & _ & H3).
  cbv zeta. split; [apply H1 | apply H3; reflexivity].
  exists (example_row false). split; [apply list_elem_of_here | reflexivity].
Defined.

(** Whether the queue holds a row of the document. *)
Definition has_row (id : string) (q : list row) : bool :=
  existsb (λ r, bool_decide (doc_id r = id)) q.

Lemma busy_update (id : string) (f : row -> row) (q : list row) :
  (forall r, doc_id (f r) = doc_id r /\ is_processing (f r) = is_processing r) ->
  busy id (update_where id f q) = busy id q.
Proof.
  intros Hf. unfold busy, update_where. induction q as [| r q IH]; [reflexivity |].
  cbn [map existsb]. rewrite IH. f_equal.
  destruct (decide (doc_id r = id)) as [E | E]; [| reflexivity].
  destruct (Hf r) as [-> ->]. reflexivity.
Qed.

(** The steps between the lock and its release do not change whether the
    document is locked. *)
Ltac busy_is_kept :=
  unfold keeps; intros;
  first
    [ reflexivity
    | congruence
    | rewrite logged_statement_eq; cbn; unfold committed;
      match goal with |- context [db_available ?e ?n] =>
        destruct (db_available e n) end;
      [ apply busy_update; intros; split;
        [ eapply statement_keeps_doc_id | eapply statement_keeps_lock ];
        eassumption
      | reflexivity ]
    | match goal with
      |- context [PdfProcessor.extract_text_from_pdf_enhanced ?a ?b ?c ?d ?f] =>
        destruct (PdfProcessor.extract_text_from_pdf_enhanced a b c d f) end;
      reflexivity ].

Lemma after_lock_keeps_busy (self : config) (e : env) (info : doc_info)
    (batch_id : option string) (acquired : bool) (s : state) :
  busy (di_doc_id info) (queue (snd (after_lock self e info batch_id acquired s))) =
  busy (di_doc_id info) (queue s).
Proof.
  apply (keeps_after_lock
           (λ s s', busy (di_doc_id info) (queue s') = busy (di_doc_id info) (queue s)));
    busy_is_kept.
Qed.

Lemma except_block_keeps_busy (e : env) (info : doc_info)
    (batch_id : option string) (err : exn) (s : state) :
  busy (di_doc_id info) (queue (snd (except_block e info batch_id err s))) =
  busy (di_doc_id info) (queue s).
Proof.
  apply (keeps_except_block
           (λ s s', busy (di_doc_id info) (queue s') = busy (di_doc_id info) (queue s)));
    busy_is_kept.
Qed.

Lemma try_finally_state {A} (body : M A) (final : M unit) (s : state) :
  snd (try_finally body final s) = snd (final (snd (body s))).
Proof.
  unfold try_finally. destruct (body s) as [r s1]. cbn [snd].
  destruct (final s1) as [[[] | err] s2]; reflexivity.
Qed.

Lemma finally_block_locked (e : env) (info : doc_info) (s : state) :
  lock_acquired s = true ->
  let s' := snd (finally_block e info s) in
  busy (di_doc_id info) (queue s') =
  busy (di_doc_id info) (queue s) && negb (db_available e (Nat.pred (statements s'))).
Proof.
  intros Hl. cbv zeta.
  assert (E : finally_block e info s =
              (Ret tt,
               after s (committed e (λ now, update_where (di_doc_id info)
                                               (set_lock false None now)) s)
                 (S (statements s)) [clear_processing_lock])).
  { unfold finally_block, bind at 1, get_lock_acquired. rewrite Hl.
    unfold _clear_processing_lock, bind at 1. rewrite logged_statement_eq.
    reflexivity. }
  rewrite E. cbn [snd after queue statements Nat.pred]. unfold committed.
  destruct (db_available e (statements s)); cbn [negb].
  - rewrite busy_after_clear. now rewrite andb_false_r.
  - now rewrite andb_true_r.
Qed.

(** The state in which the [finally] block starts, when the lock was
    acquired: the flag is set, and the document is locked iff it has a row. *)
Lemma locked_before_finally (self : config) (e : env) (info : doc_info)
    (batch_id : option string) (s : state) :
  acquires e (di_doc_id info) s = true ->
  let t := snd (try_except (try_block self e info batch_id)
                  (except_block e info batch_id) s) in
  lock_acquired t = true /\
  busy (di_doc_id info) (queue t) = has_row (di_doc_id info) (queue s).
Proof.
  intros Hacq. cbv zeta.
  pose proof (try_block_spec self e info batch_id s) as Hb. cbv zeta in Hb.
  destruct Hb as [Hl _]. rewrite Hacq in Hl.
  assert (Hbusy : busy (di_doc_id info)
                    (queue (snd (try_block self e info batch_id s))) =
                  has_row (di_doc_id info) (queue s)).
  { rewrite try_block_after_lock. unfold bind at 1.
    destruct (set_processing_lock_state e (di_doc_id info) s Hacq) as [Hq _].
    destruct (set_processing_lock_eq e (di_doc_id info) s) as (q1 & n1 & Hlock & _).
    rewrite Hlock in Hq |- *. cbn [snd after queue] in Hq.
    rewrite after_lock_keeps_busy. cbn [after queue]. rewrite Hq.
    apply busy_after_lock. }
  unfold try_except.
  destruct (try_block self e info batch_id s) as [[a | err] s1];
    cbn [snd] in *; [auto |].
  destruct (exn_is_Exception err); cbn [snd]; [| auto].
  destruct (except_block_eq e info batch_id err s1) as (s2 & Hx & Hxl & _).
  pose proof (except_block_keeps_busy e info batch_id err s1) as Hxb.
  rewrite Hx in Hxb |- *. cbn [snd] in *. split; congruence.
Qed.

(** X25.  After a run that got the lock, the document is still locked
    exactly when it has a row in the queue table and the release statement,
    the last statement of the run, failed: the release is tried once, whatever
    the outcome of the run, and a failed release leaves the lock in place. *)
Theorem lock_state_after_run (self : config) (e : env) (info : doc_info)
    (batch_id : option string) (s : state) :
  fst (_set_processing_lock e (di_doc_id info) s) = Ret true ->
  let s' := snd (_process_single_document self e info batch_id s) in
  busy (di_doc_id info) (queue s') =
  has_row (di_doc_id info) (queue s) &&
  negb (db_available e (Nat.pred (statements s'))).
Proof.
  intros H. apply acquired_acquires in H. cbv zeta.
  set (s0 := {| queue := queue s; trackers := trackers s; engine := engine s;
                statements := statements s; trace := trace s;
                lock_acquired := false |}).
  assert (E : snd (_process_single_document self e info batch_id s) =
              snd (finally_block e info
                     (snd (try_except (try_block self e info batch_id)
                             (except_block e info batch_id) s0)))).
  { unfold _process_single_document, bind at 1, set_lock_acquired at 1.
    apply try_finally_state. }
  rewrite E.
  destruct (locked_before_finally self e info batch_id s0 H) as [Hl Hb].
  pose proof (finally_block_locked e info _ Hl) as Hf. cbv zeta in Hf.
  rewrite Hf, Hb. reflexivity.
Qed.

Lemma lock_state_after_run_witness :
  let out := _process_single_document example_config (example_env (Response 200))
               (example_info (Some 1)) (Some "batch_0_1"%string)
               (example_state false) in
  busy "D1" (queue (snd out)) = false.
Proof.
  exact (lock_state_after_run example_config (example_env (Response 200))
           (example_info (Some 1)) (Some "batch_0_1"%string) (example_state false)
           eq_refl).
Defined.

(** *** A release that fails *)

(** The surroundings of the example with a database that is lost for the
    eighth statement of the run, the [UPDATE] of [_clear_processing_lock]. *)
Definition release_fails_env : env :=
  {| db_available := λ n, negb (Nat.eqb n 7); db_now := λ n, Z.of_nat n;
     time_start := 10%Q; time_end := (25 # 2)%Q; tracker_now := 7;
     get_pdf_file := Ret (Some PdfProcessorFacts.source_pdf);
     fitz_open := Done scanned_document; storage_write := Ret tt;
     post := Response 200 |}.

(** C1.  The run of a document whose release statement fails.  The lock is
    acquired, the document is extracted and the run returns a success; it
    calls [_clear_processing_lock] exactly once, as its last call; the
    [UPDATE] of that call fails, the helper logs the error and answers
    [False], the [finally] block drops the answer, and the row is left with
    [is_processing] set: the lock is not cleared, and every later
    [_set_processing_lock] on the document is refused, whatever the database
    answers then. *)
Theorem failed_release_leaves_the_document_locked :
  let s := example_state false in
  let out := _process_single_document example_config release_fails_env
               (example_info (Some 1)) None s in
  map is_processing (queue s) = [false] /\
  fst (_set_processing_lock release_fails_env "D1" s) = Ret true /\
  (exists r, fst out = Ret r /\ Tracker.r_success r = true) /\
  releases (trace (snd out)) = 1%nat /\
  last (trace (snd out)) = Some clear_processing_lock /\
  map is_processing (queue (snd out)) = [true] /\
  forall e' : env, fst (_set_processing_lock e' "D1" (snd out)) = Ret false.
Proof.
  cbv zeta.
  set (out := _process_single_document example_config release_fails_env
                (example_info (Some 1)) None (example_state false)).
  assert (E : (exists r, fst out = Ret r /\ Tracker.r_success r = true) /\
              releases (trace (snd out)) = 1%nat /\
              last (trace (snd out)) = Some clear_processing_lock /\
              map is_processing (queue (snd out)) = [true] /\
              busy "D1" (queue (snd out)) = true).
  { vm_compute. repeat split. eauto. }
  destruct E as (E1 & E2 & E3 & E4 & E5).
  split; [reflexivity |]. split; [reflexivity |].
  repeat (split; [assumption |]).
  intros e'.
  destruct (set_processing_lock_eq e' "D1" (snd out)) as (q & n & H & _).
  rewrite H. cbn [fst]. f_equal. now apply busy_refuses.
Qed.

(** *** The order of the writes *)

(** The state [s'] follows [s] when the calls logged in between, replayed
    against the database, give the table and the statement count of [s']. *)
Definition follows (e : env) (id : string) (s s' : state) : Prop :=
  exists evs,
    trace s' = trace s ++ evs /\
    replay e id evs (statements s) (queue s) = (queue s', statements s').

Lemma replay_app (e : env) (id : string) (l1 l2 : list event) :
  forall (n : nat) (q : list row),
  replay e id (l1 ++ l2) n q =
  replay e id l2 (snd (replay e id l1 n q)) (fst (replay e id l1 n q)).
Proof.
  induction l1 as [| ev l1 IH]; intros n q; [reflexivity |].
  cbn [app replay]. destruct (statement_of ev); apply IH.
Qed.

Lemma follows_refl (e : env) (id : string) (s : state) : follows e id s s.
Proof. exists []. rewrite app_nil_r. split; reflexivity. Qed.

Lemma follows_trans (e : env) (id : string) (a b c : state) :
  follows e id a b -> follows e id b c -> follows e id a c.
Proof.
  intros (l1 & T1 & R1) (l2 & T2 & R2). exists (l1 ++ l2). split.
  - rewrite T2, T1, app_assoc. reflexivity.
  - rewrite replay_app, R1. exact R2.
Qed.

Lemma follows_same (e : env) (id : string) (s s' : state) :
  trace s' = trace s -> queue s' = queue s -> statements s' = statements s ->
  follows e id s s'.
Proof.
  intros T Q N. exists []. rewrite app_nil_r, Q, N. split; [exact T | reflexivity].
Qed.

Lemma note_follows (e : env) (id : string) (ev : event) (s : state) :
  statement_of ev = None -> follows e id s (snd (log ev s)).
Proof.
  intros H. exists [ev]. split; [reflexivity |]. cbn [replay]. rewrite H. reflexivity.
Qed.

Lemma write_follows (e : env) (id : string) (ev : event) (set : Z -> row -> row)
    (s : state) :
  statement_of ev = Some set ->
  follows e id s
    (snd ((log ev ;;; execute e (λ now, update_where id (set now))) s)).
Proof.
  intros H. rewrite logged_statement_eq. exists [ev]. split; [reflexivity |].
  cbn [replay snd after queue statements]. rewrite H. reflexivity.
Qed.

(** The steps of a run after the lock make their writes as they log them. *)
Ltac writes_follow :=
  unfold keeps; intros;
  first
    [ apply follows_refl
    | eapply follows_trans; eassumption
    | apply note_follows; assumption
    | apply write_follows; assumption
    | apply (write_follows _ _ clear_processing_lock (set_lock false None));
      reflexivity
    | match goal with
      |- context [PdfProcessor.extract_text_from_pdf_enhanced ?a ?b ?c ?d ?f] =>
        destruct (PdfProcessor.extract_text_from_pdf_enhanced a b c d f) end;
      apply follows_same; reflexivity
    | apply follows_same; reflexivity ].

Lemma after_lock_follows (self : config) (e : env) (info : doc_info)
    (batch_id : option string) (acquired : bool) (s : state) :
  follows e (di_doc_id info) s (snd (after_lock self e info batch_id acquired s)).
Proof. apply (keeps_after_lock (follows e (di_doc_id info))); writes_follow. Qed.

Lemma except_block_follows (e : env) (info : doc_info)
    (batch_id : option string) (err : exn) (s : state) :
  follows e (di_doc_id info) s (snd (except_block e info batch_id err s)).
Proof. apply (keeps_except_block (follows e (di_doc_id info))); writes_follow. Qed.

Lemma finally_block_follows (e : env) (info : doc_info) (s : state) :
  follows e (di_doc_id info) s (snd (finally_block e info s)).
Proof. apply (keeps_finally_block (follows e (di_doc_id info))); writes_follow. Qed.

(** A run that acquires the lock, from the answer of [_set_processing_lock]
    on. *)
Lemma run_after_lock (self : config) (e : env) (info : doc_info)
    (batch_id : option string) (s : state) :
  acquires e (di_doc_id info) s = true ->
  exists s1,
    trace s1 = trace s ++ [set_processing_lock true] /\
    queue s1 = queue (snd (_set_processing_lock e (di_doc_id info) s)) /\
    statements s1 = statements (snd (_set_processing_lock e (di_doc_id info) s)) /\
    follows e (di_doc_id info) s1
      (snd (_process_single_document self e info batch_id s)).
Proof.
  intros Hacq.
  set (s0 := {| queue := queue s; trackers := trackers s; engine := engine s;
                statements := statements s; trace := trace s;
                lock_acquired := false |}).
  destruct (set_processing_lock_eq e (di_doc_id info) s0) as (q1 & n1 & Hlock & _).
  change (acquires e (di_doc_id info) s0) with (acquires e (di_doc_id info) s) in Hlock.
  rewrite Hacq in Hlock.
  destruct (set_processing_lock_state e (di_doc_id info) s0 Hacq) as [Hq0 Hn0].
  rewrite Hlock in Hq0, Hn0. cbn [snd after queue statements] in Hq0, Hn0.
  destruct (set_processing_lock_state e (di_doc_id info) s Hacq) as [Hq Hn].
  exists (after s0 q1 n1 [set_processing_lock true]).
  split; [reflexivity |].
  split; [rewrite Hq; exact Hq0 |]. split; [rewrite Hn; exact Hn0 |].
  assert (E : snd (_process_single_document self e info batch_id s) =
              snd (finally_block e info
                     (snd (try_except (after_lock self e info batch_id true)
                             (except_block e info batch_id)
                             (after s0 q1 n1 [set_processing_lock true]))))).
  { unfold _process_single_document, bind at 1, set_lock_acquired at 1. fold s0.
    rewrite try_finally_state. f_equal. f_equal.
    unfold try_except. rewrite try_block_after_lock. unfold bind at 1.
    rewrite Hlock. reflexivity. }
  rewrite E. eapply follows_trans; [| apply finally_block_follows].
  apply (keeps_try_except (follows e (di_doc_id info))).
  - intros a b c. apply follows_trans.
  - intros s2. apply after_lock_follows.
  - intros err s2. apply except_block_follows.
Qed.

Lemma update_where_field {B} (f : row -> B) (id : string) (set : row -> row)
    (q : list row) :
  (forall r, f (set r) = f r) -> map f (update_where id set q) = map f q.
Proof.
  intros H. unfold update_where. rewrite map_map. apply map_ext. intros r.
  destruct (decide (doc_id r = id)); [apply H | reflexivity].
Qed.

(** Only the text-URI write changes the column [datalake_text_uri]. *)
Lemma replay_text_uri (e : env) (id : string) (evs : list event) :
  (forall u, update_datalake_text_uri u ∉ evs) ->
  forall (n : nat) (q : list row),
  map datalake_text_uri (fst (replay e id evs n q)) = map datalake_text_uri q.
Proof.
  induction evs as [| ev evs IH]; intros H n q; [reflexivity |].
  assert (H' : forall u, update_datalake_text_uri u ∉ evs).
  { intros u Hin. apply (H u). now right. }
  cbn [replay]. destruct (statement_of ev) as [set |] eqn:E; [| now apply IH].
  rewrite (IH H'). destruct (db_available e n); [| reflexivity].
  apply update_where_field. intros r.
  destruct ev; cbn in E; try discriminate E; injection E as <-; try reflexivity.
  exfalso. apply (H text_uri). left.
Qed.

(** The downstream notification of a document: one call when its info
    carries an extraction id. *)
Definition notification (info : doc_info) : list event :=
  match di_extraction_id info with
  | Some x => [call_service2 x]
  | None => []
  end.

Lemma notify_events_notification (info : doc_info) :
  di_extraction_id info <> Some 0 -> notify_events info = notification info.
Proof.
  unfold notify_events, notification. intros H.
  destruct (di_extraction_id info) as [x |]; [| reflexivity]. cbn.
  destruct (Z.eqb_spec x 0) as [-> | _]; [contradiction | reflexivity].
Qed.

(** The same surroundings with a database that never fails. *)
Definition reliable (e : env) : env :=
  {| db_available := λ _, true; db_now := db_now e;
     time_start := time_start e; time_end := time_end e;
     tracker_now := tracker_now e; get_pdf_file := get_pdf_file e;
     fitz_open := fitz_open e; storage_write := storage_write e;
     post := post e |}.

(** The order as the specification states it, for one run that acquires the
    lock: after the lock, a successful run has made the eight writes and
    calls of the list, a failed run ends with status -1, the error message
    and the release, and all the writes are durable: the table after the run
    is the table at the lock with every write of the run applied, in this
    order. *)
Definition claimed_durable_order (self : config) (e : env) (info : doc_info)
    (batch_id : option string) (s : state) : Prop :=
  let id := di_doc_id info in
  let locked := snd (_set_processing_lock e id s) in
  let out := _process_single_document self e info batch_id s in
  exists evs,
    trace (snd out) = trace s ++ set_processing_lock true :: evs /\
    queue (snd out) =
      fst (replay (reliable e) id evs (statements locked) (queue locked)) /\
    match fst out with
    | Ret r =>
        if Tracker.r_success r then
          exists raw_uri written text_uri seconds x,
            evs =
            [update_datalake_raw_uri raw_uri; save_extracted_content written;
             update_datalake_text_uri text_uri; update_queue_status 100;
             update_text_extraction_duration seconds; update_last_processed;
             call_service2 x; clear_processing_lock]
        else
          exists pre text,
            evs = pre ++ [update_queue_status (-1); update_error_message text;
                          clear_processing_lock]
    | Raise _ =>
        exists pre text,
          evs = pre ++ [update_queue_status (-1); update_error_message text;
                        clear_processing_lock]
    end.

(** The database is lost for the fourth statement of the run, the write of
    the text URI. *)
Definition text_uri_fails_env : env :=
  {| db_available := λ n, negb (Nat.eqb n 3); db_now := λ n, Z.of_nat n;
     time_start := 10%Q; time_end := (25 # 2)%Q; tracker_now := 7;
     get_pdf_file := Ret (Some PdfProcessorFacts.source_pdf);
     fitz_open := Done scanned_document; storage_write := Ret tt;
     post := Response 200 |}.

(** The task is cancelled while it waits for the PDF file:
    [asyncio.CancelledError] is no [Exception]. *)
Definition cancelled_env : env :=
  {| db_available := λ _, true; db_now := λ n, Z.of_nat n;
     time_start := 10%Q; time_end := (25 # 2)%Q; tracker_now := 7;
     get_pdf_file := Raise {| exn_is_Exception := false; exn_text := Literal "" |};
     fitz_open := Done scanned_document; storage_write := Ret tt;
     post := Response 200 |}.

Lemma last_three {A} (pre : list A) (a b c : A) (l : list A) :
  l = pre ++ [a; b; c] -> (3 <= length l)%nat.
Proof. intros ->. rewrite length_app. cbn. lia. Qed.

(** Three runs that acquire the lock and do not follow the stated order.
    With the write of the text URI lost, the run is a success and the row is
    committed with status 100 and no text URI.  A run that is cancelled makes
    no write of status -1 or of an error and only releases the lock.  A
    document whose info carries no extraction id is extracted and not
    notified. *)
Lemma claimed_durable_order_fails :
  (let out := _process_single_document example_config text_uri_fails_env
                (example_info (Some 1)) None (example_state false) in
   (exists r, fst out = Ret r /\ Tracker.r_success r = true) /\
   map text_extraction_status (queue (snd out)) = [100] /\
   map datalake_text_uri (queue (snd out)) = [None] /\
   ~ claimed_durable_order example_config text_uri_fails_env
       (example_info (Some 1)) None (example_state false)) /\
  (let out := _process_single_document example_config cancelled_env
                (example_info (Some 1)) None (example_state false) in
   (exists err, fst out = Raise err) /\
   trace (snd out) = [set_processing_lock true; clear_processing_lock] /\
   ~ claimed_durable_order example_config cancelled_env
       (example_info (Some 1)) None (example_state false)) /\
  (let out := _process_single_document example_config (example_env (Response 200))
                (example_info None) None (example_state false) in
   (exists r, fst out = Ret r /\ Tracker.r_success r = true) /\
   length (trace (snd out)) = 8%nat /\
   ~ claimed_durable_order example_config (example_env (Response 200))
       (example_info None) None (example_state false)).
Proof.
  split; [| split]; cbv zeta.
  - split; [vm_compute; eauto |]. split; [reflexivity |]. split; [reflexivity |].
    intros (evs & Ht & Hq & _). cbv zeta in Ht, Hq.
    vm_compute in Ht. injection Ht as <-.
    vm_compute in Hq. discriminate Hq.
  - split; [vm_compute; eauto |]. split; [reflexivity |].
    intros (evs & Ht & _ & Hm). cbv zeta in Ht, Hm.
    vm_compute in Ht. injection Ht as <-.
    assert (E : fst (_process_single_document example_config cancelled_env
                       (example_info (Some 1)) None (example_state false)) =
                Raise {| exn_is_Exception := false; exn_text := Literal "" |})
      by reflexivity.
    rewrite E in Hm. destruct Hm as (pre & text & Hm).
    apply last_three in Hm. cbn in Hm. lia.
  - split; [vm_compute; eauto |]. split; [reflexivity |].
    intros (evs & Ht & _ & Hm). cbv zeta in Ht, Hm.
    vm_compute in Ht. injection Ht as <-.
    assert (E : exists r,
              fst (_process_single_document example_config (example_env (Response 200))
                     (example_info None) None (example_state false)) = Ret r /\
              Tracker.r_success r = true) by (vm_compute; eauto).
    destruct E as (r & E & Hr). rewrite E, Hr in Hm.
    destruct Hm as (u1 & w & u2 & d & x & Hm). discriminate Hm.
Qed.

(** C2 (amended).  A run that acquires the lock makes its calls in this
    order.  A success: raw URI, page artifacts, text URI, status 100,
    duration, last-processed, the notification when the document info carries
    an extraction id, lock released.  A failure that the run returns: at most
    the raw URI and the page artifacts, then status -1, the error message,
    lock released.  A run that leaves by an exception, which is then no
    [Exception]: at most the raw URI and the page artifacts, then lock
    released.  Every write is one statement, and a statement that fails is
    skipped without stopping the run: the table after the run is the table at
    the lock with exactly the writes whose statement went through applied in
    the order of the calls.  A run that is no success leaves the column
    [datalake_text_uri] of every row as it was.  (A document whose
    [extraction_id] is 0 is left aside.) *)
Theorem writes_in_order (self : config) (e : env) (info : doc_info)
    (batch_id : option string) (s : state) :
  fst (_set_processing_lock e (di_doc_id info) s) = Ret true ->
  di_extraction_id info <> Some 0 ->
  let id := di_doc_id info in
  let locked := snd (_set_processing_lock e id s) in
  let out := _process_single_document self e info batch_id s in
  exists evs,
    trace (snd out) =
      trace s ++ set_processing_lock true :: evs ++ [clear_processing_lock] /\
    replay e id (evs ++ [clear_processing_lock]) (statements locked) (queue locked) =
      (queue (snd out), statements (snd out)) /\
    match fst out with
    | Ret r =>
        if Tracker.r_success r then
          exists raw_uri written text_uri seconds,
            evs =
            [update_datalake_raw_uri raw_uri; save_extracted_content written;
             update_datalake_text_uri text_uri; update_queue_status 100;
             update_text_extraction_duration seconds; update_last_processed] ++
            notification info
        else
          (exists pre,
             progress_prefix pre /\
             evs = pre ++ [update_queue_status (-1);
                           update_error_message (Tracker.r_error r)]) /\
          map datalake_text_uri (queue (snd out)) = map datalake_text_uri (queue s)
    | Raise err =>
        exn_is_Exception err = false /\ progress_prefix evs /\
        map datalake_text_uri (queue (snd out)) = map datalake_text_uri (queue s)
    end.
Proof.
  intros Hlock Hid. cbv zeta. apply acquired_acquires in Hlock.
  destruct (run_after_lock self e info batch_id s Hlock)
    as (s1 & T1 & Q1 & N1 & evs & T & Rp).
  destruct (run_has_shape self e info batch_id s) as (evs0 & T0 & Hshape & _).
  rewrite T1, <- app_assoc, T0 in T. apply app_inv_head in T. cbn [app] in T.
  subst evs0. rewrite Q1, N1 in Rp.
  assert (Hq : queue (snd (_process_single_document self e info batch_id s)) =
               fst (replay e (di_doc_id info) evs
                      (statements (snd (_set_processing_lock e (di_doc_id info) s)))
                      (queue (snd (_set_processing_lock e (di_doc_id info) s)))))
    by now rewrite Rp.
  assert (Hkeep : (forall u, update_datalake_text_uri u ∉ evs) ->
            map datalake_text_uri
              (queue (snd (_process_single_document self e info batch_id s))) =
            map datalake_text_uri (queue s)).
  { intros Hno. rewrite Hq, (replay_text_uri _ _ _ Hno).
    destruct (set_processing_lock_state e (di_doc_id info) s Hlock) as [-> _].
    now apply update_where_field. }
  revert Hshape.
  generalize (fst (_process_single_document self e info batch_id s)). intros o Hshape.
  inversion Hshape as [ | pre text Hpre Ho He | pre err Hpre Hexn Ho He
                        | u1 u2 w pages seconds Ho He]; subst.
  - exists (pre ++ [update_queue_status (-1); update_error_message text]).
    rewrite <- !app_assoc. cbn [app].
    split; [exact T0 |]. split; [exact Rp |]. cbn.
    split; [exists pre; auto |]. apply Hkeep. intros u Hin.
    apply elem_of_app in Hin as [Hin | Hin].
    + now apply progress_prefix_no_text_uri in Hin.
    + unfold failure_tail in Hin.
      repeat (apply elem_of_cons in Hin as [Hin | Hin]; [discriminate |]).
      now apply elem_of_nil in Hin.
  - exists pre. split; [exact T0 |]. split; [exact Rp |].
    split; [exact Hexn |]. split; [exact Hpre |]. apply Hkeep. intros u Hin.
    apply elem_of_app in Hin as [Hin | Hin].
    + now apply progress_prefix_no_text_uri in Hin.
    + repeat (apply elem_of_cons in Hin as [Hin | Hin]; [discriminate |]).
      now apply elem_of_nil in Hin.
  - exists (success_events info u1 u2 w seconds).
    split; [exact T0 |]. split; [exact Rp |]. cbn.
    exists u1, w, u2, seconds. unfold success_events.
    now rewrite notify_events_notification.
Qed.

Lemma writes_in_order_witness :
  let e := text_uri_fails_env in
  let s := example_state false in
  let out := _process_single_document example_config e (example_info (Some 1)) None s in
  exists evs,
    trace (snd out) =
      trace s ++ set_processing_lock true :: evs ++ [clear_processing_lock] /\
    replay e "D1" (evs ++ [clear_processing_lock]) 2
      (queue (snd (_set_processing_lock e "D1" s))) =
      (queue (snd out), 8%nat) /\
    evs =
      [update_datalake_raw_uri "/lake/D1/source.pdf";
       save_extracted_content [(1, "tesseract"%string)];
       update_datalake_text_uri "/out/D1/extracted_text"; update_queue_status 100;
       update_text_extraction_duration 2; update_last_processed; call_service2 1].
Proof.
  cbv zeta.
  destruct (writes_in_order example_config text_uri_fails_env (example_info (Some 1))
              None (example_state false) eq_refl ltac:(discriminate))
    as (evs & Ht & Hr & Hm).
  exists evs. split; [exact Ht |]. split; [exact Hr |].
  assert (E : trace (snd (_process_single_document example_config text_uri_fails_env
                            (example_info (Some 1)) None (example_state false))) =
              set_processing_lock true ::
              [update_datalake_raw_uri "/lake/D1/source.pdf";
               save_extracted_content [(1, "tesseract"%string)];
               update_datalake_text_uri "/out/D1/extracted_text";
               update_queue_status 100; update_text_extraction_duration 2;
               update_last_processed; call_service2 1] ++ [clear_processing_lock])
    by (vm_compute; reflexivity).
  rewrite E in Ht. change (trace (example_state false)) with (@nil event) in Ht.
  rewrite app_nil_l in Ht. injection Ht as Ht.
  symmetry. apply (app_inv_tail [clear_processing_lock]). exact Ht.
Defined.

(** *** Which documents a run counts *)

(** The two counters of a batch: [processed_documents] and
    [processed_pages]. *)
Definition counters (b : string) (s : state) : option (Z * Z) :=
  (λ t, (Tracker.processed_documents t, Tracker.processed_pages t)) <$>
  trackers s !! b.

(** One more document, with its pages when their number is positive. *)
Definition count_one (pages : Z) (c : Z * Z) : Z * Z :=
  (c.1 + 1, c.2 + Z.max 0 pages).

Definition pages_of (r : Tracker.doc_result) : Z :=
  default 0 (Tracker.r_total_pages r).

Lemma update_progress_counters (b doc stage operation status_value : string)
    (now : Z) (t : gmap string Tracker.entry) :
  (λ t, (Tracker.processed_documents t, Tracker.processed_pages t)) <$>
    Tracker.update_progress t b
      [Tracker.kw_current_document doc; Tracker.kw_current_stage stage;
       Tracker.kw_current_operation operation; Tracker.kw_status status_value]
      now !! b =
  (λ t, (Tracker.processed_documents t, Tracker.processed_pages t)) <$> t !! b.
Proof.
  unfold Tracker.update_progress. destruct (t !! b) as [x |] eqn:E.
  - rewrite lookup_insert_eq. destruct x. reflexivity.
  - rewrite E. reflexivity.
Qed.

Lemma increment_processed_counters (b : string) (n now : Z)
    (t : gmap string Tracker.entry) :
  (λ t, (Tracker.processed_documents t, Tracker.processed_pages t)) <$>
    (Tracker.increment_processed t b n now).1 !! b =
  count_one n <$>
    ((λ t, (Tracker.processed_documents t, Tracker.processed_pages t)) <$> t !! b).
Proof.
  unfold Tracker.increment_processed. destruct (t !! b) as [x |] eqn:E.
  - cbn [fst]. rewrite lookup_insert_eq. cbn. unfold count_one. cbn.
    do 2 f_equal. destruct (Z.ltb_spec 0 n); lia.
  - cbn [fst]. rewrite E. reflexivity.
Qed.

Section Counting.

Variable b : string.
Hypothesis b_named : truthy (Some b) = true.
Variable self : config.
Variable e : env.
Variable info : doc_info.

(** A step that leaves the counters of the batch alone. *)
Definition quiet {A} (m : M A) : Prop :=
  forall s, counters b (snd (m s)) = counters b s.

(** A computation that counts the document iff it returns a success. *)
Definition counts (m : M Tracker.doc_result) : Prop :=
  forall s,
    counters b (snd (m s)) =
    match fst (m s) with
    | Ret r =>
        if Tracker.r_success r then count_one (pages_of r) <$> counters b s
        else counters b s
    | Raise _ => counters b s
    end.

Lemma counts_bind {A} (m : M A) (f : A -> M Tracker.doc_result) :
  quiet m -> (forall a, counts (f a)) -> counts (bind m f).
Proof.
  intros Hm Hf s. unfold bind. specialize (Hm s).
  destruct (m s) as [[a | err] s1]; cbn [fst snd] in *; [| exact Hm].
  rewrite (Hf a s1), Hm. reflexivity.
Qed.

Lemma counts_failure (id : string) (text : option message) :
  counts (ret (failure id text)).
Proof. intros s. reflexivity. Qed.

Lemma quiet_statement (ev : event) (change : Z -> list row -> list row) :
  quiet (log ev ;;; execute e change).
Proof. intros s. rewrite logged_statement_eq. reflexivity. Qed.

Lemma quiet_progress (doc stage operation status_value : string) (now : Z) :
  quiet (when_batch (Some b) (λ b, on_trackers (λ t,
    Tracker.update_progress t b
      [Tracker.kw_current_document doc; Tracker.kw_current_stage stage;
       Tracker.kw_current_operation operation; Tracker.kw_status status_value]
      now))).
Proof.
  intros s. rewrite when_batch_eq. unfold counters, batch_step.
  cbn [snd trackers]. rewrite b_named. apply update_progress_counters.
Qed.

Lemma increment_counts (n now : Z) (s : state) :
  exists s',
    when_batch (Some b) (λ b, on_trackers (λ t,
      (Tracker.increment_processed t b n now).1)) s = (Ret tt, s') /\
    counters b s' = count_one n <$> counters b s.
Proof.
  rewrite when_batch_eq. eexists. split; [reflexivity |].
  unfold counters, batch_step. cbn [trackers]. rewrite b_named.
  apply increment_processed_counters.
Qed.

Lemma counts_save_and_complete (r : PdfProcessor.extraction_result) :
  counts (save_and_complete self e info (Some b) r).
Proof.
  unfold save_and_complete. cbv zeta.
  apply counts_bind; [| intros _].
  { intros s. unfold _save_extracted_content_to_service1_folder, bind, log.
    cbn. destruct (storage_write e); reflexivity. }
  apply counts_bind; [apply quiet_statement | intros _].
  apply counts_bind; [apply quiet_statement | intros _].
  apply counts_bind; [apply quiet_progress | intros _].
  apply counts_bind; [apply quiet_statement | intros _].
  apply counts_bind; [apply quiet_statement | intros _].
  apply counts_bind; [| intros _].
  { intros s. rewrite notify_eq. reflexivity. }
  intros s. unfold bind.
  destruct (increment_counts (PdfProcessor.total_pages r) (tracker_now e) s)
    as (s' & -> & Hc).
  cbn [fst snd ret Tracker.r_success]. rewrite Hc. reflexivity.
Qed.

Lemma counts_extract_and_save (pdf_path : path) :
  counts (extract_and_save self e info (Some b) pdf_path).
Proof.
  unfold extract_and_save. cbv zeta.
  apply counts_bind; [apply quiet_statement | intros _].
  apply counts_bind; [apply quiet_progress | intros _].
  apply counts_bind; [| intros r].
  { intros s. destruct (extract_pdf_text_eq self e pdf_path (di_password info) s)
      as (est & ->). reflexivity. }
  destruct (negb (PdfProcessor.success r)); [| apply counts_save_and_complete].
  apply counts_bind; [apply quiet_statement | intros _].
  apply counts_bind; [apply quiet_statement | intros _].
  apply counts_failure.
Qed.

Lemma counts_try_block : counts (try_block self e info (Some b)).
Proof.
  unfold try_block. cbv zeta.
  apply counts_bind; [| intros acquired].
  { intros s. destruct (set_processing_lock_eq e (di_doc_id info) s)
      as (q & n & -> & _). reflexivity. }
  apply counts_bind; [intros s; reflexivity | intros _].
  destruct (negb acquired); [apply counts_failure |].
  apply counts_bind; [apply quiet_progress | intros _].
  apply counts_bind; [intros s; reflexivity | intros [pdf_path |]];
    [apply counts_extract_and_save |].
  apply counts_bind; [apply quiet_statement | intros _].
  apply counts_bind; [apply quiet_statement | intros _].
  apply counts_failure.
Qed.

Lemma except_block_counts (err : exn) (s : state) :
  counters b (snd (except_block e info (Some b) err s)) =
  count_one 0 <$> counters b s.
Proof.
  unfold except_block. cbv zeta.
  unfold bind at 1. unfold _update_queue_status. rewrite logged_statement_eq.
  unfold bind at 1. unfold _update_error_message. rewrite logged_statement_eq.
  unfold bind at 1.
  match goal with |- context [when_batch _ _ ?s0] =>
    destruct (increment_counts 0 (tracker_now e) s0) as (s' & -> & Hc) end.
  cbn [snd ret]. rewrite Hc. reflexivity.
Qed.

Lemma quiet_finally_block : quiet (finally_block e info).
Proof.
  intros s. unfold finally_block, bind at 1, get_lock_acquired.
  destruct (lock_acquired s); [| reflexivity].
  unfold _clear_processing_lock, bind at 1. rewrite logged_statement_eq.
  reflexivity.
Qed.

End Counting.

(** X26.  A run counts its document in [processed_documents] exactly when
    it succeeds or when an exception reaches the [except] block.  When the
    [try] block returns a result, the run returns it, and the counters of the
    batch move only for a success (one document more, and its pages when
    positive); a failure returned by the [try] block (lock held, PDF not
    accessible, extraction unsuccessful) leaves them as they were.  When the
    [try] block raises an [Exception], the run returns a failure with its text
    and counts one document and no page. *)
Theorem counted_iff_success_or_exception (self : config) (e : env)
    (info : doc_info) (b : string) (s : state) :
  truthy (Some b) = true ->
  let out := _process_single_document self e info (Some b) s in
  let body :=
    try_block self e info (Some b)
      {| queue := queue s; trackers := trackers s; engine := engine s;
         statements := statements s; trace := trace s;
         lock_acquired := false |} in
  match fst body with
  | Ret r =>
      fst out = Ret r /\
      counters b (snd out) =
        if Tracker.r_success r then count_one (pages_of r) <$> counters b s
        else counters b s
  | Raise err =>
      if exn_is_Exception err
      then fst out = Ret (failure (di_doc_id info) (Some (exn_text err))) /\
           counters b (snd out) = count_one 0 <$> counters b s
      else fst out = Raise err /\ counters b (snd out) = counters b s
  end.
Proof.
  intros Hb. cbv zeta.
  set (s0 := {| queue := queue s; trackers := trackers s; engine := engine s;
                statements := statements s; trace := trace s;
                lock_acquired := false |}).
  assert (E : _process_single_document self e info (Some b) s =
              try_finally
                (try_except (try_block self e info (Some b))
                   (except_block e info (Some b)))
                (finally_block e info) s0) by reflexivity.
  rewrite E. clear E. unfold try_finally, try_except.
  pose proof (counts_try_block b Hb self e info s0) as Hc.
  change (counters b s0) with (counters b s) in Hc.
  destruct (try_block self e info (Some b) s0) as [[r | err] s1];
    cbn [fst snd] in *.
  - destruct (finally_block_eq e info s1) as (s2 & Hf & _).
    pose proof (quiet_finally_block b e info s1) as Hq.
    rewrite Hf in Hq |- *. cbn [fst snd] in *. split; [reflexivity | congruence].
  - destruct (exn_is_Exception err).
    + destruct (except_block_eq e info (Some b) err s1) as (s2 & Hx & _).
      pose proof (except_block_counts b Hb e info err s1) as Hxc.
      rewrite Hx in Hxc |- *. cbn [snd] in Hxc.
      destruct (finally_block_eq e info s2) as (s3 & Hf & _).
      pose proof (quiet_finally_block b e info s2) as Hq.
      rewrite Hf in Hq |- *. cbn [fst snd] in *. split; [reflexivity | congruence].
    + destruct (finally_block_eq e info s1) as (s2 & Hf & _).
      pose proof (quiet_finally_block b e info s1) as Hq.
      rewrite Hf in Hq |- *. cbn [fst snd] in *. split; [reflexivity | congruence].
Qed.

(** A datalake that has no PDF for the document. *)
Definition no_pdf_env : env :=
  {| db_available := λ _, true; db_now := λ n, Z.of_nat n;
     time_start := 10%Q; time_end := (25 # 2)%Q; tracker_now := 7;
     get_pdf_file := Ret None;
     fitz_open := Done scanned_document; storage_write := Ret tt;
     post := Response 200 |}.

Lemma counted_iff_success_or_exception_witness :
  let out := _process_single_document example_config no_pdf_env
               (example_info (Some 1)) (Some "batch_0_1"%string)
               (example_state false) in
  fst out = Ret (failure "D1" (Some (Literal "Could not access PDF file"))) /\
  counters "batch_0_1" (snd out) = Some (0, 0).
Proof.
  exact (counted_iff_success_or_exception example_config no_pdf_env
           (example_info (Some 1)) "batch_0_1" (example_state false) eq_refl).
Defined.

End ServiceMore.

(** ** The results of a batch *)

Module BatchFacts.
Import Py PyStr Tracker Service Batch QualityGateFacts.
Local Open Scope Z_scope.

Lemma len_map {A B} (f : A -> B) (l : list A) : len (map f l) = len l.
Proof. unfold len. now rewrite length_map. Qed.

Lemma count_positive {A} (p : A -> bool) (l : list A) :
  0 < count p l <-> exists x, x ∈ l /\ p x = true.
Proof.
  unfold count. induction l as [| a l IH].
  - split; [unfold len; cbn; lia | intros (x & Hx & _); inversion Hx].
  - cbn [List.filter]. destruct (p a) eqn:Ha.
    + rewrite len_step. split.
      * intros _. exists a. split; [left | exact Ha].
      * intros _. pose proof (len_pos (List.filter p l)). lia.
    + rewrite IH. split.
      * intros (x & Hx & Hp). exists x. split; [now right | exact Hp].
      * intros (x & Hx & Hp). apply elem_of_cons in Hx as [-> | Hx]; [congruence |].
        eauto.
Qed.

(** A batch without documents: the method returns early with the failure
    ["No documents found in queue"], without counts, and fails the batch in
    the tracker. *)
Lemma no_documents_response (batch_id : option string) (now finished : Z)
    (trackers : gmap string entry) :
  let out := process_results batch_id [] now finished trackers in
  success (fst out) = false /\ message (fst out) = NoDocuments /\
  results (fst out) = [] /\
  successful_count (fst out) = None /\ failed_count (fst out) = None /\
  (forall b tracker,
     batch_id = Some b -> truthy batch_id = true -> trackers !! b = Some tracker ->
     exists tracker',
       snd out !! b = Some tracker' /\ status tracker' = "failed"%string /\
       error tracker' = Some (Literal "No documents found in queue")).
Proof.
  cbv zeta. cbn. repeat split.
  intros b tracker -> Ht Hl. rewrite Ht. unfold fail_extraction. rewrite Hl.
  eexists. split; [apply lookup_insert_eq |]. split; reflexivity.
Qed.

(** X19.  The verdict of a batch with at least one document: the result
    list has one entry per document, in the order of the documents, the
    result a task returned or, for a task that raised, a failure carrying the
    document's id and the text of the exception; the response carries the
    number of successes and of failures, which add up to the number of
    documents, and its message reports these three numbers; and the batch
    reports success as soon as one document succeeded, however many
    failed. *)
Theorem batch_verdict (batch_id : option string)
    (completed : list (doc_info * task)) (now finished : Z)
    (trackers : gmap string entry) :
  completed <> [] ->
  let response := fst (process_results batch_id completed now finished trackers) in
  length (results response) = length completed /\
  (forall (i : nat) (doc : doc_info) (t : task),
     completed !! i = Some (doc, t) ->
     results response !! i =
       Some match t with
            | Returned r => r
            | Raised text => failure (di_doc_id doc) (Some text)
            end) /\
  (exists successful failed,
     successful_count response = Some successful /\
     failed_count response = Some failed /\
     message response = Processed (len completed) successful failed /\
     successful + failed = len completed /\ 0 <= successful /\ 0 <= failed) /\
  (success response = true <->
   exists r, r ∈ results response /\ r_success r = true).
Proof.
  intros Hne. cbv zeta. unfold process_results.
  destruct completed as [| c0 rest] eqn:Ec; [contradiction |]. rewrite <- Ec.
  cbn [fst results successful_count failed_count success message].
  set (rs := map (λ c, result_of c.1 c.2) completed).
  pose proof (count_bounds r_success rs) as Hb.
  assert (Hl : len rs = len completed) by apply len_map.
  split; [apply length_map |]. split; [| split].
  - intros i doc t Hi. unfold rs.
    change (((λ c : doc_info * task, result_of c.1 c.2) <$> completed) !! i =
            Some match t with
                 | Returned r => r
                 | Raised text => failure (di_doc_id doc) (Some text)
                 end).
    rewrite list_lookup_fmap, Hi. destruct t; reflexivity.
  - eexists _, _. split; [reflexivity |]. split; [reflexivity |].
    split; [now rewrite Hl |]. lia.
  - split; intros H.
    + apply Z.ltb_lt in H. now apply count_positive.
    + apply Z.ltb_lt. now apply count_positive.
Qed.

(** X20.  What a batch leaves in the tracker.  For a known batch with at
    least one document, the snapshot ends with the stage completed and with
    both page counts replaced by the sums over the documents that succeeded
    (the total announced from the queue is overwritten); then the batch is
    completed (status completed, 100 percent, the results attached) when a
    document succeeded and failed otherwise. *)
Theorem batch_final_snapshot (b : string) (completed : list (doc_info * task))
    (now finished : Z) (trackers : gmap string entry) (tracker : entry) :
  truthy (Some b) = true ->
  completed <> [] ->
  trackers !! b = Some tracker ->
  let out := process_results (Some b) completed now finished trackers in
  exists tracker',
    snd out !! b = Some tracker' /\
    total_pages tracker' = foldl add_total 0 (map snd completed) /\
    processed_pages tracker' = foldl add_processed 0 (map snd completed) /\
    current_stage tracker' = Some "completed"%string /\
    total_documents tracker' = total_documents tracker /\
    processed_documents tracker' = processed_documents tracker /\
    if success (fst out)
    then status tracker' = "completed"%string /\
         progress_percentage tracker' = Some 100 /\
         Tracker.results tracker' = results (fst out) /\
         completed_at tracker' = Some finished
    else status tracker' = "failed"%string /\
         error tracker' = Some (Literal "All documents failed to process") /\
         progress_percentage tracker' = progress_percentage tracker.
Proof.
  intros Ht Hne Hl. cbv zeta. unfold process_results.
  destruct completed as [| c0 completed]; [contradiction |]. rewrite Ht.
  set (rs := map (λ c, result_of c.1 c.2) (c0 :: completed)).
  set (tp := foldl add_total 0 (map snd (c0 :: completed))).
  set (pp := foldl add_processed 0 (map snd (c0 :: completed))).
  set (ok := 0 <? count r_success rs).
  clearbody ok rs tp pp. cbn [fst snd success results].
  unfold update_progress. rewrite Hl.
  cbn [foldl set_key existsb is_processed_documents orb andb].
  destruct tracker. cbn [Tracker.total_documents Tracker.processed_documents
    Tracker.total_pages Tracker.processed_pages Tracker.current_document
    Tracker.current_stage Tracker.current_operation Tracker.status
    Tracker.start_time Tracker.results Tracker.errors Tracker.progress_percentage
    Tracker.completed_at Tracker.error].
  destruct ok.
  - unfold complete_extraction. rewrite lookup_insert_eq.
    eexists. split; [apply lookup_insert_eq |]. cbn. repeat split.
  - unfold fail_extraction. rewrite lookup_insert_eq.
    eexists. split; [apply lookup_insert_eq |]. cbn. repeat split.
Qed.

(** Two documents: the first extracted three pages, the task of the second
    raised. *)
Definition two_tasks : list (doc_info * task) :=
  [({| di_extraction_id := Some 7; di_doc_id := "D1"; di_password := None |},
    Returned {| r_doc_id := "D1"; r_success := true; r_error := None;
                r_total_pages := Some 3; r_processed_pages := Some 3;
                r_duration_seconds := Some 2 |});
   ({| di_extraction_id := Some 8; di_doc_id := "D2"; di_password := None |},
    Raised (Literal "connection reset"))].

(** The entry [start_extraction] makes for two queue ids at time 0. *)
Definition started : entry :=
  {| total_documents := 2; processed_documents := 0; total_pages := 0;
     processed_pages := 0; current_document := None; current_stage := None;
     current_operation := None; status := "starting"; start_time := 0;
     last_update := 0; Tracker.results := []; errors := [];
     progress_percentage := None; completed_at := None; error := None |}.

Lemma batch_verdict_witness :
  let response := fst (process_results (Some "batch_1_2"%string) two_tasks 5 6
                         (start_extraction ∅ "batch_1_2" [7; 8] 0)) in
  results response !! 1%nat =
    Some (failure "D2" (Some (Literal "connection reset"))) /\
  successful_count response = Some 1 /\ failed_count response = Some 1 /\
  success response = true.
Proof.
  cbv zeta.
  destruct (batch_verdict (Some "batch_1_2"%string) two_tasks 5 6
              (start_extraction ∅ "batch_1_2" [7; 8] 0) ltac:(discriminate))
    as (_ & Hi & _ & _).
  split; [exact (Hi 1%nat _ _ eq_refl) |]. repeat split.
Defined.

Lemma batch_final_snapshot_witness :
  let trackers := start_extraction ∅ "batch_1_2" [7; 8] 0 in
  let out := process_results (Some "batch_1_2"%string) two_tasks 5 6 trackers in
  exists tracker',
    snd out !! "batch_1_2" = Some tracker' /\
    total_pages tracker' = foldl add_total 0 (map snd two_tasks) /\
    processed_pages tracker' = foldl add_processed 0 (map snd two_tasks) /\
    current_stage tracker' = Some "completed"%string /\
    total_documents tracker' = total_documents started /\
    processed_documents tracker' = processed_documents started /\
    if success (fst out)
    then status tracker' = "completed"%string /\
         progress_percentage tracker' = Some 100 /\
         Tracker.results tracker' = results (fst out) /\
         completed_at tracker' = Some 6
    else status tracker' = "failed"%string /\
         error tracker' = Some (Literal "All documents failed to process") /\
         progress_percentage tracker' = progress_percentage started.
Proof.
  cbv zeta.
  apply (batch_final_snapshot "batch_1_2" two_tasks 5 6
           (start_extraction ∅ "batch_1_2" [7; 8] 0) started).
  - reflexivity.
  - discriminate.
  - apply lookup_insert_eq.
Defined.

End BatchFacts.
